(** * A shallow embedding of [sudoku.py] (class [Sudoku]) and its properties

    The program keeps a puzzle in a Python 2 [dict] from cell names
    (["A1"] .. ["I9"]) to strings of candidate digits.  Three features of the
    source shape the model:

    - candidate sets are _strings_: they are compared with [!=], measured
      with [len], shrunk with [str.replace] and used as dictionary keys;
    - [self] is mutated in place and is still mutated when an exception
      leaves a method, so every operation is a state transformer that gives
      back the grid together with a value or a raised exception;
    - the order in which a Python 2 dictionary is iterated is not fixed by
      the language.  A dictionary is kept here as the list of its items in
      insertion order, and the order of iteration is a parameter
      [dict_order] of the development, only assumed to permute the keys.

    [display] and [sample] write with the [print] statement; standard
    output is a state of its own, the text written so far together with
    the [softspace] flag of the file object. *)

From Stdlib Require Import List String Ascii Arith Lia Bool Permutation.
Import ListNotations.
Local Open Scope string_scope.
Local Open Scope nat_scope.
Local Open Scope list_scope.

(** ** Strings as Python uses them *)

(** [for c in s]: the characters of a string, in order. *)
Definition chars (s : string) : list ascii := list_ascii_of_string s.

(** A one-character string, what [for c in s] binds [c] to. *)
Definition char1 (c : ascii) : string := String c EmptyString.

(** [c in s] for a one-character [c]. *)
Fixpoint contains (c : ascii) (s : string) : bool :=
  match s with
  | EmptyString => false
  | String x s' => if Ascii.eqb x c then true else contains c s'
  end.

(** [s.replace(c, '')] for a one-character [c]. *)
Fixpoint replace (c : ascii) (s : string) : string :=
  match s with
  | EmptyString => EmptyString
  | String x s' => if Ascii.eqb x c then replace c s' else String x (replace c s')
  end.

(** [''.join(l)] *)
Definition join (l : list string) : string := fold_right String.append "" l.

(** ** Exceptions and results *)

Inductive exn : Type :=
| ValueError        (* raised by [__init__] on a malformed puzzle *)
| StopIteration     (* [iterpuzzle.next()] on an exhausted iterator *)
| KeyError          (* [d[k]] on a missing key *)
| SudokuException.  (* "Puzzle is not solvable" *)

Inductive result (A : Type) : Type :=
| Ret (a : A)
| Raise (e : exn).
Arguments Ret {A} a.
Arguments Raise {A} e.

(** ** Dictionaries

    Items are stored in insertion order; assignment to a present key keeps
    its place, assignment to a new key appends. *)

Definition dict (V : Type) : Type := list (string * V).

Fixpoint dict_get {V : Type} (d : dict V) (k : string) : option V :=
  match d with
  | [] => None
  | (k', v) :: d' => if String.eqb k' k then Some v else dict_get d' k
  end.

Fixpoint dict_set {V : Type} (d : dict V) (k : string) (v : V) : dict V :=
  match d with
  | [] => [(k, v)]
  | (k', v') :: d' =>
      if String.eqb k' k then (k', v) :: d' else (k', v') :: dict_set d' k v
  end.

(** [d.setdefault(k, v)]: the dictionary afterwards and the value returned. *)
Definition setdefault {V : Type} (d : dict V) (k : string) (v : V) : dict V * V :=
  match dict_get d k with
  | Some v' => (d, v')
  | None => (dict_set d k v, v)
  end.

(** The grid: cell name to candidate string. *)
Definition Sudoku : Type := dict string.

(** ** State and exceptions *)

Definition M (A : Type) : Type := Sudoku -> Sudoku * result A.

Definition ret {A : Type} (a : A) : M A := fun self => (self, Ret a).
Definition raise {A : Type} (e : exn) : M A := fun self => (self, Raise e).
Definition bind {A B : Type} (m : M A) (k : A -> M B) : M B :=
  fun self =>
    match m self with
    | (self', Ret a) => k a self'
    | (self', Raise e) => (self', Raise e)
    end.

Notation "x <- m ;; k" := (bind m (fun x => k))
  (at level 61, m at next level, right associativity).
Notation "m ;;; k" := (bind m (fun _ => k))
  (at level 61, right associativity).

(** [self[k]] *)
Definition getitem (k : string) : M string :=
  fun self =>
    match dict_get self k with
    | Some v => (self, Ret v)
    | None => (self, Raise KeyError)
    end.

(** [self[k] = v] *)
Definition setitem (k v : string) : M unit :=
  fun self => (dict_set self k v, Ret tt).

(** [for x in l: body(x)], left by the first exception. *)
Fixpoint for_each {A : Type} (l : list A) (body : A -> M unit) : M unit :=
  match l with
  | [] => ret tt
  | x :: l' => body x ;;; for_each l' body
  end.

(** ** The grid geometry *)

Definition rows9 : string := "ABCDEFGHI".
Definition cols9 : string := "123456789".

(** [row + col] for the one-character strings of two nested loops. *)
Definition cell_name (row col : ascii) : string := String row (char1 col).

(** The keys of [for row in rows: for col in cols], in loop order. *)
Definition area_cells (rows cols : string) : list string :=
  flat_map (fun row => map (cell_name row) (chars cols)) (chars rows).

Definition all_cells : list string := area_cells rows9 cols9.

(** The arguments of the 27 calls of [__process_areas], in call order. *)
Definition areas : list (string * string) :=
  map (fun row => (char1 row, cols9)) (chars rows9)
  ++ map (fun col => (rows9, char1 col)) (chars cols9)
  ++ flat_map (fun rows => map (fun cols => (rows, cols)) ["123"; "456"; "789"])
       ["ABC"; "DEF"; "GHI"].

Section Solver.

(** The iteration order of a dictionary, as a function of the keys in
    insertion order. *)
Variable dict_order : list string -> list string.

Definition keys {V : Type} (d : dict V) : list string :=
  dict_order (map fst d).

Definition iteritems {V : Type} (d : dict V) : list (string * V) :=
  flat_map (fun k => match dict_get d k with
                     | Some v => [(k, v)]
                     | None => []
                     end) (keys d).

Definition itervalues {V : Type} (d : dict V) : list V :=
  map snd (iteritems d).

(** *** [Sudoku.__init__] *)

(** The characters [re.sub(r'[^0-9\.]', '', puzzle)] keeps. *)
Definition kept (c : ascii) : bool :=
  let n := nat_of_ascii c in
  ((48 <=? n) && (n <=? 57)) || (n =? 46).

Definition re_sub (puzzle : string) : list ascii := filter kept (chars puzzle).

(** [val in '0.'] for a one-character [val]. *)
Definition placeholder (val : ascii) : bool := contains val "0.".

(** The two nested loops of the string branch: [cells] are the keys still
    to fill, [iterpuzzle] what the iterator has left. *)
Fixpoint fill (cells : list string) (iterpuzzle : list ascii) : M unit :=
  match cells with
  | [] => ret tt
  | cell :: cells' =>
      match iterpuzzle with
      | [] => raise StopIteration
      | val :: iterpuzzle' =>
          setitem cell (if placeholder val then "123456789" else char1 val) ;;;
          fill cells' iterpuzzle'
      end
  end.

(** [Sudoku(puzzle)] for a string [puzzle]: the object (as far as it was
    filled) and whether the constructor returned or raised. *)
Definition Sudoku_init (puzzle : string) : Sudoku * result unit :=
  let puzzle := re_sub puzzle in
  if negb (List.length puzzle =? 81) then raise ValueError []
  else fill all_cells puzzle [].

(** [Sudoku(puzzle)] for a [Sudoku] instance [puzzle], and [copy]. *)
Definition Sudoku_init_copy (puzzle : Sudoku) : Sudoku :=
  fold_left (fun self item => dict_set self (fst item) (snd item))
    (iteritems puzzle) [].

Definition copy (self : Sudoku) : Sudoku := Sudoku_init_copy self.

(** *** [complexity], [solved] *)

Definition complexity (self : Sudoku) : nat :=
  String.length (join (itervalues self)).

Definition solved (self : Sudoku) : bool := complexity self =? 81.

(** *** [__process_area], [__process_areas] *)

(** The loops that build [area]. *)
Fixpoint build_area (cells : list string) (area : dict string)
  : M (dict string) :=
  match cells with
  | [] => ret area
  | cell :: cells' =>
      v <- getitem cell ;;
      build_area cells' (dict_set area cell v)
  end.

Definition process_area (rows cols : string) (func : dict string -> M unit)
  : M unit :=
  area <- build_area (area_cells rows cols) [] ;;
  func area.

Definition process_areas (func : dict string -> M unit) : M unit :=
  for_each areas (fun rc => process_area (fst rc) (snd rc) func).

(** *** [simplify] *)

(** The first loop of [simplify_area]: how often each candidate string
    occurs in the area. *)
Definition count_options (area : dict string) : dict nat :=
  fold_left (fun options val =>
               let (options', n) := setdefault options val 0 in
               dict_set options' val (n + 1))
    (itervalues area) [].

(** [for opt in option: if opt in selfloc: selfloc = selfloc.replace(opt, '')] *)
Definition remove_options (option selfloc : string) : string :=
  fold_left (fun selfloc opt =>
               if contains opt selfloc then replace opt selfloc else selfloc)
    (chars option) selfloc.

(** The body of [for loc in area.keys()]. *)
Definition eliminate (option loc : string) : M unit :=
  selfloc <- getitem loc ;;
  if negb (String.eqb selfloc option)
  then setitem loc (remove_options option selfloc)
  else ret tt.

(** The body of [for option, freq in options.iteritems()]. *)
Definition simplify_option (area : dict string) (item : string * nat) : M unit :=
  let (option, freq) := item in
  let optlen := String.length option in
  if optlen =? freq then for_each (keys area) (eliminate option)
  else if optlen <? freq then raise SudokuException
  else ret tt.

Definition simplify_area (area : dict string) : M unit :=
  for_each (iteritems (count_options area)) (simplify_option area).

(** The [while] loop of [simplify]; [fuel] bounds the number of passes and
    [None] means the bound was hit. *)
Fixpoint simplify_loop (fuel before after : nat) (self : Sudoku)
  : option (Sudoku * result unit) :=
  if before =? after then Some (self, Ret tt)
  else
    match fuel with
    | 0 => None
    | S fuel' =>
        match process_areas simplify_area self with
        | (self', Ret _) => simplify_loop fuel' after (complexity self') self'
        | (self', Raise e) => Some (self', Raise e)
        end
    end.

(** A pass that goes on to another one has removed a character, so
    [complexity self + 1] passes are always enough (lemma
    [simplify_total] below). *)
Definition simplify (self : Sudoku) : option (Sudoku * result bool) :=
  match simplify_loop (S (complexity self)) 0 (complexity self) self with
  | None => None
  | Some (self', Ret _) => Some (self', Ret (solved self'))
  | Some (self', Raise e) => Some (self', Raise e)
  end.

(** *** [solve] *)

(** [for cell, options in self.iteritems(): if len(options) == i: break]
    started from [cell, options = None, ()]: what the two variables hold
    after the loop. *)
Fixpoint scan (i : nat) (items : list (string * string))
  (cur : option string * string) : option string * string :=
  match items with
  | [] => cur
  | (cell, options) :: items' =>
      if String.length options =? i then (Some cell, options)
      else scan i items' (Some cell, options)
  end.

(** [for cell, options in trial.iteritems(): self[cell] = options] *)
Definition copy_back (trial self : Sudoku) : Sudoku :=
  fold_left (fun self item => dict_set self (fst item) (snd item))
    (iteritems trial) self.

(** [for option in options: ...] of [solve].  [rec] is the recursive call;
    [None] is a computation that does not come back; [Ret (Some b)] is
    [return b] inside the loop and [Ret None] the end of the loop. *)
Fixpoint try_options (rec : Sudoku -> option (Sudoku * result bool))
  (cell : string) (options : list ascii) (self : Sudoku)
  : option (Sudoku * result (option bool)) :=
  match options with
  | [] => Some (self, Ret None)
  | option :: options' =>
      let trial := dict_set (copy self) cell (char1 option) in
      match rec trial with
      | None => None
      | Some (trial', Ret true) => Some (copy_back trial' self, Ret (Some true))
      | Some (_, Ret false) => try_options rec cell options' self
      | Some (_, Raise SudokuException) =>
          match dict_get self cell with
          | None => Some (self, Raise KeyError)
          | Some v =>
              match simplify (dict_set self cell (replace option v)) with
              | None => None
              | Some (self', Ret true) => Some (self', Ret (Some true))
              | Some (self', Ret false) => try_options rec cell options' self'
              | Some (self', Raise e) => Some (self', Raise e)
              end
          end
      | Some (_, Raise e) => Some (self, Raise e)
      end
  end.

(** [for i in range(2, 10): ...] of [solve]. *)
Fixpoint try_levels (rec : Sudoku -> option (Sudoku * result bool))
  (levels : list nat) (self : Sudoku)
  : option (Sudoku * result (option bool)) :=
  match levels with
  | [] => Some (self, Ret None)
  | i :: levels' =>
      match scan i (iteritems self) (None, "") with
      | (None, _) => try_levels rec levels' self
      | (Some cell, options) =>
          match try_options rec cell (chars options) self with
          | Some (self', Ret None) => try_levels rec levels' self'
          | r => r
          end
      end
  end.

(** [solve]; [fuel] bounds the depth of the recursion and [None] means
    that the bound was hit. *)
Fixpoint solve (fuel : nat) (self : Sudoku) : option (Sudoku * result bool) :=
  match fuel with
  | 0 => None
  | S fuel' =>
      match simplify self with
      | None => None
      | Some (self1, Raise e) => Some (self1, Raise e)
      | Some (self1, Ret true) => Some (self1, Ret (solved self1))
      | Some (self1, Ret false) =>
          match try_levels (solve fuel') (seq 2 8) self1 with
          | None => None
          | Some (self2, Raise e) => Some (self2, Raise e)
          | Some (self2, Ret (Some b)) => Some (self2, Ret b)
          | Some (self2, Ret None) => Some (self2, Ret (solved self2))
          end
      end
  end.

(** *** [display]

    Standard output as the [print] statement sees it: the text written so
    far, and the [softspace] flag that says whether a space is due before
    the next item. *)
Record stdout : Type := { written : string; softspace : bool }.

Definition newline : ascii := "010"%char.

(** C's [isspace]. *)
Definition isspace (c : ascii) : bool :=
  let n := nat_of_ascii c in
  (n =? 32) || ((9 <=? n) && (n <=? 13)).

Fixpoint last_char (s : string) : option ascii :=
  match s with
  | EmptyString => None
  | String c EmptyString => Some c
  | String _ s' => last_char s'
  end.

(** [print s,]: a space if one is due, then [s]; a space is due afterwards
    unless [s] ends in a whitespace character other than [' ']. *)
Definition print_item (s : string) (out : stdout) : stdout :=
  {| written := (written out ++ (if softspace out then " " else "") ++ s)%string;
     softspace := match last_char s with
                  | Some c => negb (isspace c) || Ascii.eqb c " "
                  | None => true
                  end |}.

(** The end of a [print] statement without a trailing comma. *)
Definition print_newline (out : stdout) : stdout :=
  {| written := (written out ++ String newline "")%string; softspace := false |}.

(** [c * n] for a one-character string [c]. *)
Definition times (c : ascii) (n : nat) : string :=
  string_of_list_ascii (repeat c n).

(** [('%%%ds' % maxlen) % val]: [val], with spaces on its left up to
    [maxlen] characters. *)
Definition format_s (maxlen : nat) (val : string) : string :=
  (times " " (maxlen - String.length val) ++ val)%string.

(** [len(val) if val != '123456789' else 1] *)
Definition shown_length (val : string) : nat :=
  if negb (String.eqb val "123456789") then String.length val else 1.

(** [max(...)] of a generator: [ValueError] when it yields nothing. *)
Definition max_of (l : list nat) : result nat :=
  match l with
  | [] => Raise ValueError
  | n :: l' => Ret (fold_left Nat.max l' n)
  end.

(** The body of [for col in '123456789']. *)
Definition display_cell (self : Sudoku) (maxlen : nat) (row col : ascii)
  (out : stdout) : stdout * result unit :=
  match dict_get self (cell_name row col) with
  | None => (out, Raise KeyError)
  | Some val =>
      let val := if String.eqb val "123456789" then "*" else val in
      let out := print_item (format_s maxlen val) out in
      (if contains col "36" then print_item "|" out else out, Ret tt)
  end.

Fixpoint display_cols (self : Sudoku) (maxlen : nat) (row : ascii)
  (cols : list ascii) (out : stdout) : stdout * result unit :=
  match cols with
  | [] => (out, Ret tt)
  | col :: cols' =>
      match display_cell self maxlen row col out with
      | (out', Ret _) => display_cols self maxlen row cols' out'
      | (out', Raise e) => (out', Raise e)
      end
  end.

(** The body of [for row in 'ABCDEFGHI'] after the cells of the row. *)
Definition end_row (maxlen : nat) (row : ascii) (out : stdout) : stdout :=
  let out := print_newline out in
  if contains row "CF"
  then print_newline (print_item (times "-" ((maxlen + 1) * 9 + 3)) out)
  else out.

Fixpoint display_rows (self : Sudoku) (maxlen : nat) (rows : list ascii)
  (out : stdout) : stdout * result unit :=
  match rows with
  | [] => (out, Ret tt)
  | row :: rows' =>
      match display_cols self maxlen row (chars cols9) out with
      | (out', Ret _) => display_rows self maxlen rows' (end_row maxlen row out')
      | (out', Raise e) => (out', Raise e)
      end
  end.

(** [display]: what standard output holds afterwards, and whether the
    method returned or raised.  The grid is only read. *)
Definition display (self : Sudoku) (out : stdout) : stdout * result unit :=
  match max_of (map shown_length (itervalues self)) with
  | Raise e => (out, Raise e)
  | Ret maxlen => display_rows self maxlen (chars rows9) out
  end.

(** *** [sample] *)

Definition sample_puzzle : string :=
  "
        8.. ... ...
        ..3 6.. ...
        .7. .9. 2..

        .5. ..7 ...
        ... .45 7..
        ... 1.. .3.

        ..1 ... .68
        ..8 5.. .1.
        .9. ... 4..
    ".

(** [sample()]; [fuel] bounds the depth of the recursion of [solve] and
    [None] means that the bound was hit.  The value [solve] returns is
    dropped. *)
Definition sample (fuel : nat) (out : stdout) : option (stdout * result unit) :=
  match Sudoku_init sample_puzzle with
  | (_, Raise e) => Some (out, Raise e)
  | (sudoku, Ret _) =>
      match display sudoku out with
      | (out1, Raise e) => Some (out1, Raise e)
      | (out1, Ret _) =>
          let out2 := print_newline out1 in
          match solve fuel sudoku with
          | None => None
          | Some (_, Raise e) => Some (out2, Raise e)
          | Some (sudoku', Ret _) =>
              match display sudoku' out2 with
              | (out3, Raise e) => Some (out3, Raise e)
              | (out3, Ret _) => Some (out3, Ret tt)
              end
          end
      end
  end.


(** ** Notions used in the statements *)

(** A digit ['1'] .. ['9']. *)
Definition digit (c : ascii) : bool := contains c cols9.

(** A candidate string made of digits only. *)
Definition digits (s : string) : Prop :=
  forall c, contains c s = true -> digit c = true.

(** [a] is [b] with some characters taken out, as far as the proofs need
    it: nothing new, not longer, and equal when no shorter. *)
Definition shrinks (a b : string) : Prop :=
  (forall c, contains c a = true -> contains c b = true)
  /\ String.length a <= String.length b
  /\ (String.length a = String.length b -> a = b).

(** The same keys in the same places, every candidate string shrunk. *)
Definition shrunk (s' s : Sudoku) : Prop :=
  Forall2 (fun a b => fst a = fst b /\ shrinks (snd a) (snd b)) s' s.

(** The number of candidates a grid holds, item by item. *)
Definition weight (s : Sudoku) : nat :=
  list_sum (map (fun kv => String.length (snd kv)) s).

(** A dictionary: no key twice. *)
Definition dict_ok {V : Type} (d : dict V) : Prop := NoDup (map fst d).

(** A grid of the 81 cells whose candidate strings are made of digits. *)
Definition well_formed (s : Sudoku) : Prop :=
  Permutation (map fst s) all_cells
  /\ forall cell v, dict_get s cell = Some v -> digits v.

(** [self[cell] == v] *)
Definition holds (s : Sudoku) (cell v : string) : bool :=
  match dict_get s cell with
  | Some v' => String.eqb v' v
  | None => false
  end.

(** [self[cell]], with [''] where Python raises [KeyError]. *)
Definition value (s : Sudoku) (cell : string) : string :=
  match dict_get s cell with
  | Some v => v
  | None => ""
  end.

(** The dictionary [__process_area] builds from cells that are all there. *)
Definition area_of (s : Sudoku) (cells : list string) : dict string :=
  map (fun cell => (cell, value s cell)) cells.

(** freq(v): how many of [cells] hold exactly the candidate string [v]. *)
Definition freq (s : Sudoku) (cells : list string) (v : string) : nat :=
  List.length (filter (fun cell => holds s cell v) cells).

(** [s] without the characters of [v]. *)
Fixpoint without (v s : string) : string :=
  match s with
  | EmptyString => EmptyString
  | String x s' => if contains x v then without v s' else String x (without v s')
  end.

(** Every cell determined, and each digit once in every area. *)
Definition all_determined (s : Sudoku) : Prop :=
  forall cell, In cell all_cells ->
    exists d, digit d = true /\ dict_get s cell = Some (char1 d).

Definition each_digit_once (s : Sudoku) : Prop :=
  forall rows cols d, In (rows, cols) areas -> digit d = true ->
    freq s (area_cells rows cols) (char1 d) = 1.

Definition solved_grid (s : Sudoku) : Prop :=
  all_determined s /\ each_digit_once s.

(** No cell without a candidate. *)
Definition no_empty_cell (s : Sudoku) : Prop :=
  forall cell, In cell all_cells ->
    exists v, dict_get s cell = Some v /\ v <> "".

(** A computation that only takes candidates away. *)
Definition shrinking {A : Type} (m : M A) : Prop :=
  forall s, shrunk (fst (m s)) s.

(** A computation that leaves the cells outside [cells] alone. *)
Definition confined {A : Type} (cells : list string) (m : M A) : Prop :=
  forall s k, ~ In k cells -> dict_get (fst (m s)) k = dict_get s k.

(** All of [cells] are keys of the grid. *)
Definition has_cells (cells : list string) (s : Sudoku) : Prop :=
  forall k, In k cells -> In k (map fst s).

(** An option that makes [simplify_area] raise: shorter than it is frequent. *)
Definition oversubscribed (item : string * nat) : bool :=
  String.length (fst item) <? snd item.

(** Decidable checks on concrete lists of cell names. *)
Fixpoint distinct (l : list string) : bool :=
  match l with
  | [] => true
  | x :: l' => negb (existsb (String.eqb x) l') && distinct l'
  end.

Definition subset (l1 l2 : list string) : bool :=
  forallb (fun x => existsb (String.eqb x) l2) l1.

(** What a normal return of [solve] promises about the grid it leaves. *)
Definition sound_result (s' : Sudoku) (b : bool) : Prop :=
  well_formed s' /\ no_empty_cell s' /\ (b = true -> solved_grid s').

Definition rec_sound (rec : Sudoku -> option (Sudoku * result bool)) : Prop :=
  forall t t' b, well_formed t -> complexity t <> 0 ->
    rec t = Some (t', Ret b) -> sound_result t' b.

(** What the elimination loop leaves in a cell that held [w]. *)
Definition elim_value (v w : string) : string :=
  if String.eqb w v then w else without v w.

(** The candidate string [__init__] gives a cell for a kept character. *)
Definition cell_value (val : ascii) : string :=
  if placeholder val then "123456789" else char1 val.

(** Python's whitespace characters: space, tab, newline, return, vertical
    tab and form feed. *)
Definition whitespace (c : ascii) : bool :=
  existsb (Nat.eqb (nat_of_ascii c)) [32; 9; 10; 13; 11; 12].

(** The text without its whitespace. *)
Definition strip_whitespace (text : string) : string :=
  string_of_list_ascii (filter (fun c => negb (whitespace c)) (chars text)).

(** *** The pass over an area, without reference to an iteration order *)

(** The options that eliminate: the candidate strings of the area that
    are as long as they are frequent. *)
Definition eliminators_of (vals : list string) : list string :=
  filter (fun v => String.length v =? count_occ string_dec vals v)
    (nodup string_dec vals).

Definition eliminators (s : Sudoku) (cells : list string) : list string :=
  eliminators_of (map (value s) cells).

(** What the pass leaves of [w] when no step meets a cell that has just
    become equal to its option: an eliminator stays, any other string loses
    the characters of all eliminators. *)
Definition settle (E : list string) (w : string) : string :=
  if existsb (String.eqb w) E then w else without (join E) w.

Definition area_pass (s : Sudoku) (cells : list string) : Sudoku :=
  let E := eliminators s cells in
  map (fun kv => if existsb (String.eqb (fst kv)) cells
                 then (fst kv, settle E (snd kv))
                 else kv) s.

Definition disjoint_chars (v w : string) : bool :=
  forallb (fun c => negb (contains c w)) (chars v).

Definition subset_chars (v w : string) : bool :=
  forallb (fun c => contains c w) (chars v).

(** A sufficient condition for the steps of the eliminators [E] to have the
    same effect on [w] in every order. *)
Definition robust_cell (E : list string) (w : string) : bool :=
  if existsb (String.eqb w) E
  then forallb (fun v => String.eqb v w || disjoint_chars v w) E
  else forallb (fun v =>
                  negb (subset_chars v w)
                  || negb (subset_chars
                             (without (join (filter (fun v' => negb (String.eqb v' v)) E)) w)
                             v)) E.

(** The pass over the area raises nothing and is the same in every order. *)
Definition area_robust (s : Sudoku) (cells : list string) : bool :=
  let vals := map (value s) cells in
  let E := eliminators_of vals in
  forallb (fun v => count_occ string_dec vals v <=? String.length v) vals
  && forallb (robust_cell E) vals.

(** The options among [l] whose step eliminates, in the order of [l]. *)
Definition elims (l : list (string * nat)) : list string :=
  map fst (filter (fun it => String.length (fst it) =? snd it) l).

(** The passes over [l], as long as each is robust. *)
Fixpoint robust_run (l : list (string * string)) (s : Sudoku) : option Sudoku :=
  match l with
  | [] => Some s
  | (rows, cols) :: l' =>
      if area_robust s (area_cells rows cols)
      then robust_run l' (area_pass s (area_cells rows cols))
      else None
  end.

(** [simplify], as long as every pass over an area is robust. *)
Fixpoint robust_simplify (fuel : nat) (s : Sudoku) : option Sudoku :=
  match fuel with
  | 0 => None
  | S fuel' =>
      match robust_run areas s with
      | None => None
      | Some s' => if weight s' =? weight s then Some s' else robust_simplify fuel' s'
      end
  end.

(** The iteration order of Python 3.7 and later: insertion order. *)
Definition insertion_order (l : list string) : list string := l.

(** Two grids that hold the same candidates, whatever the order of their
    keys. *)
Definition same (a b : Sudoku) : Prop := forall k, dict_get a k = dict_get b k.

(** [s'] has the keys of [s], and the candidates it holds for a cell are
    taken from those [s] holds for it. *)
Definition refines (s' s : Sudoku) : Prop :=
  (forall k, In k (map fst s') <-> In k (map fst s))
  /\ forall k v, dict_get s k = Some v ->
       exists v', dict_get s' k = Some v' /\ shrinks v' v.

Definition rec_refines (rec : Sudoku -> option (Sudoku * result bool)) : Prop :=
  forall t t' r, dict_ok t -> rec t = Some (t', r) -> dict_ok t' /\ refines t' t.

(** The digit a determined cell of [sol] holds. *)
Definition digit_at (sol : Sudoku) (cell : string) : ascii :=
  match dict_get sol cell with
  | Some (String d _) => d
  | _ => "0"%char
  end.

(** [sol] picks for every cell one of the candidates [s] holds for it. *)
Definition fits (sol s : Sudoku) : Prop :=
  forall cell, In cell all_cells ->
    contains (digit_at sol cell) (value s cell) = true.

(** What the steps of the pass over an area keep, [s0] being the grid when
    the pass starts: the keys, the solution, and the candidate strings held
    by as many cells of the area as they have characters. *)
Definition pass_inv (sol s0 : Sudoku) (cells : list string) (s : Sudoku) : Prop :=
  map fst s = map fst s0
  /\ fits sol s
  /\ forall cell, In cell cells ->
       freq s0 cells (value s0 cell) = String.length (value s0 cell) ->
       value s cell = value s0 cell.

(** *** What [display] writes *)

(** What [display] prints for a candidate string. *)
Definition shown (val : string) : string :=
  if String.eqb val "123456789" then "*" else val.

(** Whether a space is due after [print s,]. *)
Definition soft (s : string) : bool :=
  match last_char s with
  | Some c => negb (isspace c) || Ascii.eqb c " "
  | None => true
  end.

(** A string without whitespace. *)
Definition plain (v : string) : Prop :=
  forall c, contains c v = true -> isspace c = false.

(** The items printed for the cells [row + col], [col] in [cols]. *)
Definition row_items (self : Sudoku) (maxlen : nat) (row : ascii)
  (cols : list ascii) : list string :=
  flat_map (fun col => format_s maxlen (shown (value self (cell_name row col)))
                       :: (if contains col "36" then ["|"] else []))
    cols.

(** [sep.join(l)] *)
Fixpoint sep_by (sep : string) (l : list string) : string :=
  match l with
  | [] => ""
  | [x] => x
  | x :: l' => (x ++ sep ++ sep_by sep l')%string
  end.

(** The lines printed for [rows]. *)
Definition lines_of (self : Sudoku) (maxlen : nat) (rows : list ascii)
  : list string :=
  flat_map (fun row => sep_by " " (row_items self maxlen row (chars cols9))
                       :: (if contains row "CF"
                           then [times "-" ((maxlen + 1) * 9 + 3)] else []))
    rows.

(** Lines one after the other, each ended by a newline. *)
Definition unlines (lines : list string) : string :=
  join (map (fun line => (line ++ String newline "")%string) lines).

(** [k in d] *)
Definition has_key {V : Type} (d : dict V) (k : string) : bool :=
  match dict_get d k with
  | Some _ => true
  | None => false
  end.

(** Decidable versions of [fits] and [solved_grid], for concrete grids. *)
Definition fits_check (sol s : Sudoku) : bool :=
  forallb (fun cell => contains (digit_at sol cell) (value s cell)) all_cells.

Definition solved_check (sol : Sudoku) : bool :=
  forallb (fun cell => match dict_get sol cell with
                       | Some (String d EmptyString) => digit d
                       | _ => false
                       end) all_cells
  && forallb (fun rc => forallb (fun d => freq sol (area_cells (fst rc) (snd rc))
                                            (char1 d) =? 1)
                          (chars cols9)) areas.

(** In how many of the 27 areas a cell lies. *)
Definition areas_with (cell : string) : nat :=
  List.length (filter (fun rc => existsb (String.eqb cell)
                                   (area_cells (fst rc) (snd rc))) areas).

(** Standard output before anything is written. *)
Definition fresh : stdout := {| written := ""; softspace := false |}.

(** ** Concrete puzzles *)

(** The grid [Sudoku(text)] leaves in [self]. *)
Definition grid_of (text : string) : Sudoku := fst (Sudoku_init text).

(** The grid propagation leaves, when every pass is robust. *)
Definition propagated (s : Sudoku) : Sudoku :=
  match robust_simplify 5 s with
  | Some s' => s'
  | None => s
  end.

(** The solution of the sample with four cells left open; it has two
    solutions, and propagation alone cannot choose. *)
Definition two_ways : string :=
  "81. 75. 649
   94. 68. 175
   675 491 283
   154 237 896
   369 845 721
   287 169 534
   521 974 368
   438 526 917
   796 318 452".

Definition solution : string :=
  "812753649943682175675491283154237896369845721287169534521974368438526917796318452".

(** Two 5s in row A. *)
Definition two_fives : string :=
  "55. ... ...
   ... ... ...
   ... ... ...
   ... ... ...
   ... ... ...
   ... ... ...
   ... ... ...
   ... ... ...
   ... ... ...".

(** Rows A and B leave 1 and 3 for their first and last cells, rows D and E
    leave 2 and 4, row G leaves 1 and 2: in column 1 the pairs "13" and "24"
    take both candidates of G1 away. *)
Definition pairs : string :=
  ".24 567 89.
   .45 678 92.
   ... ... ...
   .13 567 89.
   .35 678 91.
   ... ... ...
   .34 567 89.
   ... ... ...
   ... ... ...".

(** The pairs grid after the passes over the nine rows and column 1. *)
Definition pairs_after_column_1 : Sudoku :=
  match robust_run (firstn 10 areas) (grid_of pairs) with
  | Some s => s
  | None => []
  end.



(** No given at all. *)
Definition blank : string :=
  "... ... ...
   ... ... ...
   ... ... ...
   ... ... ...
   ... ... ...
   ... ... ...
   ... ... ...
   ... ... ...
   ... ... ...".

(** The blank grid with I9 set to 1, after propagation. *)
Definition stuck : Sudoku := propagated (dict_set (grid_of blank) "I9" "1").

(** One given, a 5 in the [i]-th cell in row-major order. *)
Definition given_at (i : nat) : string :=
  string_of_list_ascii
    (map (fun j => if j =? i then "5"%char else "."%char) (seq 0 81)).

(** One given, in the last cell. *)
Definition one_given : string := given_at 80.

(** The check behind [given_at_stalls]: the text has [len] characters left,
    [g] is its grid, [oh] what propagation leaves of it when every pass is
    robust, and [ocell] the given cell; the given cell stays determined and
    the other cells keep 8 or 9 candidates. *)
Definition stalls_on (len : nat) (g : Sudoku) (oh : option Sudoku)
  (ocell : option string) : bool :=
  (len =? 81)
  && negb (weight g =? 0)
  && match oh, ocell with
     | Some h, Some cell =>
         negb (weight h =? 81)
         && holds h cell "5"
         && forallb (fun kv => (String.length (snd kv) =? 1)
                               || (String.length (snd kv) =? 8)
                               || (String.length (snd kv) =? 9)) h
         && existsb (fun kv => String.length (snd kv) =? 8) h
     | _, _ => false
     end.

(** ** Strings *)

Lemma contains_replace (c d : ascii) (s : string) :
  contains d (replace c s) = contains d s && negb (Ascii.eqb c d).
Proof.
  induction s as [|x s IH]; simpl; [reflexivity|].
  destruct (Ascii.eqb x c) eqn:Exc.
  - apply Ascii.eqb_eq in Exc; subst x. rewrite IH.
    destruct (Ascii.eqb c d) eqn:Ecd; simpl.
    + now rewrite andb_false_r.
    + reflexivity.
  - simpl. destruct (Ascii.eqb x d) eqn:Exd.
    + apply Ascii.eqb_eq in Exd; subst x.
      rewrite Ascii.eqb_sym in Exc. now rewrite Exc.
    + exact IH.
Qed.

Lemma replace_length (c : ascii) (s : string) :
  String.length (replace c s) <= String.length s.
Proof.
  induction s as [|x s IH]; simpl; [lia|].
  destruct (Ascii.eqb x c); simpl; lia.
Qed.

Lemma replace_same_length (c : ascii) (s : string) :
  String.length (replace c s) = String.length s -> replace c s = s.
Proof.
  induction s as [|x s IH]; simpl; [reflexivity|].
  destruct (Ascii.eqb x c); simpl; intros H.
  - pose proof (replace_length c s). lia.
  - f_equal. apply IH. lia.
Qed.

Lemma replace_absent (c : ascii) (s : string) :
  contains c s = false -> replace c s = s.
Proof.
  induction s as [|x s IH]; simpl; [reflexivity|].
  destruct (Ascii.eqb x c); [discriminate|]. intros H. now rewrite IH.
Qed.

Lemma shrinks_refl (a : string) : shrinks a a.
Proof. repeat split; auto. Qed.

Lemma shrinks_trans (a b c : string) : shrinks a b -> shrinks b c -> shrinks a c.
Proof.
  intros (Hab1 & Hab2 & Hab3) (Hbc1 & Hbc2 & Hbc3). repeat split.
  - auto.
  - lia.
  - intros H. assert (b = c) by (apply Hbc3; lia). subst b. now apply Hab3.
Qed.

Lemma shrinks_antisym (a b : string) : shrinks a b -> shrinks b a -> a = b.
Proof. intros (_ & H1 & H2) (_ & H3 & _). apply H2. lia. Qed.

Lemma shrinks_replace (c : ascii) (s : string) : shrinks (replace c s) s.
Proof.
  repeat split.
  - intros d. rewrite contains_replace. now intros [H _]%andb_prop.
  - apply replace_length.
  - apply replace_same_length.
Qed.

Lemma shrinks_digits (a b : string) : shrinks a b -> digits b -> digits a.
Proof. intros (H & _) Hb c Hc. apply Hb, H, Hc. Qed.

(** What the inner loop of [simplify_area] computes. *)
Lemma remove_options_without (option selfloc : string) :
  forall c, contains c (remove_options option selfloc)
            = contains c selfloc && negb (contains c option).
Proof.
  unfold remove_options, chars. revert selfloc.
  induction option as [|x o IH]; intros selfloc c; simpl.
  - now rewrite andb_true_r.
  - rewrite IH.
    assert (E : contains c (if contains x selfloc then replace x selfloc else selfloc)
                = contains c selfloc && negb (Ascii.eqb x c)).
    { destruct (contains x selfloc) eqn:Hx.
      - apply contains_replace.
      - destruct (Ascii.eqb x c) eqn:Exc; simpl.
        + apply Ascii.eqb_eq in Exc; subst x. now rewrite Hx.
        + now rewrite andb_true_r. }
    rewrite E. destruct (Ascii.eqb x c); simpl.
    + now rewrite andb_false_r.
    + now rewrite andb_true_r.
Qed.

Lemma shrinks_remove_options (option selfloc : string) :
  shrinks (remove_options option selfloc) selfloc.
Proof.
  unfold remove_options, chars. revert selfloc.
  induction option as [|x o IH]; intros selfloc; simpl.
  - apply shrinks_refl.
  - eapply shrinks_trans; [apply IH|].
    destruct (contains x selfloc); [apply shrinks_replace | apply shrinks_refl].
Qed.

(** ** Dictionaries *)

Lemma dict_get_set {V : Type} (d : dict V) (k : string) (v : V) (k' : string) :
  dict_get (dict_set d k v) k' = if String.eqb k k' then Some v else dict_get d k'.
Proof.
  induction d as [|[k0 v0] d IH]; simpl; [reflexivity|].
  destruct (String.eqb k0 k) eqn:E0; simpl.
  - apply String.eqb_eq in E0; subst k0. now destruct (String.eqb k k').
  - destruct (String.eqb k0 k') eqn:E1.
    + apply String.eqb_eq in E1; subst k0.
      rewrite String.eqb_sym in E0. now rewrite E0.
    + exact IH.
Qed.

Lemma dict_get_set_eq {V : Type} (d : dict V) (k : string) (v : V) :
  dict_get (dict_set d k v) k = Some v.
Proof. now rewrite dict_get_set, String.eqb_refl. Qed.

Lemma dict_get_set_neq {V : Type} (d : dict V) (k k' : string) (v : V) :
  k <> k' -> dict_get (dict_set d k v) k' = dict_get d k'.
Proof.
  intros H. rewrite dict_get_set.
  destruct (String.eqb k k') eqn:E; [|reflexivity].
  now apply String.eqb_eq in E.
Qed.

Lemma dict_get_In {V : Type} (d : dict V) (k : string) (v : V) :
  dict_get d k = Some v -> In (k, v) d.
Proof.
  induction d as [|[k0 v0] d IH]; simpl; [discriminate|].
  destruct (String.eqb k0 k) eqn:E.
  - apply String.eqb_eq in E; subst k0. intros [= ->]. now left.
  - intros H. right. now apply IH.
Qed.

Lemma dict_get_key {V : Type} (d : dict V) (k : string) (v : V) :
  dict_get d k = Some v -> In k (map fst d).
Proof. intros H%dict_get_In. now apply (in_map fst) in H. Qed.

Lemma dict_get_None {V : Type} (d : dict V) (k : string) :
  dict_get d k = None <-> ~ In k (map fst d).
Proof.
  induction d as [|[k0 v0] d IH]; simpl; [tauto|].
  destruct (String.eqb k0 k) eqn:E.
  - apply String.eqb_eq in E; subst k0. split; [discriminate | tauto].
  - apply String.eqb_neq in E. rewrite IH. tauto.
Qed.

Lemma dict_get_present {V : Type} (d : dict V) (k : string) :
  In k (map fst d) -> exists v, dict_get d k = Some v.
Proof.
  intros H. destruct (dict_get d k) as [v|] eqn:E; [now exists v|].
  now apply dict_get_None in E.
Qed.

Lemma In_dict_get {V : Type} (d : dict V) (k : string) (v : V) :
  dict_ok d -> In (k, v) d -> dict_get d k = Some v.
Proof.
  unfold dict_ok. induction d as [|[k0 v0] d IH]; simpl; [tauto|].
  intros Hnd [H|H].
  - injection H as -> ->. now rewrite String.eqb_refl.
  - inversion Hnd as [|? ? Hk0 Hnd']; subst.
    destruct (String.eqb k0 k) eqn:E.
    + apply String.eqb_eq in E; subst k0.
      exfalso. apply Hk0. now apply (in_map fst) in H.
    + now apply IH.
Qed.

Lemma dict_set_keys_present {V : Type} (d : dict V) (k : string) (v : V) :
  In k (map fst d) -> map fst (dict_set d k v) = map fst d.
Proof.
  induction d as [|[k0 v0] d IH]; simpl; [tauto|].
  destruct (String.eqb k0 k) eqn:E; simpl; [reflexivity|].
  apply String.eqb_neq in E. intros [H|H]; [contradiction|].
  now rewrite IH.
Qed.

Lemma dict_set_keys_absent {V : Type} (d : dict V) (k : string) (v : V) :
  ~ In k (map fst d) -> map fst (dict_set d k v) = map fst d ++ [k].
Proof.
  induction d as [|[k0 v0] d IH]; simpl; [reflexivity|].
  intros H. destruct (String.eqb k0 k) eqn:E.
  - apply String.eqb_eq in E. tauto.
  - simpl. rewrite IH; tauto.
Qed.

Lemma dict_set_keys {V : Type} (d : dict V) (k : string) (v : V) (k' : string) :
  In k' (map fst (dict_set d k v)) <-> k' = k \/ In k' (map fst d).
Proof.
  destruct (in_dec string_dec k (map fst d)) as [H|H].
  - rewrite dict_set_keys_present by assumption. split; [tauto|].
    intros [->|]; assumption.
  - rewrite dict_set_keys_absent by assumption. rewrite in_app_iff. simpl.
    split; [intros [|[|[]]]; auto | intros [|]; auto].
Qed.

Lemma dict_set_ok {V : Type} (d : dict V) (k : string) (v : V) :
  dict_ok d -> dict_ok (dict_set d k v).
Proof.
  unfold dict_ok. intros Hd.
  destruct (in_dec string_dec k (map fst d)) as [H|H].
  - now rewrite dict_set_keys_present.
  - rewrite dict_set_keys_absent by assumption.
    apply NoDup_app; [assumption | repeat constructor; simpl; tauto |].
    intros x Hx [<-|[]]. contradiction.
Qed.

(** Iterating a dictionary visits every item, in the order [dict_order]
    gives. *)
Hypothesis dict_order_perm : forall l, Permutation (dict_order l) l.

Lemma In_keys {V : Type} (d : dict V) (k : string) :
  In k (keys d) <-> In k (map fst d).
Proof.
  unfold keys. split; apply Permutation_in;
    [apply dict_order_perm | apply Permutation_sym, dict_order_perm].
Qed.

Lemma In_iteritems {V : Type} (d : dict V) (k : string) (v : V) :
  In (k, v) (iteritems d) <-> dict_get d k = Some v.
Proof.
  unfold iteritems. rewrite in_flat_map. split.
  - intros (k' & _ & H). destruct (dict_get d k') as [v'|] eqn:E; simpl in H.
    + destruct H as [[= <- <-]|[]]. exact E.
    + destruct H.
  - intros H. exists k. split.
    + apply In_keys. eapply dict_get_key, H.
    + rewrite H. now left.
Qed.

Lemma flat_map_lookup {V : Type} (d d0 : dict V) :
  (forall k v, In (k, v) d -> dict_get d0 k = Some v) ->
  flat_map (fun k => match dict_get d0 k with
                     | Some v => [(k, v)]
                     | None => []
                     end) (map fst d) = d.
Proof.
  induction d as [|[k v] d IH]; simpl; intros H; [reflexivity|].
  rewrite (H k v) by now left. simpl. f_equal. apply IH.
  intros k' v' Hin. apply H. now right.
Qed.

Lemma iteritems_perm {V : Type} (d : dict V) :
  dict_ok d -> Permutation (iteritems d) d.
Proof.
  intros Hd. unfold iteritems, keys.
  transitivity (flat_map (fun k => match dict_get d k with
                                   | Some v => [(k, v)]
                                   | None => []
                                   end) (map fst d)).
  - apply Permutation_flat_map, dict_order_perm.
  - rewrite flat_map_lookup; [reflexivity|].
    intros k v H. now apply In_dict_get.
Qed.

(** ** State transformers *)

Lemma for_each_app {A : Type} (l1 l2 : list A) (body : A -> M unit) (s : Sudoku) :
  for_each (l1 ++ l2) body s
  = match for_each l1 body s with
    | (s', Ret _) => for_each l2 body s'
    | (s', Raise e) => (s', Raise e)
    end.
Proof.
  revert s. induction l1 as [|x l1 IH]; intros s; simpl; [reflexivity|].
  unfold bind. destruct (body x s) as [s' [[]|e]]; [apply IH | reflexivity].
Qed.

Lemma for_each_inv {A : Type} (I : Sudoku -> Prop) (l : list A) (body : A -> M unit) :
  (forall x s, In x l -> I s -> I (fst (body x s))) ->
  forall s, I s -> I (fst (for_each l body s)).
Proof.
  induction l as [|x l IH]; intros Hb s Hs; simpl; [exact Hs|].
  unfold bind. pose proof (Hb x s (or_introl eq_refl) Hs) as H1.
  destruct (body x s) as [s' [[]|e]]; simpl in *; [|exact H1].
  apply IH; [|exact H1]. intros y t Hy. apply Hb. now right.
Qed.

(** ** Shrinking grids *)

Lemma shrunk_refl (s : Sudoku) : shrunk s s.
Proof.
  induction s; constructor; [|assumption]. split; [reflexivity | apply shrinks_refl].
Qed.

Lemma shrunk_trans (a b c : Sudoku) : shrunk a b -> shrunk b c -> shrunk a c.
Proof.
  intros Hab. revert c. induction Hab as [|x y a b [Hk Hs] Hab IH]; intros c Hbc.
  - inversion Hbc. constructor.
  - inversion Hbc as [|? z ? c' [Hk' Hs'] Hbc']; subst. constructor.
    + split; [congruence | eapply shrinks_trans; eassumption].
    + now apply IH.
Qed.

Lemma shrunk_antisym (a b : Sudoku) : shrunk a b -> shrunk b a -> a = b.
Proof.
  intros Hab. induction Hab as [|[k v] [k' v'] a b [Hk Hs] Hab IH]; intros Hba.
  - reflexivity.
  - inversion Hba as [|? ? ? ? [_ Hs'] Hba']; subst. simpl in *. subst k'.
    f_equal; [|now apply IH]. f_equal. now apply shrinks_antisym.
Qed.

Lemma shrunk_keys (s' s : Sudoku) : shrunk s' s -> map fst s' = map fst s.
Proof.
  induction 1 as [|x y a b [Hk _] _ IH]; simpl; [reflexivity|]. now rewrite Hk, IH.
Qed.

Lemma shrunk_set (s : Sudoku) (k v v' : string) :
  dict_get s k = Some v -> shrinks v' v -> shrunk (dict_set s k v') s.
Proof.
  induction s as [|[k0 v0] s IH]; simpl; [discriminate|].
  destruct (String.eqb k0 k) eqn:E.
  - intros [= ->] Hs. constructor; [now split | apply shrunk_refl].
  - intros H Hs. constructor; [split; [reflexivity | apply shrinks_refl] | now apply IH].
Qed.

Lemma shrunk_get (s' s : Sudoku) (k : string) :
  shrunk s' s ->
  match dict_get s' k, dict_get s k with
  | Some v', Some v => shrinks v' v
  | None, None => True
  | _, _ => False
  end.
Proof.
  induction 1 as [|[k1 v1] [k2 v2] a b [Hk Hs] _ IH]; simpl in *; [exact I|].
  subst k2. now destruct (String.eqb k1 k).
Qed.

Lemma shrunk_get_Some (s' s : Sudoku) (k v : string) :
  shrunk s' s -> dict_get s k = Some v ->
  exists v', dict_get s' k = Some v' /\ shrinks v' v.
Proof.
  intros H E. pose proof (shrunk_get s' s k H) as G. rewrite E in G.
  destruct (dict_get s' k) as [v'|]; [now exists v' | contradiction].
Qed.

Lemma shrunk_weight (s' s : Sudoku) : shrunk s' s -> weight s' <= weight s.
Proof.
  unfold weight. induction 1 as [|x y a b [_ (_ & Hl & _)] _ IH]; simpl; lia.
Qed.

Lemma shrunk_same_weight (s' s : Sudoku) :
  shrunk s' s -> weight s' = weight s -> s' = s.
Proof.
  unfold weight.
  induction 1 as [|[k1 v1] [k2 v2] a b [Hk (_ & Hl & He)] Hab IH]; simpl in *;
    [reflexivity|].
  intros Hw. pose proof (shrunk_weight _ _ Hab) as Hle. unfold weight in Hle.
  subst k2. rewrite (He ltac:(lia)), IH; [reflexivity | lia].
Qed.

Lemma shrunk_iteritems (s' s : Sudoku) :
  shrunk s' s ->
  Forall2 (fun a b => fst a = fst b /\ shrinks (snd a) (snd b))
    (iteritems s') (iteritems s).
Proof.
  intros H. unfold iteritems, keys. rewrite (shrunk_keys _ _ H).
  induction (dict_order (map fst s)) as [|k ks IH]; simpl; [constructor|].
  apply Forall2_app; [|exact IH].
  pose proof (shrunk_get s' s k H) as G.
  destruct (dict_get s' k), (dict_get s k); try contradiction; constructor.
  - split; [reflexivity | exact G].
  - constructor.
Qed.

Lemma length_append (a b : string) :
  String.length (a ++ b) = String.length a + String.length b.
Proof. induction a; simpl; [reflexivity | now rewrite IHa]. Qed.

Lemma length_join (l : list string) :
  String.length (join l) = list_sum (map String.length l).
Proof.
  induction l as [|a l IH]; simpl; [reflexivity|]. now rewrite length_append, IH.
Qed.

Lemma complexity_sum (s : Sudoku) :
  complexity s = list_sum (map (fun kv => String.length (snd kv)) (iteritems s)).
Proof.
  unfold complexity, itervalues. now rewrite length_join, map_map.
Qed.

(** [complexity] never grows when candidates are only taken away; this
    holds whatever the iteration order is. *)
Lemma shrunk_complexity (s' s : Sudoku) :
  shrunk s' s -> complexity s' <= complexity s.
Proof.
  intros H%shrunk_iteritems. rewrite !complexity_sum.
  induction H as [|x y a b [_ (_ & Hl & _)] _ IH]; simpl; lia.
Qed.

Lemma list_sum_perm (l l' : list nat) :
  Permutation l l' -> list_sum l = list_sum l'.
Proof. induction 1; simpl; lia. Qed.

Lemma complexity_weight (s : Sudoku) : dict_ok s -> complexity s = weight s.
Proof.
  intros H. rewrite complexity_sum. unfold weight.
  apply list_sum_perm, Permutation_map, iteritems_perm, H.
Qed.

Lemma shrunk_ok (s' s : Sudoku) : shrunk s' s -> dict_ok s -> dict_ok s'.
Proof. unfold dict_ok. intros H. now rewrite (shrunk_keys _ _ H). Qed.

Lemma shrunk_same_complexity (s' s : Sudoku) :
  dict_ok s -> shrunk s' s -> complexity s' = complexity s -> s' = s.
Proof.
  intros Hs H Hc. apply shrunk_same_weight; [exact H|].
  rewrite <- !complexity_weight; eauto using shrunk_ok.
Qed.

(** *** Every step of a pass shrinks the grid *)

Lemma shrinking_ret {A : Type} (a : A) : shrinking (ret a).
Proof. intros s. apply shrunk_refl. Qed.

Lemma shrinking_raise {A : Type} (e : exn) : shrinking (@raise A e).
Proof. intros s. apply shrunk_refl. Qed.

Lemma shrinking_bind {A B : Type} (m : M A) (k : A -> M B) :
  shrinking m -> (forall a, shrinking (k a)) -> shrinking (bind m k).
Proof.
  intros Hm Hk s. unfold bind. specialize (Hm s).
  destruct (m s) as [s' [a|e]]; simpl in *; [|exact Hm].
  eapply shrunk_trans; [apply Hk | exact Hm].
Qed.

Lemma shrinking_for_each {A : Type} (l : list A) (body : A -> M unit) :
  (forall x, shrinking (body x)) -> shrinking (for_each l body).
Proof.
  intros Hb. induction l as [|x l IH]; simpl.
  - apply shrinking_ret.
  - apply shrinking_bind; auto.
Qed.

Lemma shrinking_eliminate (option loc : string) : shrinking (eliminate option loc).
Proof.
  intros s. unfold eliminate, bind, getitem, setitem, ret.
  destruct (dict_get s loc) as [v|] eqn:E; simpl; [|apply shrunk_refl].
  destruct (String.eqb v option); simpl; [apply shrunk_refl|].
  eapply shrunk_set; [exact E | apply shrinks_remove_options].
Qed.

Lemma shrinking_simplify_option (area : dict string) (item : string * nat) :
  shrinking (simplify_option area item).
Proof.
  destruct item as [option n]. unfold simplify_option.
  destruct (String.length option =? n).
  - apply shrinking_for_each. intros loc. apply shrinking_eliminate.
  - destruct (String.length option <? n);
      [apply shrinking_raise | apply shrinking_ret].
Qed.

Lemma shrinking_simplify_area (area : dict string) : shrinking (simplify_area area).
Proof. apply shrinking_for_each. intros item. apply shrinking_simplify_option. Qed.

Lemma build_area_state (cells : list string) (area : dict string) (s : Sudoku) :
  fst (build_area cells area s) = s.
Proof.
  revert area. induction cells as [|cell cells IH]; intros area; simpl; [reflexivity|].
  unfold bind, getitem. destruct (dict_get s cell); simpl; [apply IH | reflexivity].
Qed.

Lemma shrinking_process_area (rows cols : string) :
  shrinking (process_area rows cols simplify_area).
Proof.
  intros s. unfold process_area, bind.
  pose proof (build_area_state (area_cells rows cols) [] s) as H.
  destruct (build_area (area_cells rows cols) [] s) as [s' [area|e]]; simpl in *;
    subst s'; [apply shrinking_simplify_area | apply shrunk_refl].
Qed.

Lemma shrinking_process_areas : shrinking (process_areas simplify_area).
Proof. apply shrinking_for_each. intros [rows cols]. apply shrinking_process_area. Qed.

Lemma simplify_loop_shrunk (fuel before after : nat) (s s' : Sudoku) (r : result unit) :
  simplify_loop fuel before after s = Some (s', r) -> shrunk s' s.
Proof.
  revert before after s. induction fuel as [|fuel IH]; intros before after s; simpl.
  - destruct (before =? after); [|discriminate]. intros [= <- <-]. apply shrunk_refl.
  - destruct (before =? after); [intros [= <- <-]; apply shrunk_refl|].
    pose proof (shrinking_process_areas s) as H.
    destruct (process_areas simplify_area s) as [s1 [[]|e]]; simpl in H.
    + intros H1%IH. eapply shrunk_trans; eassumption.
    + now intros [= <- <-].
Qed.

Lemma simplify_shrunk (s s' : Sudoku) (r : result bool) :
  simplify s = Some (s', r) -> shrunk s' s.
Proof.
  unfold simplify.
  destruct (simplify_loop (S (complexity s)) 0 (complexity s) s)
    as [[s1 [[]|e]]|] eqn:E; [| |discriminate];
    intros [= <- <-]; eapply simplify_loop_shrunk, E.
Qed.

(** The [while] loop of [simplify] always ends. *)
Lemma simplify_loop_total (fuel before : nat) (s : Sudoku) :
  complexity s < fuel -> simplify_loop fuel before (complexity s) s <> None.
Proof.
  revert before s. induction fuel as [|fuel IH]; intros before s Hf; [lia|].
  simpl. destruct (before =? complexity s); [discriminate|].
  pose proof (shrinking_process_areas s) as H. apply shrunk_complexity in H.
  destruct (process_areas simplify_area s) as [s1 [[]|e]]; simpl in H; [|discriminate].
  destruct (Nat.eq_dec (complexity s1) (complexity s)) as [E|E].
  - destruct fuel; simpl; rewrite <- E, Nat.eqb_refl; discriminate.
  - apply IH. lia.
Qed.

Lemma simplify_total (s : Sudoku) : simplify s <> None.
Proof.
  unfold simplify.
  pose proof (simplify_loop_total (S (complexity s)) 0 s ltac:(lia)) as H.
  destruct (simplify_loop (S (complexity s)) 0 (complexity s) s) as [[s1 [[]|e]]|];
    congruence.
Qed.

(** *** A pass that removes nothing *)

Lemma for_each_fixpoint {A : Type} (l : list A) (body : A -> M unit) (s : Sudoku) :
  (forall x, shrinking (body x)) ->
  for_each l body s = (s, Ret tt) ->
  forall x, In x l -> body x s = (s, Ret tt).
Proof.
  intros Hb. induction l as [|y l IH]; simpl; [tauto|].
  unfold bind. destruct (body y s) as [s1 [[]|e]] eqn:B; [|discriminate].
  intros H. assert (s1 = s) as ->.
  { apply shrunk_antisym.
    - pose proof (Hb y s) as H1. now rewrite B in H1.
    - pose proof (shrinking_for_each l body Hb s1) as H1. now rewrite H in H1. }
  intros x [<-|Hx]; [exact B | now apply IH].
Qed.

Lemma simplify_loop_stop (fuel n : nat) (s : Sudoku) :
  simplify_loop fuel n n s = Some (s, Ret tt).
Proof. destruct fuel; simpl; now rewrite Nat.eqb_refl. Qed.

(** When the loop of [simplify] ends normally, either it never ran or its
    last pass changed nothing and raised nothing. *)
Lemma simplify_loop_fixpoint (fuel before : nat) (s s' : Sudoku) :
  dict_ok s ->
  simplify_loop fuel before (complexity s) s = Some (s', Ret tt) ->
  (before = complexity s /\ s' = s)
  \/ process_areas simplify_area s' = (s', Ret tt).
Proof.
  revert before s. induction fuel as [|fuel IH]; intros before s Hs; simpl.
  - destruct (before =? complexity s) eqn:E; [|discriminate].
    apply Nat.eqb_eq in E. intros [= <-]. now left.
  - destruct (before =? complexity s) eqn:E.
    { apply Nat.eqb_eq in E. intros [= <-]. now left. }
    pose proof (shrinking_process_areas s) as Hsh.
    destruct (process_areas simplify_area s) as [s1 [[]|e]] eqn:P; simpl in Hsh;
      [|discriminate].
    intros H. right.
    destruct (IH _ _ (shrunk_ok _ _ Hsh Hs) H) as [[Hc ->]|Hfix]; [|exact Hfix].
    assert (s1 = s) as -> by (apply shrunk_same_complexity; auto).
    exact P.
Qed.

Lemma simplify_fixpoint (s s' : Sudoku) (b : bool) :
  dict_ok s -> simplify s = Some (s', Ret b) ->
  b = solved s'
  /\ ((complexity s = 0 /\ s' = s)
      \/ process_areas simplify_area s' = (s', Ret tt)).
Proof.
  intros Hs. unfold simplify.
  destruct (simplify_loop (S (complexity s)) 0 (complexity s) s)
    as [[s1 [[]|e]]|] eqn:E; [|discriminate|discriminate].
  intros [= <- <-]. split; [reflexivity|].
  destruct (simplify_loop_fixpoint _ _ _ _ Hs E) as [[Hc ->]|H]; auto.
Qed.

Lemma simplify_loop_S (fuel before after : nat) (s : Sudoku) :
  simplify_loop (S fuel) before after s
  = if before =? after then Some (s, Ret tt)
    else match process_areas simplify_area s with
         | (s', Ret _) => simplify_loop fuel after (complexity s') s'
         | (s', Raise e) => Some (s', Raise e)
         end.
Proof. reflexivity. Qed.

Lemma simplify_of_fixpoint (s : Sudoku) :
  (complexity s = 0 \/ process_areas simplify_area s = (s, Ret tt)) ->
  simplify s = Some (s, Ret (solved s)).
Proof.
  intros H. unfold simplify. rewrite simplify_loop_S.
  destruct (0 =? complexity s) eqn:E; [reflexivity|].
  destruct H as [H|H]; [rewrite H in E; discriminate|].
  now rewrite H, simplify_loop_stop.
Qed.

Lemma simplify_raises (s s' : Sudoku) (e : exn) :
  complexity s <> 0 -> process_areas simplify_area s = (s', Raise e) ->
  simplify s = Some (s', Raise e).
Proof.
  intros Hc H. unfold simplify. rewrite simplify_loop_S.
  destruct (0 =? complexity s) eqn:E; [apply Nat.eqb_eq in E; congruence|].
  now rewrite H.
Qed.

(** ** What an area pass sees: the area and its option counts *)

Lemma dict_set_absent {V : Type} (d : dict V) (k : string) (v : V) :
  ~ In k (map fst d) -> dict_set d k v = d ++ [(k, v)].
Proof.
  induction d as [|[k0 v0] d IH]; simpl; [reflexivity|].
  intros H. destruct (String.eqb k0 k) eqn:E.
  - apply String.eqb_eq in E. tauto.
  - rewrite IH; tauto.
Qed.

Lemma value_get (s : Sudoku) (cell v : string) :
  dict_get s cell = Some v -> value s cell = v.
Proof. unfold value. now intros ->. Qed.

Lemma area_of_keys (s : Sudoku) (cells : list string) :
  map fst (area_of s cells) = cells.
Proof. unfold area_of. rewrite map_map. simpl. apply map_id. Qed.

Lemma area_of_values (s : Sudoku) (cells : list string) :
  map snd (area_of s cells) = map (value s) cells.
Proof. unfold area_of. now rewrite map_map. Qed.

Lemma build_area_of (cells : list string) (acc : dict string) (s : Sudoku) :
  NoDup cells ->
  (forall k, In k cells -> ~ In k (map fst acc)) ->
  (forall k, In k cells -> In k (map fst s)) ->
  build_area cells acc s = (s, Ret (acc ++ area_of s cells)).
Proof.
  revert acc. induction cells as [|cell cells IH]; intros acc Hnd Hacc Hs; simpl.
  - now rewrite app_nil_r.
  - inversion Hnd as [|? ? Hcell Hnd']; subst.
    destruct (dict_get_present s cell (Hs cell (or_introl eq_refl))) as [v Hv].
    unfold bind, getitem. rewrite Hv.
    rewrite dict_set_absent by (apply Hacc; now left).
    rewrite IH; auto with datatypes.
    + rewrite (value_get _ _ _ Hv), <- app_assoc. reflexivity.
    + intros k Hk. rewrite map_app, in_app_iff. simpl.
      intros [H|[<-|[]]]; [|contradiction].
      revert H. apply Hacc. now right.
Qed.

Lemma build_area_KeyError (cells : list string) (acc : dict string)
  (s s' : Sudoku) (e : exn) :
  build_area cells acc s = (s', Raise e) ->
  e = KeyError /\ exists k, In k cells /\ dict_get s k = None.
Proof.
  revert acc. induction cells as [|cell cells IH]; intros acc; simpl.
  - discriminate.
  - unfold bind, getitem. destruct (dict_get s cell) as [v|] eqn:E.
    + intros (He & k & Hk & Hn)%IH. split; [exact He|]. exists k. auto.
    + intros [= <- <-]. split; [reflexivity|]. exists cell. auto.
Qed.

(** One round of the counting loop. *)
Lemma count_step_get (options : dict nat) (val v : string) :
  dict_get (let (options', n) := setdefault options val 0 in
            dict_set options' val (n + 1)) v
  = if String.eqb val v
    then Some (match dict_get options val with Some n => n + 1 | None => 1 end)
    else dict_get options v.
Proof.
  unfold setdefault. destruct (dict_get options val) as [n|] eqn:E.
  - now rewrite dict_get_set.
  - rewrite !dict_get_set. now destruct (String.eqb val v).
Qed.

Lemma count_fold_get (vals : list string) (acc : dict nat) (v : string) :
  dict_get (fold_left (fun options val =>
                         let (options', n) := setdefault options val 0 in
                         dict_set options' val (n + 1)) vals acc) v
  = match count_occ string_dec vals v with
    | 0 => dict_get acc v
    | S n => Some (match dict_get acc v with Some m => m + S n | None => S n end)
    end.
Proof.
  revert acc. induction vals as [|val vals IH]; intros acc; simpl; [reflexivity|].
  rewrite IH, count_step_get.
  destruct (string_dec val v) as [->|Hne].
  - rewrite String.eqb_refl.
    destruct (count_occ string_dec vals v) as [|n]; [reflexivity|].
    f_equal. destruct (dict_get acc v); lia.
  - apply String.eqb_neq in Hne. now rewrite Hne.
Qed.

Lemma itervalues_perm {V : Type} (d : dict V) :
  dict_ok d -> Permutation (itervalues d) (map snd d).
Proof. intros H. apply Permutation_map, iteritems_perm, H. Qed.

(** The options of an area are its distinct candidate strings, each with
    the number of cells that hold it. *)
Lemma options_item (area : dict string) (v : string) (n : nat) :
  dict_ok area ->
  In (v, n) (iteritems (count_options area))
  <-> n = count_occ string_dec (map snd area) v /\ n <> 0.
Proof.
  intros Hd. rewrite In_iteritems. unfold count_options. rewrite count_fold_get.
  assert (E : count_occ string_dec (itervalues area) v
              = count_occ string_dec (map snd area) v).
  { apply Permutation_count_occ, itervalues_perm, Hd. }
  rewrite E. simpl.
  destruct (count_occ string_dec (map snd area) v) as [|m]; split.
  - discriminate.
  - intros [-> H]. contradiction.
  - intros [= <-]. auto.
  - intros [-> _]. reflexivity.
Qed.

Lemma holds_value (s : Sudoku) (cell v : string) :
  In cell (map fst s) -> holds s cell v = String.eqb (value s cell) v.
Proof.
  intros (v' & E)%dict_get_present. unfold holds, value. now rewrite E.
Qed.

Lemma freq_count (s : Sudoku) (cells : list string) (v : string) :
  (forall k, In k cells -> In k (map fst s)) ->
  freq s cells v = count_occ string_dec (map (value s) cells) v.
Proof.
  unfold freq. induction cells as [|cell cells IH]; intros H; simpl; [reflexivity|].
  rewrite holds_value by (apply H; now left).
  destruct (string_dec (value s cell) v) as [->|Hne].
  - rewrite String.eqb_refl. simpl. rewrite IH; auto with datatypes.
  - apply String.eqb_neq in Hne. rewrite Hne. apply IH. auto with datatypes.
Qed.

(** ** How an area pass ends *)

Lemma for_each_outcome {A : Type} (I : Sudoku -> Prop) (bad : A -> bool) (e : exn)
  (l : list A) (body : A -> M unit) :
  (forall x s, In x l -> I s ->
     I (fst (body x s)) /\ snd (body x s) = if bad x then Raise e else Ret tt) ->
  forall s, I s ->
    snd (for_each l body s) = if existsb bad l then Raise e else Ret tt.
Proof.
  induction l as [|x l IH]; intros Hb s Hs; simpl; [reflexivity|].
  unfold bind. destruct (Hb x s (or_introl eq_refl) Hs) as [HI Hr].
  destruct (body x s) as [s1 r]; simpl in *. subst r.
  destruct (bad x); simpl; [reflexivity|].
  apply IH; [|exact HI]. intros y t Hy. apply Hb. now right.
Qed.

Lemma existsb_never {A : Type} (l : list A) : existsb (fun _ => false) l = false.
Proof. induction l; simpl; auto. Qed.

Lemma has_cells_shrunk (cells : list string) (s' s : Sudoku) :
  shrunk s' s -> has_cells cells s -> has_cells cells s'.
Proof. intros H Hs k Hk. rewrite (shrunk_keys _ _ H). now apply Hs. Qed.

Lemma eliminate_ret (option loc : string) (s : Sudoku) :
  In loc (map fst s) -> snd (eliminate option loc s) = Ret tt.
Proof.
  intros (v & E)%dict_get_present. unfold eliminate, bind, getitem, setitem, ret.
  rewrite E. now destruct (negb (String.eqb v option)).
Qed.

Lemma simplify_option_outcome (area : dict string) (item : string * nat) (s : Sudoku) :
  has_cells (map fst area) s ->
  snd (simplify_option area item s)
  = if oversubscribed item then Raise SudokuException else Ret tt.
Proof.
  intros Hs. destruct item as [v n]. unfold simplify_option, oversubscribed. simpl.
  destruct (String.length v =? n) eqn:E.
  - apply Nat.eqb_eq in E. subst n. rewrite Nat.ltb_irrefl.
    rewrite (for_each_outcome (has_cells (map fst area)) (fun _ => false)
               SudokuException); [now rewrite existsb_never | | exact Hs].
    intros loc t Hloc Ht. split.
    + eapply has_cells_shrunk; [apply shrinking_eliminate | exact Ht].
    + apply eliminate_ret, Ht, In_keys, Hloc.
  - now destruct (String.length v <? n).
Qed.

Lemma simplify_area_outcome (area : dict string) (s : Sudoku) :
  has_cells (map fst area) s ->
  snd (simplify_area area s)
  = if existsb oversubscribed (iteritems (count_options area))
    then Raise SudokuException else Ret tt.
Proof.
  intros Hs. unfold simplify_area.
  apply (for_each_outcome (has_cells (map fst area))); [|exact Hs].
  intros item t _ Ht. split.
  - eapply has_cells_shrunk; [apply shrinking_simplify_option | exact Ht].
  - now apply simplify_option_outcome.
Qed.

Lemma process_area_run (rows cols : string) (s : Sudoku) :
  NoDup (area_cells rows cols) -> has_cells (area_cells rows cols) s ->
  process_area rows cols simplify_area s
  = simplify_area (area_of s (area_cells rows cols)) s.
Proof.
  intros Hnd Hs. unfold process_area, bind.
  rewrite build_area_of; auto.
Qed.

Lemma area_of_ok (s : Sudoku) (cells : list string) :
  NoDup cells -> dict_ok (area_of s cells).
Proof. unfold dict_ok. now rewrite area_of_keys. Qed.

(** An area pass raises exactly when some candidate string of the area is
    shorter than the number of cells that hold it. *)
Lemma oversubscribed_freq (s : Sudoku) (cells : list string) :
  NoDup cells -> has_cells cells s ->
  existsb oversubscribed (iteritems (count_options (area_of s cells))) = true
  <-> exists v, String.length v < freq s cells v.
Proof.
  intros Hnd Hs. rewrite existsb_exists. split.
  - intros ([v n] & Hin & Hlt). apply options_item in Hin; [|now apply area_of_ok].
    destruct Hin as [-> _]. exists v. rewrite freq_count, <- area_of_values by assumption.
    now apply Nat.ltb_lt in Hlt.
  - intros (v & Hv). exists (v, freq s cells v). split.
    + apply options_item; [now apply area_of_ok|].
      rewrite area_of_values, <- freq_count by assumption. split; [reflexivity | lia].
    + now apply Nat.ltb_lt.
Qed.

Lemma process_area_outcome (rows cols : string) (s : Sudoku) :
  NoDup (area_cells rows cols) -> has_cells (area_cells rows cols) s ->
  snd (process_area rows cols simplify_area s)
  = if existsb oversubscribed
         (iteritems (count_options (area_of s (area_cells rows cols))))
    then Raise SudokuException else Ret tt.
Proof.
  intros Hnd Hs. rewrite process_area_run by assumption.
  apply simplify_area_outcome. now rewrite area_of_keys.
Qed.

Lemma process_area_raises (rows cols v : string) (s : Sudoku) :
  NoDup (area_cells rows cols) -> has_cells (area_cells rows cols) s ->
  String.length v < freq s (area_cells rows cols) v ->
  snd (process_area rows cols simplify_area s) = Raise SudokuException.
Proof.
  intros Hnd Hs Hv. rewrite process_area_outcome by assumption.
  destruct (existsb _ _) eqn:E; [reflexivity|].
  assert (H : existsb oversubscribed
                (iteritems (count_options (area_of s (area_cells rows cols)))) = true)
    by (apply oversubscribed_freq; eauto).
  congruence.
Qed.

Lemma process_area_returns (rows cols : string) (s : Sudoku) :
  NoDup (area_cells rows cols) -> has_cells (area_cells rows cols) s ->
  snd (process_area rows cols simplify_area s) = Ret tt ->
  forall v, freq s (area_cells rows cols) v <= String.length v.
Proof.
  intros Hnd Hs Hr v. rewrite process_area_outcome in Hr by assumption.
  destruct (existsb _ _) eqn:E; [discriminate|].
  destruct (le_lt_dec (freq s (area_cells rows cols) v) (String.length v)) as [H|H];
    [exact H|].
  assert (H' : existsb oversubscribed
                 (iteritems (count_options (area_of s (area_cells rows cols)))) = true)
    by (apply oversubscribed_freq; eauto).
  congruence.
Qed.

(** *** A pass touches the cells of its area only *)

Lemma confined_for_each {A : Type} (cells : list string) (l : list A)
  (body : A -> M unit) :
  (forall x, In x l -> confined cells (body x)) -> confined cells (for_each l body).
Proof.
  induction l as [|x l IH]; intros Hb s k Hk; simpl; [reflexivity|].
  unfold bind. pose proof (Hb x (or_introl eq_refl) s k Hk) as H1.
  destruct (body x s) as [s1 [[]|e]]; simpl in *; [|exact H1].
  rewrite IH; auto with datatypes.
Qed.

Lemma confined_eliminate (cells : list string) (option loc : string) :
  In loc cells -> confined cells (eliminate option loc).
Proof.
  intros Hloc s k Hk. unfold eliminate, bind, getitem, setitem, ret.
  destruct (dict_get s loc) as [v|]; simpl; [|reflexivity].
  destruct (String.eqb v option); simpl; [reflexivity|].
  apply dict_get_set_neq. intros ->. contradiction.
Qed.

Lemma confined_simplify_area (area : dict string) :
  confined (map fst area) (simplify_area area).
Proof.
  apply confined_for_each. intros [v n] _. unfold simplify_option.
  destruct (String.length v =? n).
  - apply confined_for_each. intros loc Hloc.
    apply confined_eliminate, In_keys, Hloc.
  - destruct (String.length v <? n); intros s k _; reflexivity.
Qed.

Lemma build_area_keys (cells : list string) (acc area : dict string) (s s' : Sudoku) :
  build_area cells acc s = (s', Ret area) ->
  forall k, In k (map fst area) -> In k cells \/ In k (map fst acc).
Proof.
  revert acc. induction cells as [|cell cells IH]; intros acc; simpl.
  - intros [= _ <-]. auto.
  - unfold bind, getitem. destruct (dict_get s cell) as [v|]; [|discriminate].
    intros H k Hk. destruct (IH _ H k Hk) as [H1|H1]; auto.
    apply dict_set_keys in H1. destruct H1 as [->|H1]; auto.
Qed.

Lemma confined_process_area (rows cols : string) :
  confined (area_cells rows cols) (process_area rows cols simplify_area).
Proof.
  intros s k Hk. unfold process_area, bind.
  pose proof (build_area_state (area_cells rows cols) [] s) as Hst.
  destruct (build_area (area_cells rows cols) [] s) as [s' [area|e]] eqn:B;
    simpl in Hst; subst s'; [|reflexivity].
  apply confined_simplify_area. intros Hin.
  destruct (build_area_keys _ _ _ _ _ B k Hin) as [H|[]]. contradiction.
Qed.

(** ** The geometry of the grid *)

Lemma existsb_eqb_In (x : string) (l : list string) :
  existsb (String.eqb x) l = true <-> In x l.
Proof.
  rewrite existsb_exists. split.
  - intros (y & Hy & ->%String.eqb_eq). exact Hy.
  - intros H. exists x. split; [exact H | apply String.eqb_refl].
Qed.

Lemma distinct_NoDup (l : list string) : distinct l = true -> NoDup l.
Proof.
  induction l as [|x l IH]; simpl; [constructor|].
  intros [H1 H2]%andb_prop. constructor; [|auto].
  intros Hin%existsb_eqb_In. now rewrite Hin in H1.
Qed.

Lemma subset_incl (l1 l2 : list string) : subset l1 l2 = true -> incl l1 l2.
Proof.
  unfold subset. rewrite forallb_forall. intros H x Hx.
  now apply existsb_eqb_In, H.
Qed.

Lemma all_cells_NoDup : NoDup all_cells.
Proof. apply distinct_NoDup. vm_compute. reflexivity. Qed.

Lemma all_cells_length : List.length all_cells = 81.
Proof. reflexivity. Qed.

Lemma areas_check :
  forallb (fun rc => distinct (area_cells (fst rc) (snd rc))
                     && subset (area_cells (fst rc) (snd rc)) all_cells
                     && (List.length (area_cells (fst rc) (snd rc)) =? 9))
    areas = true.
Proof. vm_compute. reflexivity. Qed.

Lemma area_facts (rows cols : string) :
  In (rows, cols) areas ->
  NoDup (area_cells rows cols)
  /\ incl (area_cells rows cols) all_cells
  /\ List.length (area_cells rows cols) = 9.
Proof.
  intros H. pose proof areas_check as C. rewrite forallb_forall in C.
  apply C in H. simpl in H.
  apply andb_prop in H as [H H3]. apply andb_prop in H as [H1 H2].
  apply Nat.eqb_eq in H3. auto using distinct_NoDup, subset_incl.
Qed.

Lemma row_is_area (row : ascii) :
  In row (chars rows9) -> In (char1 row, cols9) areas.
Proof.
  intros H. unfold areas. apply in_or_app. left.
  now apply (in_map (fun row => (char1 row, cols9))).
Qed.

Lemma row_cells (row : ascii) :
  area_cells (char1 row) cols9 = map (cell_name row) (chars cols9).
Proof. reflexivity. Qed.

Lemma cell_in_row (cell : string) :
  In cell all_cells ->
  exists row, In row (chars rows9) /\ In cell (area_cells (char1 row) cols9).
Proof.
  unfold all_cells, area_cells at 1. intros (row & Hrow & Hc)%in_flat_map.
  exists row. split; [exact Hrow|]. rewrite row_cells. exact Hc.
Qed.

Lemma has_cells_incl (cells cells' : list string) (s : Sudoku) :
  incl cells cells' -> has_cells cells' s -> has_cells cells s.
Proof. intros H Hs k Hk. apply Hs, H, Hk. Qed.

Lemma well_formed_has_cells (s : Sudoku) : well_formed s -> has_cells all_cells s.
Proof. intros [H _] k Hk. eapply Permutation_in; [symmetry; exact H | exact Hk]. Qed.

Lemma well_formed_ok (s : Sudoku) : well_formed s -> dict_ok s.
Proof.
  intros [H _]. unfold dict_ok.
  eapply Permutation_NoDup; [symmetry; exact H | apply all_cells_NoDup].
Qed.

Lemma well_formed_shrunk (s' s : Sudoku) :
  shrunk s' s -> well_formed s -> well_formed s'.
Proof.
  intros H [Hk Hd]. split.
  - now rewrite (shrunk_keys _ _ H).
  - intros cell v' E. pose proof (shrunk_get s' s cell H) as G. rewrite E in G.
    destruct (dict_get s cell) as [v|] eqn:E'; [|contradiction].
    eapply shrinks_digits; eauto.
Qed.

(** ** Grids on which a pass changes nothing *)

Lemma contains_In (c : ascii) (s : string) :
  contains c s = true <-> In c (chars s).
Proof.
  unfold chars. induction s as [|x s IH]; simpl.
  - split; [discriminate | tauto].
  - destruct (Ascii.eqb x c) eqn:E.
    + apply Ascii.eqb_eq in E. tauto.
    + apply Ascii.eqb_neq in E. rewrite IH. tauto.
Qed.

Lemma freq_pos (s : Sudoku) (cells : list string) (cell v : string) :
  In cell cells -> dict_get s cell = Some v -> 1 <= freq s cells v.
Proof.
  unfold freq. induction cells as [|c cells IH]; simpl; [tauto|].
  intros [->|H] E.
  - unfold holds at 1. rewrite E, String.eqb_refl. simpl. lia.
  - specialize (IH H E). destruct (holds s c v); simpl; lia.
Qed.

Lemma freq_ext (s s' : Sudoku) (cells : list string) (v : string) :
  (forall k, In k cells -> dict_get s' k = dict_get s k) ->
  freq s' cells v = freq s cells v.
Proof.
  unfold freq. induction cells as [|c cells IH]; intros H; simpl; [reflexivity|].
  assert (E : holds s' c v = holds s c v)
    by (unfold holds; now rewrite (H c) by now left).
  rewrite E. specialize (IH (fun k Hk => H k (or_intror Hk))).
  destruct (holds s c v); simpl; now rewrite IH.
Qed.

Lemma settled_area (s : Sudoku) (rows cols : string) :
  has_cells all_cells s ->
  process_areas simplify_area s = (s, Ret tt) ->
  In (rows, cols) areas ->
  forall v, freq s (area_cells rows cols) v <= String.length v.
Proof.
  intros Hs Hfix Hin.
  destruct (area_facts rows cols Hin) as (Hnd & Hincl & _).
  apply process_area_returns; [exact Hnd | eapply has_cells_incl; eauto |].
  unfold process_areas in Hfix.
  pose proof (for_each_fixpoint areas _ s
                (fun rc => shrinking_process_area (fst rc) (snd rc))
                Hfix (rows, cols) Hin) as H.
  simpl in H. now rewrite H.
Qed.

Lemma settled_no_empty (s : Sudoku) :
  has_cells all_cells s ->
  process_areas simplify_area s = (s, Ret tt) ->
  no_empty_cell s.
Proof.
  intros Hs Hfix cell Hcell.
  destruct (dict_get_present s cell (Hs cell Hcell)) as [v Hv].
  exists v. split; [exact Hv|]. intros ->.
  destruct (cell_in_row cell Hcell) as (row & Hrow & Hin).
  pose proof (settled_area s _ _ Hs Hfix (row_is_area row Hrow) "") as H.
  pose proof (freq_pos s _ cell "" Hin Hv) as H'. simpl in H. lia.
Qed.

Lemma sum_at_least {A : Type} (f : A -> nat) (l : list A) :
  (forall x, In x l -> 1 <= f x) -> List.length l <= list_sum (map f l).
Proof.
  induction l as [|a l IH]; simpl; intros H; [lia|].
  pose proof (H a (or_introl eq_refl)). specialize (IH (fun x Hx => H x (or_intror Hx))).
  lia.
Qed.

Lemma sum_ones {A : Type} (f : A -> nat) (l : list A) :
  (forall x, In x l -> 1 <= f x) -> list_sum (map f l) = List.length l ->
  forall x, In x l -> f x = 1.
Proof.
  induction l as [|a l IH]; simpl; intros H Hsum; [tauto|].
  pose proof (H a (or_introl eq_refl)) as Ha.
  pose proof (sum_at_least f l (fun x Hx => H x (or_intror Hx))) as Hl.
  intros x [<-|Hx]; [lia|]. apply IH; auto; lia.
Qed.

Lemma determined_lengths (s : Sudoku) :
  well_formed s -> no_empty_cell s -> complexity s = 81 ->
  forall cell v, dict_get s cell = Some v -> String.length v = 1.
Proof.
  intros Hwf Hne Hc cell v Hv.
  pose proof (well_formed_ok s Hwf) as Hok.
  rewrite complexity_weight in Hc by assumption. unfold weight in Hc.
  assert (Hlen : List.length s = 81).
  { destruct Hwf as [Hp _]. apply Permutation_length in Hp.
    rewrite length_map in Hp. now rewrite Hp. }
  apply (sum_ones (fun kv => String.length (snd kv)) s) with (x := (cell, v)).
  - intros [k w] Hin. simpl.
    assert (Hk : In k all_cells).
    { destruct Hwf as [Hp _]. eapply Permutation_in; [exact Hp|].
      now apply (in_map fst) in Hin. }
    destruct (Hne k Hk) as (w' & Hw' & Hnz).
    rewrite (In_dict_get s k w Hok Hin) in Hw'. injection Hw' as <-.
    destruct w; [contradiction | simpl; lia].
  - lia.
  - now apply dict_get_In.
Qed.

Lemma single_digit (v : string) :
  String.length v = 1 -> digits v -> exists d, digit d = true /\ v = char1 d.
Proof.
  destruct v as [|c [|c' v]]; simpl; try discriminate. intros _ H.
  exists c. split; [|reflexivity]. apply H. simpl. now rewrite Ascii.eqb_refl.
Qed.

Lemma settled_solved (s : Sudoku) :
  well_formed s ->
  process_areas simplify_area s = (s, Ret tt) ->
  complexity s = 81 ->
  solved_grid s.
Proof.
  intros Hwf Hfix Hc.
  pose proof (well_formed_has_cells s Hwf) as Hs.
  pose proof (settled_no_empty s Hs Hfix) as Hne.
  pose proof (determined_lengths s Hwf Hne Hc) as Hlen.
  split.
  - intros cell Hcell. destruct (Hne cell Hcell) as (v & Hv & _).
    destruct (single_digit v (Hlen _ _ Hv)) as (d & Hd & ->);
      [destruct Hwf as [_ Hdg]; eauto|].
    now exists d.
  - intros rows cols d Hin Hd.
    destruct (area_facts rows cols Hin) as (Hnd & Hincl & Hl).
    pose proof (has_cells_incl _ _ s Hincl Hs) as Hcs.
    pose proof (settled_area s rows cols Hs Hfix Hin) as Hfreq.
    set (cells := area_cells rows cols) in *.
    set (vals := map (value s) cells).
    assert (Hval : forall v, In v vals -> String.length v = 1 /\ digits v).
    { intros v (cell & <- & Hcell)%in_map_iff.
      destruct (dict_get_present s cell (Hcs cell Hcell)) as [w Hw].
      rewrite (value_get _ _ _ Hw). split; [eauto|].
      destruct Hwf as [_ Hdg]; eauto. }
    assert (Hnodup : NoDup vals).
    { apply (NoDup_count_occ string_dec). intros v.
      destruct (in_dec string_dec v vals) as [Hv|Hv].
      - unfold vals. rewrite <- freq_count by assumption.
        destruct (Hval v Hv) as [<- _]. apply Hfreq.
      - apply (count_occ_not_In string_dec) in Hv. lia. }
    assert (Hinc : incl vals (map char1 (chars cols9))).
    { intros v Hv. destruct (Hval v Hv) as [H1 H2].
      destruct (single_digit v H1 H2) as (c & Hc' & ->).
      apply in_map. now apply contains_In. }
    assert (Hall : incl (map char1 (chars cols9)) vals).
    { apply NoDup_length_incl; [exact Hnodup | | exact Hinc].
      unfold vals. rewrite !length_map. fold cells. rewrite Hl. reflexivity. }
    assert (Hin' : In (char1 d) vals).
    { apply Hall, in_map. now apply contains_In. }
    apply (count_occ_In string_dec) in Hin'.
    unfold vals in Hin'. rewrite <- freq_count in Hin' by assumption.
    specialize (Hfreq (char1 d)). simpl in Hfreq. lia.
Qed.

Lemma simplify_post (s s' : Sudoku) (b : bool) :
  well_formed s -> complexity s <> 0 -> simplify s = Some (s', Ret b) ->
  well_formed s' /\ no_empty_cell s' /\ b = solved s' /\ (b = true -> solved_grid s').
Proof.
  intros Hwf Hc H.
  pose proof (well_formed_shrunk _ _ (simplify_shrunk _ _ _ H) Hwf) as Hwf'.
  destruct (simplify_fixpoint s s' b (well_formed_ok s Hwf) H) as [-> [[H0 _]|Hfix]];
    [contradiction|].
  split; [exact Hwf'|]. split; [|split; [reflexivity|]].
  - apply settled_no_empty; auto using well_formed_has_cells.
  - intros Hb. apply settled_solved; auto. now apply Nat.eqb_eq.
Qed.

(** ** Copies *)

Lemma iteritems_keys {V : Type} (d : dict V) : map fst (iteritems d) = keys d.
Proof.
  unfold iteritems.
  assert (H : forall ks, (forall k, In k ks -> In k (map fst d)) ->
            map fst (flat_map (fun k => match dict_get d k with
                                        | Some v => [(k, v)]
                                        | None => []
                                        end) ks) = ks).
  { induction ks as [|k ks IH]; intros Hks; simpl; [reflexivity|].
    destruct (dict_get_present d k (Hks k (or_introl eq_refl))) as [v ->].
    simpl. f_equal. apply IH. auto with datatypes. }
  apply H. intros k. apply In_keys.
Qed.

Lemma keys_NoDup {V : Type} (d : dict V) : dict_ok d -> NoDup (keys d).
Proof.
  intros H. eapply Permutation_NoDup; [symmetry; apply dict_order_perm | exact H].
Qed.

Lemma iteritems_ok {V : Type} (d : dict V) : dict_ok d -> dict_ok (iteritems d).
Proof. intros H. unfold dict_ok. rewrite iteritems_keys. now apply keys_NoDup. Qed.

Lemma iteritems_get {V : Type} (d : dict V) (k : string) :
  dict_ok d -> dict_get (iteritems d) k = dict_get d k.
Proof.
  intros H. destruct (dict_get d k) as [v|] eqn:E.
  - apply In_dict_get; [now apply iteritems_ok | now apply In_iteritems].
  - apply dict_get_None. rewrite iteritems_keys, In_keys. now apply dict_get_None.
Qed.

Lemma fold_set_fresh {V : Type} (l acc : dict V) :
  NoDup (map fst acc ++ map fst l) ->
  fold_left (fun d kv => dict_set d (fst kv) (snd kv)) l acc = acc ++ l.
Proof.
  revert acc. induction l as [|[k v] l IH]; intros acc H; simpl.
  - now rewrite app_nil_r.
  - simpl in H. rewrite dict_set_absent.
    + rewrite IH; [now rewrite <- app_assoc|].
      rewrite map_app, <- app_assoc. exact H.
    + apply NoDup_remove_2 in H. intros Hin. apply H, in_or_app. now left.
Qed.

Lemma fold_set_get {V : Type} (l s : dict V) (k : string) :
  NoDup (map fst l) ->
  dict_get (fold_left (fun d kv => dict_set d (fst kv) (snd kv)) l s) k
  = match dict_get l k with Some v => Some v | None => dict_get s k end.
Proof.
  revert s. induction l as [|[k0 v0] l IH]; intros s H; simpl; [reflexivity|].
  inversion H as [|? ? Hk0 Hl]; subst. rewrite IH by assumption.
  rewrite dict_get_set. destruct (String.eqb k0 k) eqn:E.
  - apply String.eqb_eq in E; subst k0.
    apply dict_get_None in Hk0. now rewrite Hk0.
  - reflexivity.
Qed.

Lemma fold_set_keys {V : Type} (l s : dict V) :
  (forall k, In k (map fst l) -> In k (map fst s)) ->
  map fst (fold_left (fun d kv => dict_set d (fst kv) (snd kv)) l s) = map fst s.
Proof.
  revert s. induction l as [|[k0 v0] l IH]; intros s H; simpl; [reflexivity|].
  rewrite IH.
  - apply dict_set_keys_present, H. now left.
  - intros k Hk. apply dict_set_keys. right. apply H. now right.
Qed.

Lemma copy_items (s : Sudoku) : dict_ok s -> copy s = iteritems s.
Proof.
  intros H. unfold copy, Sudoku_init_copy. rewrite fold_set_fresh; [reflexivity|].
  simpl. rewrite iteritems_keys. now apply keys_NoDup.
Qed.

Lemma copy_get (s : Sudoku) (k : string) :
  dict_ok s -> dict_get (copy s) k = dict_get s k.
Proof. intros H. rewrite copy_items by assumption. now apply iteritems_get. Qed.

Lemma copy_keys (s : Sudoku) : dict_ok s -> Permutation (map fst (copy s)) (map fst s).
Proof.
  intros H. rewrite copy_items, iteritems_keys by assumption. apply dict_order_perm.
Qed.

Lemma copy_back_get (t s : Sudoku) (k : string) :
  dict_ok t ->
  dict_get (copy_back t s) k
  = match dict_get t k with Some v => Some v | None => dict_get s k end.
Proof.
  intros H. unfold copy_back. rewrite fold_set_get.
  - now rewrite iteritems_get.
  - now apply iteritems_ok.
Qed.

Lemma copy_back_keys (t s : Sudoku) :
  (forall k, In k (map fst t) -> In k (map fst s)) ->
  map fst (copy_back t s) = map fst s.
Proof.
  intros H. unfold copy_back. apply fold_set_keys.
  intros k. rewrite iteritems_keys, In_keys. apply H.
Qed.

(** After [for cell, options in trial.iteritems(): self[cell] = options]
    the grid holds what the trial holds. *)
Lemma copy_back_content (t s : Sudoku) :
  well_formed t -> well_formed s ->
  map fst (copy_back t s) = map fst s
  /\ forall k, dict_get (copy_back t s) k = dict_get t k.
Proof.
  intros Ht Hs.
  assert (Hk : forall k, In k (map fst t) <-> In k (map fst s)).
  { intros k. destruct Ht as [Ht _], Hs as [Hs _]. split; intros H.
    - eapply Permutation_in; [symmetry; exact Hs|].
      eapply Permutation_in; [exact Ht | exact H].
    - eapply Permutation_in; [symmetry; exact Ht|].
      eapply Permutation_in; [exact Hs | exact H]. }
  split.
  - apply copy_back_keys. intros k. apply Hk.
  - intros k. rewrite copy_back_get by now apply well_formed_ok.
    destruct (dict_get t k) as [v|] eqn:E; [reflexivity|].
    apply dict_get_None. rewrite <- Hk. now apply dict_get_None.
Qed.

Lemma well_formed_copy (s : Sudoku) : well_formed s -> well_formed (copy s).
Proof.
  intros Hwf. pose proof (well_formed_ok s Hwf) as Hok. destruct Hwf as [Hk Hd]. split.
  - etransitivity; [now apply copy_keys | exact Hk].
  - intros cell v. rewrite copy_get by assumption. apply Hd.
Qed.

Lemma well_formed_set (s : Sudoku) (k v : string) :
  well_formed s -> In k (map fst s) -> digits v -> well_formed (dict_set s k v).
Proof.
  intros [Hk Hd] Hin Hv. split.
  - now rewrite dict_set_keys_present.
  - intros cell w. rewrite dict_get_set.
    destruct (String.eqb k cell); [now intros [= <-] | apply Hd].
Qed.

Lemma solved_grid_ext (a b : Sudoku) :
  (forall k, dict_get a k = dict_get b k) -> solved_grid b -> solved_grid a.
Proof.
  intros H [H1 H2]. split.
  - intros cell Hc. rewrite H. now apply H1.
  - intros rows cols d Hin Hd. rewrite (freq_ext b a); auto.
Qed.

Lemma no_empty_cell_ext (a b : Sudoku) :
  (forall k, dict_get a k = dict_get b k) -> no_empty_cell b -> no_empty_cell a.
Proof. intros H Hb cell Hc. rewrite H. now apply Hb. Qed.

Lemma weight_ge (s : Sudoku) (k v : string) :
  In (k, v) s -> String.length v <= weight s.
Proof.
  unfold weight. induction s as [|kv s IH]; simpl; [tauto|].
  intros [->|H]; [simpl; lia|]. specialize (IH H). lia.
Qed.

Lemma complexity_pos (s : Sudoku) (k v : string) :
  dict_ok s -> dict_get s k = Some v -> v <> "" -> complexity s <> 0.
Proof.
  intros Hok Hv Hne. rewrite complexity_weight by assumption.
  pose proof (weight_ge s k v (dict_get_In _ _ _ Hv)).
  destruct v; [contradiction | simpl in *; lia].
Qed.

(** ** [solve] returns only what [simplify] or a trial has established *)

Lemma scan_In (i : nat) (items : list (string * string))
  (cur : option string * string) (cell options : string) :
  scan i items cur = (Some cell, options) ->
  cur = (Some cell, options) \/ In (cell, options) items.
Proof.
  revert cur. induction items as [|[c o] items IH]; intros cur; simpl; [auto|].
  destruct (String.length o =? i).
  - intros [= <- <-]. auto.
  - intros H. destruct (IH _ H) as [[= <- <-]|H']; auto.
Qed.

Lemma digits_char1 (c : ascii) : digit c = true -> digits (char1 c).
Proof.
  intros H c'. simpl. destruct (Ascii.eqb c c') eqn:E; [|discriminate].
  apply Ascii.eqb_eq in E. now subst c'.
Qed.

Lemma other_cell (cell : string) :
  exists cell', In cell' all_cells /\ cell' <> cell.
Proof.
  destruct (string_dec cell "A1") as [->|H].
  - exists "A2". split; [apply existsb_eqb_In; reflexivity | discriminate].
  - exists "A1". split; [apply existsb_eqb_In; reflexivity | congruence].
Qed.

Lemma try_options_sound (rec : Sudoku -> option (Sudoku * result bool)) :
  rec_sound rec ->
  forall options cell self self' ob,
    well_formed self -> no_empty_cell self -> solved self = false ->
    In cell (map fst self) ->
    (forall c, In c options -> digit c = true) ->
    try_options rec cell options self = Some (self', Ret ob) ->
    well_formed self' /\ no_empty_cell self'
    /\ match ob with
       | Some b => b = true /\ solved_grid self'
       | None => solved self' = false
       end.
Proof.
  intros Hrec. induction options as [|option options IH];
    intros cell self self' ob Hwf Hne Hns Hcell Hopts; simpl.
  - intros [= <- <-]. auto.
  - pose proof (well_formed_ok self Hwf) as Hok.
    set (trial := dict_set (copy self) cell (char1 option)).
    assert (Htrial : well_formed trial).
    { apply well_formed_set.
      - now apply well_formed_copy.
      - eapply Permutation_in; [symmetry; now apply copy_keys | exact Hcell].
      - apply digits_char1, Hopts. now left. }
    assert (Hpos : complexity trial <> 0).
    { apply (complexity_pos trial cell (char1 option)).
      - now apply well_formed_ok.
      - apply dict_get_set_eq.
      - discriminate. }
    destruct (rec trial) as [[trial' [b|e]]|] eqn:R; [destruct b | destruct e |].
    + (* the trial succeeded *)
      intros [= <- <-].
      destruct (Hrec _ _ _ Htrial Hpos R) as (Hwf' & Hne' & Hsol).
      destruct (copy_back_content trial' self Hwf' Hwf) as [Hk Hc].
      split; [|split; [|split]].
      * split; [rewrite Hk; apply Hwf|].
        intros k v. rewrite Hc. apply Hwf'.
      * now apply (no_empty_cell_ext _ trial').
      * reflexivity.
      * apply (solved_grid_ext _ trial'); auto.
    + (* the trial stalled *)
      apply IH; auto with datatypes.
    + discriminate.
    + discriminate.
    + discriminate.
    + (* the trial raised: remove the option and simplify *)
      destruct (dict_get self cell) as [v|] eqn:Ev; [|discriminate].
      set (self2 := dict_set self cell (replace option v)).
      assert (Hsh : shrunk self2 self)
        by (eapply shrunk_set; [exact Ev | apply shrinks_replace]).
      pose proof (well_formed_shrunk _ _ Hsh Hwf) as Hwf2.
      assert (Hpos2 : complexity self2 <> 0).
      { destruct (other_cell cell) as (cell' & Hin & Hneq).
        destruct (Hne cell' Hin) as (v' & Hv' & Hnz).
        apply (complexity_pos self2 cell' v'); [now apply well_formed_ok | | exact Hnz].
        unfold self2. rewrite dict_get_set_neq; auto. }
      destruct (simplify self2) as [[self3 [b|e]]|] eqn:S; [|discriminate|discriminate].
      destruct (simplify_post _ _ _ Hwf2 Hpos2 S) as (Hwf3 & Hne3 & Hb & Hsol).
      destruct b.
      * intros [= <- <-]. auto.
      * apply IH; auto with datatypes.
        rewrite (shrunk_keys _ _ (simplify_shrunk _ _ _ S)), (shrunk_keys _ _ Hsh).
        exact Hcell.
    + discriminate.
Qed.

Lemma try_levels_sound (rec : Sudoku -> option (Sudoku * result bool)) :
  rec_sound rec ->
  forall levels self self' ob,
    well_formed self -> no_empty_cell self -> solved self = false ->
    try_levels rec levels self = Some (self', Ret ob) ->
    well_formed self' /\ no_empty_cell self'
    /\ match ob with
       | Some b => b = true /\ solved_grid self'
       | None => solved self' = false
       end.
Proof.
  intros Hrec. induction levels as [|i levels IH];
    intros self self' ob Hwf Hne Hns; simpl.
  - intros [= <- <-]. auto.
  - destruct (scan i (iteritems self) (None, "")) as [[cell|] options] eqn:Sc;
      [|now apply IH].
    apply scan_In in Sc. destruct Sc as [Sc|Sc]; [discriminate|].
    apply In_iteritems in Sc.
    destruct (try_options rec cell (chars options) self)
      as [[self1 [[b|]|e]]|] eqn:T; try discriminate.
    + intros [= <- <-].
      eapply try_options_sound in T; eauto using dict_get_key.
      intros c Hc. destruct Hwf as [_ Hd]. apply (Hd _ _ Sc). now apply contains_In.
    + eapply try_options_sound in T; eauto using dict_get_key.
      * destruct T as (H1 & H2 & H3). now apply IH.
      * intros c Hc. destruct Hwf as [_ Hd]. apply (Hd _ _ Sc). now apply contains_In.
Qed.

Lemma solve_S (fuel : nat) (self : Sudoku) :
  solve (S fuel) self
  = match simplify self with
    | None => None
    | Some (self1, Raise e) => Some (self1, Raise e)
    | Some (self1, Ret true) => Some (self1, Ret (solved self1))
    | Some (self1, Ret false) =>
        match try_levels (solve fuel) (seq 2 8) self1 with
        | None => None
        | Some (self2, Raise e) => Some (self2, Raise e)
        | Some (self2, Ret (Some b)) => Some (self2, Ret b)
        | Some (self2, Ret None) => Some (self2, Ret (solved self2))
        end
    end.
Proof. reflexivity. Qed.

Lemma solve_rec_sound (fuel : nat) : rec_sound (solve fuel).
Proof.
  induction fuel as [|fuel IH]; intros t t' b Hwf Hc; [discriminate|].
  rewrite solve_S.
  destruct (simplify t) as [[s1 [[|]|e]]|] eqn:S; try discriminate.
  - intros [= <- <-].
    destruct (simplify_post _ _ _ Hwf Hc S) as (H1 & H2 & H3 & H4).
    rewrite <- H3. split; [exact H1 | split; [exact H2 | exact H4]].
  - destruct (simplify_post _ _ _ Hwf Hc S) as (H1 & H2 & H3 & _).
    destruct (try_levels (solve fuel) (seq 2 8) s1) as [[s2 [[b'|]|e]]|] eqn:T;
      try discriminate; intros [= <- <-];
      destruct (try_levels_sound _ IH _ _ _ _ H1 H2 (eq_sym H3) T) as (H5 & H6 & H7).
    + destruct H7 as [-> H7]. split; [exact H5 | split; [exact H6 | now intros _]].
    + rewrite H7. split; [exact H5 | split; [exact H6 | discriminate]].
Qed.

Lemma simplify_twice (s s' : Sudoku) (b : bool) :
  dict_ok s -> simplify s = Some (s', Ret b) -> simplify s' = Some (s', Ret b).
Proof.
  intros Hok H. destruct (simplify_fixpoint _ _ _ Hok H) as [-> [[Hc ->]|Hfix]];
    apply simplify_of_fixpoint; auto.
Qed.

(** *** A grid without any candidate *)

Lemma sum_zero {A : Type} (f : A -> nat) (l : list A) :
  list_sum (map f l) = 0 -> forall x, In x l -> f x = 0.
Proof.
  induction l as [|a l IH]; simpl; [tauto|].
  intros H x [<-|Hx]; [lia | apply IH; [lia | exact Hx]].
Qed.

Lemma scan_options (i : nat) (items : list (string * string))
  (cur : option string * string) :
  snd (scan i items cur) = snd cur
  \/ exists cell, In (cell, snd (scan i items cur)) items.
Proof.
  revert cur. induction items as [|[c o] items IH]; intros cur; simpl; [auto|].
  destruct (String.length o =? i); simpl.
  - right. exists c. auto.
  - right. destruct (IH (Some c, o)) as [H|[cell H]]; simpl in H.
    + exists c. rewrite H. auto.
    + exists cell. auto.
Qed.

Lemma try_levels_nothing (rec : Sudoku -> option (Sudoku * result bool))
  (levels : list nat) (s : Sudoku) :
  complexity s = 0 -> try_levels rec levels s = Some (s, Ret None).
Proof.
  intros Hc. rewrite complexity_sum in Hc.
  induction levels as [|i levels IH]; simpl; [reflexivity|].
  pose proof (scan_options i (iteritems s) (None, "")) as Hs.
  destruct (scan i (iteritems s) (None, "")) as [[cell|] options]; [|exact IH].
  simpl in Hs. assert (options = "") as ->.
  { destruct Hs as [Hs|[c Hs]]; [exact Hs|].
    pose proof (sum_zero _ _ Hc _ Hs) as H. simpl in H. now destruct options. }
  simpl. exact IH.
Qed.

Lemma solve_nothing (fuel : nat) (s s' : Sudoku) (b : bool) :
  complexity s = 0 -> solve fuel s = Some (s', Ret b) -> b = false.
Proof.
  intros Hc. destruct fuel as [|fuel]; [discriminate|]. rewrite solve_S.
  rewrite (simplify_of_fixpoint s (or_introl Hc)).
  assert (Hs : solved s = false) by (unfold solved; now rewrite Hc).
  rewrite Hs, try_levels_nothing by assumption. rewrite Hs. now intros [= _ <-].
Qed.

(** ** The claims on propagation and search *)

(** C1 (soundness of [solve]): on a grid of the 81 cells whose candidate
    strings are made of the digits 1-9, whenever [solve] returns [True]
    every cell holds exactly one digit and every row, every column and every
    3x3 box holds each digit 1-9 exactly once.  This holds for every
    iteration order of dictionaries and every depth of recursion. *)
Theorem solve_sound (fuel : nat) (self self' : Sudoku) :
  well_formed self ->
  solve fuel self = Some (self', Ret true) ->
  all_determined self' /\ each_digit_once self'.
Proof.
  intros Hwf H. destruct (Nat.eq_dec (complexity self) 0) as [Hc|Hc].
  - now apply solve_nothing in H.
  - destruct (solve_rec_sound fuel _ _ _ Hwf Hc H) as (_ & _ & Hs). now apply Hs.
Qed.

(** C6, as amended (an empty candidate string can be written, but it does
    not survive a normal return): on a grid of the 81 cells that holds at
    least one candidate, whenever [simplify] or [solve] returns normally
    every cell holds a non-empty candidate string; and a grid in which some
    cell is empty makes a pass of [simplify] raise [SudokuException]. *)
Theorem no_empty_cell_on_return (self : Sudoku) :
  well_formed self -> complexity self <> 0 ->
  (forall self' b, simplify self = Some (self', Ret b) -> no_empty_cell self')
  /\ (forall fuel self' b,
        solve fuel self = Some (self', Ret b) -> no_empty_cell self').
Proof.
  intros Hwf Hc. split.
  - intros self' b H. now destruct (simplify_post _ _ _ Hwf Hc H) as (_ & H2 & _).
  - intros fuel self' b H.
    now destruct (solve_rec_sound fuel _ _ _ Hwf Hc H) as (_ & H2 & _).
Qed.

(** C8 (idempotence of propagation): when [simplify] returns normally,
    calling it again at once leaves every candidate string as it is and
    returns the same boolean. *)
Theorem simplify_idempotent (self self' : Sudoku) (b : bool) :
  dict_ok self ->
  simplify self = Some (self', Ret b) ->
  simplify self' = Some (self', Ret b).
Proof. apply simplify_twice. Qed.

(** C9 (monotonicity of the progress metric): [complexity] never increases
    across a pass of [simplify] (whether the pass returns or raises), nor
    across [simplify] as a whole; [solved] is true exactly when [complexity]
    is 81, and so is the boolean [simplify] returns. *)
Theorem complexity_monotone (self : Sudoku) :
  complexity (fst (process_areas simplify_area self)) <= complexity self
  /\ (forall self' r, simplify self = Some (self', r) ->
        complexity self' <= complexity self)
  /\ (solved self = true <-> complexity self = 81)
  /\ (forall self' b, simplify self = Some (self', Ret b) ->
        (b = true <-> complexity self' = 81)).
Proof.
  split; [apply shrunk_complexity, shrinking_process_areas|].
  split; [|split].
  - intros self' r H. eapply shrunk_complexity, simplify_shrunk, H.
  - apply Nat.eqb_eq.
  - intros self' b H. unfold simplify in H.
    destruct (simplify_loop _ _ _ _) as [[s1 [[]|e]]|]; try discriminate.
    injection H as <- <-. apply Nat.eqb_eq.
Qed.

(** ** The naked-subset rule *)

Lemma without_nil (w : string) : without "" w = w.
Proof. induction w as [|x w IH]; simpl; [reflexivity | now rewrite IH]. Qed.

Lemma without_cons (c : ascii) (v w : string) :
  without (String c v) w = without v (replace c w).
Proof.
  induction w as [|x w IH]; simpl; [reflexivity|].
  rewrite (Ascii.eqb_sym c x). destruct (Ascii.eqb x c); simpl; [exact IH|].
  destruct (contains x v); [exact IH | now rewrite IH].
Qed.

Lemma remove_options_eq (v w : string) : remove_options v w = without v w.
Proof.
  unfold remove_options, chars. revert w.
  induction v as [|c v IH]; intros w; simpl.
  - now rewrite without_nil.
  - rewrite IH, without_cons. destruct (contains c w) eqn:E; [reflexivity|].
    now rewrite replace_absent.
Qed.

Lemma contains_without (c : ascii) (v w : string) :
  contains c (without v w) = contains c w && negb (contains c v).
Proof. rewrite <- remove_options_eq. apply remove_options_without. Qed.

Lemma eliminate_run (v loc w : string) (s : Sudoku) :
  dict_get s loc = Some w ->
  exists s', eliminate v loc s = (s', Ret tt)
             /\ forall k, dict_get s' k
                          = if String.eqb loc k then Some (elim_value v w)
                            else dict_get s k.
Proof.
  intros E. unfold eliminate, bind, getitem, setitem, ret, elim_value. rewrite E.
  destruct (String.eqb w v) eqn:Ew; simpl.
  - exists s. split; [reflexivity|]. intros k.
    destruct (String.eqb loc k) eqn:Ek; [|reflexivity].
    apply String.eqb_eq in Ek. now subst k.
  - eexists. split; [reflexivity|]. intros k.
    now rewrite dict_get_set, remove_options_eq.
Qed.

(** The elimination loop: every listed cell that does not hold [v] loses
    the characters of [v]; nothing else changes. *)
Lemma for_each_eliminate (v : string) (locs : list string) (s : Sudoku) :
  NoDup locs -> has_cells locs s ->
  exists s', for_each locs (eliminate v) s = (s', Ret tt)
             /\ forall k, dict_get s' k
                          = if in_dec string_dec k locs
                            then option_map (elim_value v) (dict_get s k)
                            else dict_get s k.
Proof.
  revert s. induction locs as [|loc locs IH]; intros s Hnd Hs; simpl.
  - exists s. auto.
  - inversion Hnd as [|? ? Hloc Hnd']; subst.
    destruct (dict_get_present s loc (Hs loc (or_introl eq_refl))) as [w Hw].
    destruct (eliminate_run v loc w s Hw) as (s1 & H1 & G1).
    assert (Hs1 : has_cells locs s1).
    { intros k Hk. pose proof (shrinking_eliminate v loc s) as Hsh.
      rewrite H1 in Hsh. simpl in Hsh.
      rewrite (shrunk_keys _ _ Hsh). apply Hs. now right. }
    destruct (IH s1 Hnd' Hs1) as (s' & H' & G').
    exists s'. unfold bind. rewrite H1. split; [exact H'|].
    intros k. rewrite G', G1.
    destruct (string_dec loc k) as [->|Hne].
    + rewrite String.eqb_refl, Hw.
      destruct (in_dec string_dec k locs); [contradiction|].
      destruct (in_dec string_dec k (k :: locs)) as [H|H];
        [reflexivity | simpl in H; tauto].
    + apply (proj2 (String.eqb_neq loc k)) in Hne as Hneb. rewrite Hneb.
      destruct (in_dec string_dec k (loc :: locs)) as [[H|H]|H];
        destruct (in_dec string_dec k locs); simpl in *; tauto.
Qed.

Lemma in_dec_iff {A : Type} (l l' : list string) (x : string) (a b : A) :
  (In x l <-> In x l') ->
  (if in_dec string_dec x l then a else b)
  = (if in_dec string_dec x l' then a else b).
Proof.
  intros H. destruct (in_dec string_dec x l), (in_dec string_dec x l'); tauto.
Qed.



(** ** Construction *)

Lemma fill_run (cells : list string) (puzzle : list ascii) (acc : Sudoku) :
  NoDup cells -> (forall k, In k cells -> ~ In k (map fst acc)) ->
  List.length cells <= List.length puzzle ->
  fill cells puzzle acc = (acc ++ combine cells (map cell_value puzzle), Ret tt).
Proof.
  revert puzzle acc. induction cells as [|cell cells IH]; intros puzzle acc Hnd Hacc Hlen.
  - simpl. now rewrite app_nil_r.
  - destruct puzzle as [|val puzzle]; [simpl in Hlen; lia|].
    inversion Hnd as [|? ? Hcell Hnd']; subst. simpl. unfold bind, setitem.
    rewrite dict_set_absent by (apply Hacc; now left).
    rewrite IH; [now rewrite <- app_assoc | exact Hnd' | | simpl in Hlen; lia].
    intros k Hk. rewrite map_app, in_app_iff. simpl.
    intros [H|[<-|[]]]; [|contradiction]. revert H. apply Hacc. now right.
Qed.

Lemma Sudoku_init_eq (puzzle : string) :
  Sudoku_init puzzle
  = if List.length (re_sub puzzle) =? 81
    then (combine all_cells (map cell_value (re_sub puzzle)), Ret tt)
    else ([], Raise ValueError).
Proof.
  unfold Sudoku_init. cbv zeta.
  destruct (List.length (re_sub puzzle) =? 81) eqn:E; cbn [negb]; [|reflexivity].
  apply Nat.eqb_eq in E. rewrite fill_run; [reflexivity | apply all_cells_NoDup | |].
  - intros k _ [].
  - rewrite E. reflexivity.
Qed.

Lemma map_fst_combine {A B : Type} (l : list A) (l' : list B) :
  List.length l = List.length l' -> map fst (combine l l') = l.
Proof.
  revert l'. induction l as [|a l IH]; intros [|b l'] H; simpl in *;
    try discriminate; [reflexivity|]. now rewrite IH by lia.
Qed.

Lemma map_snd_combine {A B : Type} (l : list A) (l' : list B) :
  List.length l = List.length l' -> map snd (combine l l') = l'.
Proof.
  revert l'. induction l as [|a l IH]; intros [|b l'] H; simpl in *;
    try discriminate; [reflexivity|]. now rewrite IH by lia.
Qed.

Lemma Sudoku_init_grid (puzzle : string) (self : Sudoku) :
  Sudoku_init puzzle = (self, Ret tt) ->
  List.length (re_sub puzzle) = 81
  /\ map fst self = all_cells
  /\ map snd self = map cell_value (re_sub puzzle).
Proof.
  rewrite Sudoku_init_eq. destruct (List.length (re_sub puzzle) =? 81) eqn:E;
    [|discriminate].
  apply Nat.eqb_eq in E. intros H.
  assert (self = combine all_cells (map cell_value (re_sub puzzle))) as ->
    by congruence.
  split; [exact E|].
  split; [apply map_fst_combine | apply map_snd_combine];
    now rewrite length_map, E.
Qed.

(** ** Two equal digits in a row *)

Lemma two_in_list {A : Type} (l : list A) (a b : A) :
  In a l -> In b l -> a <> b -> 2 <= List.length l.
Proof.
  destruct l as [|x [|y l]]; simpl; try tauto; [|lia].
  intros [<-|[]] [<-|[]]. tauto.
Qed.

Lemma freq_two (s : Sudoku) (cells : list string) (k1 k2 v : string) :
  In k1 cells -> In k2 cells -> k1 <> k2 ->
  dict_get s k1 = Some v -> dict_get s k2 = Some v ->
  2 <= freq s cells v.
Proof.
  intros H1 H2 Hne E1 E2. unfold freq.
  apply (two_in_list _ k1 k2); [| |exact Hne]; apply filter_In; split; auto;
    unfold holds; [rewrite E1 | rewrite E2]; apply String.eqb_refl.
Qed.

Lemma rows_disjoint (row r : ascii) (k : string) :
  r <> row ->
  In k (area_cells (char1 row) cols9) -> ~ In k (area_cells (char1 r) cols9).
Proof.
  rewrite !row_cells. intros Hne (c & <- & _)%in_map_iff (c' & E & _)%in_map_iff.
  injection E as E _. contradiction.
Qed.

(** The pass over the rows raises as soon as some row holds a candidate
    string more often than the string is long: the rows before it leave its
    cells alone. *)
Lemma rows_pass_raises (rs : list ascii) (row : ascii) (v : string) (s : Sudoku) :
  (forall r, In r rs -> In r (chars rows9)) -> In row rs ->
  has_cells all_cells s ->
  String.length v < freq s (area_cells (char1 row) cols9) v ->
  snd (for_each (map (fun r => (char1 r, cols9)) rs)
         (fun rc => process_area (fst rc) (snd rc) simplify_area) s)
  = Raise SudokuException.
Proof.
  revert s. induction rs as [|r rs IH]; intros s Hrs Hrow Hs Hv; [destruct Hrow|].
  cbn [map for_each]. unfold bind. cbn [fst snd].
  destruct (area_facts _ _ (row_is_area r (Hrs r (or_introl eq_refl))))
    as (Hnd & Hincl & _).
  pose proof (has_cells_incl _ _ s Hincl Hs) as Hcs.
  destruct (ascii_dec r row) as [->|Hne].
  - pose proof (process_area_raises _ _ v s Hnd Hcs Hv) as H.
    destruct (process_area (char1 row) cols9 simplify_area s) as [s1 r1].
    simpl in H. now subst r1.
  - pose proof (process_area_outcome _ _ s Hnd Hcs) as Hout.
    pose proof (shrinking_process_area (char1 r) cols9 s) as Hsh.
    pose proof (confined_process_area (char1 r) cols9 s) as Hconf.
    destruct (process_area (char1 r) cols9 simplify_area s) as [s1 [[]|e]];
      simpl in Hout, Hsh, Hconf.
    + apply IH; auto with datatypes.
      * destruct Hrow; [contradiction | assumption].
      * eapply has_cells_shrunk; eauto.
      * rewrite (freq_ext s s1); [exact Hv|].
        intros k Hk. apply Hconf. now apply (rows_disjoint row r).
    + simpl. destruct (existsb _ _); congruence.
Qed.

Lemma pass_detects_row (row : ascii) (v : string) (s : Sudoku) :
  In row (chars rows9) -> has_cells all_cells s ->
  String.length v < freq s (area_cells (char1 row) cols9) v ->
  snd (process_areas simplify_area s) = Raise SudokuException.
Proof.
  intros Hrow Hs Hv. unfold process_areas, areas. rewrite for_each_app.
  pose proof (rows_pass_raises (chars rows9) row v s (fun r H => H) Hrow Hs Hv) as H.
  destruct (for_each (map (fun r => (char1 r, cols9)) (chars rows9)) _ s) as [s1 r1].
  simpl in H. now subst r1.
Qed.

(** C3 (unsolvability detection): on every constructed grid in which two
    cells of one row hold the same determined digit, the top-level call of
    [solve] raises [SudokuException]; it returns neither [True] nor
    [False].  (Nothing is assumed about the other cells.) *)
Theorem duplicate_in_row_detected (puzzle : string) (self : Sudoku)
  (row c1 c2 d : ascii) (fuel : nat) :
  Sudoku_init puzzle = (self, Ret tt) ->
  In row (chars rows9) -> In c1 (chars cols9) -> In c2 (chars cols9) -> c1 <> c2 ->
  dict_get self (cell_name row c1) = Some (char1 d) ->
  dict_get self (cell_name row c2) = Some (char1 d) ->
  exists self', solve (S fuel) self = Some (self', Raise SudokuException).
Proof.
  intros Hinit Hrow Hc1 Hc2 Hne E1 E2.
  destruct (Sudoku_init_grid _ _ Hinit) as (_ & Hkeys & _).
  assert (Hs : has_cells all_cells self) by (intros k Hk; now rewrite Hkeys).
  assert (Hok : dict_ok self) by (unfold dict_ok; rewrite Hkeys; apply all_cells_NoDup).
  assert (Hpos : complexity self <> 0)
    by (apply (complexity_pos self _ _ Hok E1); discriminate).
  assert (Hv : String.length (char1 d)
               < freq self (area_cells (char1 row) cols9) (char1 d)).
  { apply (freq_two self _ (cell_name row c1) (cell_name row c2)); auto.
    - rewrite row_cells. now apply in_map.
    - rewrite row_cells. now apply in_map.
    - intros [= H]. contradiction. }
  pose proof (pass_detects_row row _ self Hrow Hs Hv) as Hpass.
  destruct (process_areas simplify_area self) as [s' r] eqn:P. simpl in Hpass. subst r.
  exists s'. rewrite solve_S. now rewrite (simplify_raises _ _ _ Hpos P).
Qed.

(** ** The claims on construction *)

Lemma kept_spec (c : ascii) :
  kept c = digit c || Ascii.eqb c "0" || Ascii.eqb c ".".
Proof. destruct c as [[] [] [] [] [] [] [] []]; reflexivity. Qed.

Lemma cell_value_spec (c : ascii) :
  kept c = true ->
  cell_value c = if digit c then char1 c else "123456789".
Proof. destruct c as [[] [] [] [] [] [] [] []]; try discriminate; reflexivity. Qed.

Lemma whitespace_not_kept (c : ascii) : whitespace c = true -> kept c = false.
Proof. destruct c as [[] [] [] [] [] [] [] []]; try discriminate; reflexivity. Qed.

Lemma filter_filter_weaker {A : Type} (f g : A -> bool) (l : list A) :
  (forall x, f x = true -> g x = true) ->
  filter f (filter g l) = filter f l.
Proof.
  intros H. induction l as [|x l IH]; simpl; [reflexivity|].
  destruct (g x) eqn:G; simpl.
  - now rewrite IH.
  - destruct (f x) eqn:F; [|exact IH]. rewrite (H x F) in G. discriminate.
Qed.

Lemma re_sub_strip_whitespace (puzzle : string) :
  re_sub (strip_whitespace puzzle) = re_sub puzzle.
Proof.
  unfold re_sub, strip_whitespace, chars.
  rewrite list_ascii_of_string_of_list_ascii. apply filter_filter_weaker.
  intros c Hc. destruct (whitespace c) eqn:W; [|reflexivity].
  apply whitespace_not_kept in W. congruence.
Qed.

Lemma nth_error_combine {A B : Type} (l : list A) (l' : list B) (i : nat) :
  nth_error (combine l l') i
  = match nth_error l i, nth_error l' i with
    | Some a, Some b => Some (a, b)
    | _, _ => None
    end.
Proof.
  revert l' i. induction l as [|a l IH]; intros [|b l'] [|i]; simpl; auto.
  - now destruct (nth_error l i).
Qed.

(** C7 (construction contract): [Sudoku(text)] strips every character
    that is not a digit 1-9 or a placeholder ('0' or '.'); it raises
    [ValueError] exactly when the number of characters left is not 81 (80
    and 82 included); otherwise it returns the grid that maps the 81 cells,
    in row-major order, to the singleton of the digit or, for a placeholder,
    to the full string "123456789"; and the text without its whitespace
    constructs the same grid. *)
Theorem construct_contract (puzzle : string) :
  (forall c, In c (re_sub puzzle)
             <-> In c (chars puzzle)
                 /\ (digit c = true \/ c = "0"%char \/ c = "."%char))
  /\ (snd (Sudoku_init puzzle) = Raise ValueError
      <-> List.length (re_sub puzzle) <> 81)
  /\ (List.length (re_sub puzzle) = 81 ->
      Sudoku_init puzzle
      = (combine all_cells
           (map (fun c => if digit c then char1 c else "123456789")
              (re_sub puzzle)),
         Ret tt))
  /\ Sudoku_init (strip_whitespace puzzle) = Sudoku_init puzzle.
Proof.
  split; [|split; [|split]].
  - intros c. unfold re_sub. rewrite filter_In, kept_spec.
    rewrite !orb_true_iff, !Ascii.eqb_eq. tauto.
  - rewrite Sudoku_init_eq.
    destruct (List.length (re_sub puzzle) =? 81) eqn:E; simpl.
    + apply Nat.eqb_eq in E. split; [discriminate | tauto].
    + apply Nat.eqb_neq in E. tauto.
  - intros E. rewrite Sudoku_init_eq, E, Nat.eqb_refl. do 2 f_equal.
    apply map_ext_in. intros c Hc. apply cell_value_spec.
    unfold re_sub in Hc. now apply filter_In in Hc.
  - unfold Sudoku_init. now rewrite re_sub_strip_whitespace.
Qed.


(** ** Checking concrete grids *)

Lemma well_formed_check (s : Sudoku) :
  map fst s = all_cells ->
  forallb (fun kv => forallb digit (chars (snd kv))) s = true ->
  well_formed s.
Proof.
  intros Hk Hd. split; [now rewrite Hk|].
  intros cell v E%dict_get_In c Hc.
  rewrite forallb_forall in Hd. specialize (Hd _ E). simpl in Hd.
  rewrite forallb_forall in Hd. now apply Hd, contains_In.
Qed.

Lemma has_cells_check (s : Sudoku) :
  map fst s = all_cells -> has_cells all_cells s.
Proof. intros H k Hk. now rewrite H. Qed.

(** ** The loops of [solve], one round at a time *)

Lemma try_levels_cons (rec : Sudoku -> option (Sudoku * result bool))
  (i : nat) (levels : list nat) (self : Sudoku) :
  try_levels rec (i :: levels) self
  = match scan i (iteritems self) (None, "") with
    | (None, _) => try_levels rec levels self
    | (Some cell, options) =>
        match try_options rec cell (chars options) self with
        | Some (self', Ret None) => try_levels rec levels self'
        | r => r
        end
    end.
Proof. reflexivity. Qed.

Lemma try_options_diverges (rec : Sudoku -> option (Sudoku * result bool))
  (cell : string) (option : ascii) (options : list ascii) (self : Sudoku) :
  rec (dict_set (copy self) cell (char1 option)) = None ->
  try_options rec cell (option :: options) self = None.
Proof. intros H. simpl. now rewrite H. Qed.

(** When no cell has [i] candidates, the scan of [solve] ends on the last
    cell iterated, with whatever candidates that cell has: the loop
    variables keep their last binding. *)
Lemma scan_stale (i : nat) (items : list (string * string))
  (cur : option string * string) :
  (forall cell options, In (cell, options) items -> String.length options <> i) ->
  scan i items cur
  = match rev items with
    | [] => cur
    | (cell, options) :: _ => (Some cell, options)
    end.
Proof.
  revert cur. induction items as [|[c o] items IH]; intros cur H; simpl; [reflexivity|].
  destruct (String.length o =? i) eqn:E.
  - apply Nat.eqb_eq in E. exfalso. apply (H c o); [now left | exact E].
  - rewrite IH by (intros c' o' Hin; apply (H c' o'); now right).
    destruct (rev items) as [|[c' o'] l] eqn:R; reflexivity.
Qed.

(** ** Passes that do not depend on the iteration order *)

Lemma without_without (u v w : string) :
  without v (without u w) = without (u ++ v) w.
Proof.
  induction w as [|x w IH]; simpl; [reflexivity|].
  assert (E : contains x (u ++ v) = contains x u || contains x v).
  { clear. induction u as [|y u IHu]; simpl; [reflexivity|].
    destruct (Ascii.eqb y x); [reflexivity | exact IHu]. }
  rewrite E. destruct (contains x u); simpl; [exact IH|].
  destruct (contains x v); [exact IH | now rewrite IH].
Qed.

Lemma contains_append (c : ascii) (u v : string) :
  contains c (u ++ v) = contains c u || contains c v.
Proof.
  induction u as [|y u IH]; simpl; [reflexivity|].
  destruct (Ascii.eqb y c); [reflexivity | exact IH].
Qed.

Lemma contains_join (c : ascii) (l : list string) :
  contains c (join l) = existsb (contains c) l.
Proof.
  induction l as [|v l IH]; simpl; [reflexivity|]. now rewrite contains_append, IH.
Qed.

Lemma without_ext (u v w : string) :
  (forall c, contains c u = contains c v) -> without u w = without v w.
Proof.
  intros H. induction w as [|x w IH]; simpl; [reflexivity|].
  rewrite H. destruct (contains x v); now rewrite IH.
Qed.

Lemma without_disjoint (v w : string) :
  disjoint_chars v w = true -> without v w = w.
Proof.
  unfold disjoint_chars. rewrite forallb_forall. intros H.
  assert (G : forall c, contains c w = true -> contains c v = false).
  { intros c Hc. destruct (contains c v) eqn:E; [|reflexivity].
    apply contains_In, H in E. now rewrite Hc in E. }
  clear H. induction w as [|x w IH]; simpl; [reflexivity|].
  rewrite (G x) by (simpl; now rewrite Ascii.eqb_refl). f_equal. apply IH.
  intros c Hc. apply G. simpl. destruct (Ascii.eqb x c); auto.
Qed.

Lemma join_snoc (q : list string) (v : string) : join (q ++ [v]) = (join q ++ v)%string.
Proof.
  induction q as [|u q IH]; simpl.
  - clear. induction v; simpl; [reflexivity | now f_equal].
  - rewrite IH. clear. induction u; simpl; [reflexivity | now f_equal].
Qed.

Lemma existsb_eqb_In' (x : string) (l : list string) :
  existsb (String.eqb x) l = false <-> ~ In x l.
Proof.
  rewrite <- existsb_eqb_In. now destruct (existsb (String.eqb x) l).
Qed.

(** An eliminator that is disjoint from every other one stays. *)
Lemma elim_all_stays (E p : list string) (w : string) :
  forallb (fun v => String.eqb v w || disjoint_chars v w) E = true ->
  incl p E ->
  fold_left (fun w v => elim_value v w) p w = w.
Proof.
  rewrite forallb_forall. intros HE.
  induction p as [|v p IH]; intros Hp; simpl; [reflexivity|].
  assert (Hv : elim_value v w = w).
  { unfold elim_value. destruct (String.eqb w v) eqn:Ew; [reflexivity|].
    pose proof (HE v (Hp v (or_introl eq_refl))) as H.
    rewrite String.eqb_sym, Ew in H. simpl in H. now apply without_disjoint. }
  rewrite Hv. apply IH. intros x Hx. apply Hp. now right.
Qed.

(** A string that never meets an eliminator equal to it loses the
    characters of all of them. *)
Lemma elim_all_removes (E : list string) (w : string) :
  forallb (fun v =>
             negb (subset_chars v w)
             || negb (subset_chars
                        (without (join (filter (fun v' => negb (String.eqb v' v)) E)) w)
                        v)) E = true ->
  forall r q, NoDup (q ++ r) -> incl (q ++ r) E ->
    fold_left (fun w v => elim_value v w) r (without (join q) w)
    = without (join (q ++ r)) w.
Proof.
  rewrite forallb_forall. intros HE.
  induction r as [|v r IH]; intros q Hnd Hincl; simpl.
  - now rewrite app_nil_r.
  - assert (Hne : String.eqb (without (join q) w) v = false).
    { apply String.eqb_neq. intros Heq.
      assert (Hv : In v E) by (apply Hincl, in_or_app; right; now left).
      specialize (HE v Hv). apply orb_prop in HE. destruct HE as [H|H].
      - apply negb_true_iff in H. unfold subset_chars in H.
        assert (forallb (fun c => contains c w) (chars v) = true); [|congruence].
        apply forallb_forall. intros c Hc%contains_In.
        rewrite <- Heq, contains_without in Hc. now apply andb_prop in Hc.
      - apply negb_true_iff in H. unfold subset_chars in H.
        assert (forallb (fun c => contains c v)
                  (chars (without
                            (join (filter (fun v' => negb (String.eqb v' v)) E)) w))
                = true); [|congruence].
        apply forallb_forall. intros c Hc%contains_In.
        rewrite contains_without in Hc. apply andb_prop in Hc as [Hw Hj].
        rewrite <- Heq, contains_without, Hw. simpl.
        apply negb_true_iff in Hj. apply negb_true_iff.
        rewrite contains_join in *.
        destruct (existsb (contains c) q) eqn:Eq; [|reflexivity].
        apply existsb_exists in Eq. destruct Eq as (u & Hu & Hcu).
        assert (existsb (contains c) (filter (fun v' => negb (String.eqb v' v)) E)
                = true); [|congruence].
        apply existsb_exists. exists u. split; [|exact Hcu].
        apply filter_In. split; [apply Hincl, in_or_app; now left|].
        apply negb_true_iff, String.eqb_neq. intros ->.
        apply NoDup_remove_2 in Hnd. apply Hnd, in_or_app. now left. }
    unfold elim_value at 2. rewrite Hne, without_without, <- join_snoc.
    rewrite IH.
    + now rewrite <- app_assoc.
    + now rewrite <- app_assoc.
    + now rewrite <- app_assoc.
Qed.

Lemma elim_all_robust (E p : list string) (w : string) :
  robust_cell E w = true -> NoDup p -> (forall v, In v p <-> In v E) ->
  fold_left (fun w v => elim_value v w) p w = settle E w.
Proof.
  unfold robust_cell, settle. intros Hr Hnd Hp.
  destruct (existsb (String.eqb w) E) eqn:Ew.
  - apply (elim_all_stays E); [exact Hr|]. intros v. apply Hp.
  - pose proof (elim_all_removes E w Hr p [] Hnd (fun v => proj1 (Hp v))) as H.
    simpl in H. rewrite without_nil in H. rewrite H.
    apply without_ext. intros c. rewrite !contains_join.
    destruct (existsb (contains c) E) eqn:EE.
    + apply existsb_exists in EE. destruct EE as (u & Hu & Hc).
      apply existsb_exists. exists u. split; [now apply Hp | exact Hc].
    + destruct (existsb (contains c) p) eqn:Ep; [|reflexivity].
      apply existsb_exists in Ep. destruct Ep as (u & Hu & Hc).
      assert (existsb (contains c) E = true); [|congruence].
      apply existsb_exists. exists u. split; [now apply Hp | exact Hc].
Qed.

Lemma dict_ext {V : Type} (a b : dict V) :
  map fst a = map fst b -> dict_ok a ->
  (forall k, dict_get a k = dict_get b k) -> a = b.
Proof.
  unfold dict_ok. revert b.
  induction a as [|[k v] a IH]; intros [|[k' v'] b]; simpl; try discriminate;
    [reflexivity|].
  intros [= <- Hk] Hnd H. inversion Hnd as [|? ? Hka Hnd']; subst.
  pose proof (H k) as Hkk. rewrite String.eqb_refl in Hkk. injection Hkk as <-.
  f_equal. apply IH; auto. intros x. specialize (H x).
  destruct (String.eqb k x) eqn:E; [|exact H].
  apply String.eqb_eq in E. subst x.
  transitivity (@None V); [|symmetry]; apply dict_get_None; [|rewrite <- Hk]; exact Hka.
Qed.

Lemma area_pass_keys (s : Sudoku) (cells : list string) :
  map fst (area_pass s cells) = map fst s.
Proof.
  unfold area_pass. cbv zeta. rewrite map_map. apply map_ext. intros [k v]. simpl.
  now destruct (existsb (String.eqb k) cells).
Qed.

Lemma area_pass_get (s : Sudoku) (cells : list string) (k : string) :
  dict_get (area_pass s cells) k
  = if in_dec string_dec k cells
    then option_map (settle (eliminators s cells)) (dict_get s k)
    else dict_get s k.
Proof.
  unfold area_pass. cbv zeta. generalize (eliminators s cells) as E. intros E.
  induction s as [|[k0 v0] s IH]; simpl.
  - now destruct (in_dec string_dec k cells).
  - destruct (existsb (String.eqb k0) cells) eqn:Ex; simpl;
      destruct (String.eqb k0 k) eqn:Ek; try exact IH.
    + apply String.eqb_eq in Ek. subst k0. apply existsb_eqb_In in Ex.
      destruct (in_dec string_dec k cells); [reflexivity | contradiction].
    + apply String.eqb_eq in Ek. subst k0. apply existsb_eqb_In' in Ex.
      destruct (in_dec string_dec k cells); [contradiction | reflexivity].
Qed.

Lemma run_items (area : dict string) (cells : list string) (l : list (string * nat)) :
  (forall k, In k (keys area) <-> In k cells) -> NoDup (keys area) ->
  (forall it, In it l -> oversubscribed it = false) ->
  forall t, has_cells cells t ->
    exists t', for_each l (simplify_option area) t = (t', Ret tt)
               /\ forall k,
                    dict_get t' k
                    = if in_dec string_dec k cells
                      then option_map
                             (fun w => fold_left (fun w v => elim_value v w) (elims l) w)
                             (dict_get t k)
                      else dict_get t k.
Proof.
  intros Hk Hnd. induction l as [|[v n] l IH]; intros Hl t Ht.
  - exists t. split; [reflexivity|]. intros k. simpl.
    destruct (in_dec string_dec k cells); [now destruct (dict_get t k) | reflexivity].
  - cbn [for_each]. unfold bind, simplify_option at 1, elims. cbn [filter fst snd].
    pose proof (Hl (v, n) (or_introl eq_refl)) as Hov. unfold oversubscribed in Hov.
    simpl in Hov.
    assert (Hl' : forall it, In it l -> oversubscribed it = false)
      by (intros it Hit; apply Hl; now right).
    destruct (String.length v =? n) eqn:E.
    + destruct (for_each_eliminate v (keys area) t Hnd) as (t1 & H1 & G1).
      { intros k Hk'. now apply Ht, Hk. }
      rewrite H1.
      assert (Ht1 : has_cells cells t1).
      { pose proof (shrinking_for_each (keys area) (eliminate v)
                      (shrinking_eliminate v) t) as Hsh.
        rewrite H1 in Hsh. eapply has_cells_shrunk; eauto. }
      destruct (IH Hl' t1 Ht1) as (t' & H' & G').
      exists t'. split; [exact H'|]. intros k. rewrite G', G1.
      rewrite (in_dec_iff (keys area) cells k _ _ (Hk k)).
      destruct (in_dec string_dec k cells); [|reflexivity].
      now destruct (dict_get t k).
    + rewrite Hov. unfold ret. apply (IH Hl' t Ht).
Qed.

Lemma NoDup_map_filter {A B : Type} (f : A -> B) (g : A -> bool) (l : list A) :
  NoDup (map f l) -> NoDup (map f (filter g l)).
Proof.
  induction l as [|a l IH]; simpl; [auto|].
  intros H. inversion H as [|? ? Ha Hl]; subst.
  destruct (g a); simpl; [|auto]. constructor; [|auto].
  intros (x & Hx & Hin)%in_map_iff. apply filter_In in Hin as [Hin _].
  apply Ha. rewrite <- Hx. now apply in_map.
Qed.

(** A robust pass over an area gives the same grid in every iteration
    order. *)
Lemma process_area_robust (rows cols : string) (s : Sudoku) :
  In (rows, cols) areas -> has_cells all_cells s -> dict_ok s ->
  area_robust s (area_cells rows cols) = true ->
  process_area rows cols simplify_area s
  = (area_pass s (area_cells rows cols), Ret tt).
Proof.
  intros Hin Hs Hok Hrob.
  destruct (area_facts rows cols Hin) as (Hnd & Hincl & _).
  set (cells := area_cells rows cols) in *.
  pose proof (has_cells_incl _ _ s Hincl Hs) as Hcs.
  rewrite process_area_run by assumption. fold cells.
  set (area := area_of s cells).
  unfold area_robust in Hrob. cbv zeta in Hrob.
  apply andb_prop in Hrob as [Hfreq Hcell].
  rewrite forallb_forall in Hfreq, Hcell.
  assert (Hareaok : dict_ok area) by now apply area_of_ok.
  assert (Hitem : forall v n, In (v, n) (iteritems (count_options area))
                              <-> n = freq s cells v /\ In v (map (value s) cells)).
  { intros v n. rewrite options_item by assumption. unfold area.
    rewrite area_of_values, <- freq_count by assumption.
    rewrite (count_occ_In string_dec), <- freq_count by assumption.
    split; intros [-> H]; (split; [reflexivity|lia]). }
  destruct (run_items area cells (iteritems (count_options area))) with (t := s)
    as (t' & Hrun & Hget).
  - intros k. rewrite In_keys. unfold area. now rewrite area_of_keys.
  - now apply keys_NoDup.
  - intros [v n] [-> Hv]%Hitem. unfold oversubscribed. simpl.
    apply Nat.ltb_ge. rewrite freq_count by assumption.
    apply Nat.leb_le. now apply Hfreq.
  - exact Hcs.
  - unfold simplify_area. rewrite Hrun. f_equal.
    assert (Hsh : shrunk t' s).
    { pose proof (shrinking_for_each (iteritems (count_options area))
                    (simplify_option area) (shrinking_simplify_option area) s) as H.
      now rewrite Hrun in H. }
    apply dict_ext.
    + now rewrite area_pass_keys, (shrunk_keys _ _ Hsh).
    + eapply shrunk_ok; eauto.
    + intros k. rewrite Hget, area_pass_get.
      destruct (in_dec string_dec k cells) as [Hk|Hk]; [|reflexivity].
      destruct (dict_get_present s k (Hcs k Hk)) as [w Hw]. rewrite Hw. simpl.
      f_equal. apply elim_all_robust.
      * rewrite <- (value_get _ _ _ Hw). apply Hcell. now apply in_map.
      * unfold elims. apply NoDup_map_filter.
        rewrite iteritems_keys. apply keys_NoDup.
        unfold dict_ok, count_options.
        assert (G : forall (vals : list string) (acc : dict nat),
                  NoDup (map fst acc) ->
                  NoDup (map fst (fold_left
                                    (fun options val =>
                                       let (options', n) := setdefault options val 0 in
                                       dict_set options' val (n + 1)) vals acc))).
        { induction vals as [|val vals IHv]; intros acc Hacc; simpl; [exact Hacc|].
          apply IHv. unfold setdefault. destruct (dict_get acc val).
          - now apply dict_set_ok.
          - now apply dict_set_ok, dict_set_ok. }
        apply G. constructor.
      * intros v. unfold elims, eliminators, eliminators_of.
        rewrite in_map_iff, filter_In, nodup_In, <- freq_count by assumption.
        split.
        -- intros ([v' n] & <- & [Hi He]%filter_In). simpl in *.
           apply Hitem in Hi as [-> Hv]. auto.
        -- intros [Hv He]. exists (v, freq s cells v). split; [reflexivity|].
           apply filter_In. split; [now apply Hitem | exact He].
Qed.

Lemma robust_run_sound (l : list (string * string)) (s s' : Sudoku) :
  incl l areas -> has_cells all_cells s -> dict_ok s ->
  robust_run l s = Some s' ->
  for_each l (fun rc => process_area (fst rc) (snd rc) simplify_area) s = (s', Ret tt).
Proof.
  revert s. induction l as [|[rows cols] l IH]; intros s Hl Hs Hok; simpl.
  - now intros [= <-].
  - destruct (area_robust s (area_cells rows cols)) eqn:R; [|discriminate].
    intros H. unfold bind. cbn [fst snd].
    rewrite process_area_robust; auto; [|apply Hl; now left].
    apply IH; auto.
    + intros rc Hrc. apply Hl. now right.
    + intros k Hk. rewrite area_pass_keys. now apply Hs.
    + unfold dict_ok. now rewrite area_pass_keys.
Qed.

Lemma robust_run_keys (l : list (string * string)) (s s' : Sudoku) :
  robust_run l s = Some s' -> map fst s' = map fst s.
Proof.
  revert s. induction l as [|[rows cols] l IH]; intros s; simpl.
  - now intros [= <-].
  - destruct (area_robust s (area_cells rows cols)); [|discriminate].
    intros H%IH. now rewrite H, area_pass_keys.
Qed.

Lemma robust_simplify_S (fuel : nat) (s : Sudoku) :
  robust_simplify (S fuel) s
  = match robust_run areas s with
    | None => None
    | Some s' => if weight s' =? weight s then Some s' else robust_simplify fuel s'
    end.
Proof. reflexivity. Qed.

Lemma robust_simplify_loop (fuel : nat) (s s' : Sudoku) :
  has_cells all_cells s -> dict_ok s ->
  robust_simplify fuel s = Some s' ->
  forall fuel' before, complexity s < fuel' -> before <> complexity s ->
    simplify_loop fuel' before (complexity s) s = Some (s', Ret tt).
Proof.
  revert s. induction fuel as [|fuel IH]; intros s Hs Hok; [discriminate|].
  rewrite robust_simplify_S.
  destruct (robust_run areas s) as [s1|] eqn:R; [|discriminate].
  pose proof (robust_run_sound areas s s1 (fun x H => H) Hs Hok R) as Hpass.
  fold (process_areas simplify_area s) in Hpass.
  pose proof (robust_run_keys _ _ _ R) as Hkeys.
  assert (Hok1 : dict_ok s1) by (unfold dict_ok; now rewrite Hkeys).
  assert (Hs1 : has_cells all_cells s1) by (intros k Hk; rewrite Hkeys; now apply Hs).
  pose proof (shrinking_process_areas s) as Hsh. rewrite Hpass in Hsh. simpl in Hsh.
  intros H fuel' before Hf Hb. destruct fuel' as [|fuel']; [lia|].
  rewrite simplify_loop_S, (proj2 (Nat.eqb_neq _ _) Hb), Hpass.
  rewrite <- !complexity_weight in H by assumption.
  destruct (complexity s1 =? complexity s) eqn:E.
  - apply Nat.eqb_eq in E. injection H as <-. rewrite E. apply simplify_loop_stop.
  - apply Nat.eqb_neq in E. pose proof (shrunk_complexity _ _ Hsh).
    apply IH; auto; lia.
Qed.

(** When every pass is robust, [simplify] returns the same grid in every
    iteration order. *)
Lemma robust_simplify_sound (fuel : nat) (s s' : Sudoku) :
  has_cells all_cells s -> dict_ok s -> weight s <> 0 ->
  robust_simplify fuel s = Some s' ->
  simplify s = Some (s', Ret (weight s' =? 81)).
Proof.
  intros Hs Hok Hw H. unfold simplify.
  rewrite <- complexity_weight in Hw by assumption.
  rewrite (robust_simplify_loop fuel s s' Hs Hok H) by lia.
  unfold solved. rewrite complexity_weight; [reflexivity|].
  pose proof (robust_simplify_loop fuel s s' Hs Hok H (S (complexity s)) 0
                ltac:(lia) ltac:(lia)) as L.
  eapply shrunk_ok; [eapply simplify_loop_shrunk, L | exact Hok].
Qed.

(** ** What can leave [simplify] *)

Lemma for_each_raise_kind {A : Type} (I : Sudoku -> Prop) (e : exn)
  (l : list A) (body : A -> M unit) :
  (forall x t, In x l -> I t ->
     I (fst (body x t))
     /\ (snd (body x t) = Ret tt \/ snd (body x t) = Raise e)) ->
  forall s, I s ->
    snd (for_each l body s) = Ret tt \/ snd (for_each l body s) = Raise e.
Proof.
  induction l as [|x l IH]; intros Hb s Hs; simpl; [auto|].
  unfold bind. destruct (Hb x s (or_introl eq_refl) Hs) as [HI Hr].
  destruct (body x s) as [s1 [[]|e']]; simpl in *.
  - apply IH; [|exact HI]. intros y t Hy. apply Hb. now right.
  - destruct Hr as [Hr|Hr]; [discriminate | auto].
Qed.

Lemma process_areas_raise_kind (s : Sudoku) :
  has_cells all_cells s ->
  snd (process_areas simplify_area s) = Ret tt
  \/ snd (process_areas simplify_area s) = Raise SudokuException.
Proof.
  intros Hs. unfold process_areas.
  apply (for_each_raise_kind (has_cells all_cells)); [|exact Hs].
  intros [rows cols] t Hin Ht. simpl. split.
  - eapply has_cells_shrunk; [apply shrinking_process_area | exact Ht].
  - destruct (area_facts rows cols Hin) as (Hnd & Hincl & _).
    rewrite process_area_outcome; eauto using has_cells_incl.
    destruct (existsb _ _); auto.
Qed.

Lemma simplify_loop_raise_kind (fuel before after : nat) (s s' : Sudoku) (e : exn) :
  has_cells all_cells s ->
  simplify_loop fuel before after s = Some (s', Raise e) -> e = SudokuException.
Proof.
  revert before after s. induction fuel as [|fuel IH]; intros before after s Hs; simpl.
  - destruct (before =? after); discriminate.
  - destruct (before =? after); [discriminate|].
    pose proof (process_areas_raise_kind s Hs) as Hk.
    pose proof (shrinking_process_areas s) as Hsh.
    destruct (process_areas simplify_area s) as [s1 [[]|e']]; simpl in Hk, Hsh.
    + apply IH. eapply has_cells_shrunk; eauto.
    + intros [= _ <-]. destruct Hk as [Hk|Hk]; congruence.
Qed.

Lemma simplify_raise_kind (s s' : Sudoku) (e : exn) :
  has_cells all_cells s -> simplify s = Some (s', Raise e) -> e = SudokuException.
Proof.
  intros Hs. unfold simplify.
  destruct (simplify_loop (S (complexity s)) 0 (complexity s) s)
    as [[s1 [[]|e']]|] eqn:E; try discriminate.
  intros [= _ <-]. eapply simplify_loop_raise_kind; eauto.
Qed.

(** The grid [simplify] leaves is below every grid its first pass went
    through. *)
Lemma simplify_below (s mid s' : Sudoku) (r : result bool)
  (pre post : list (string * string)) :
  complexity s <> 0 -> areas = pre ++ post ->
  for_each pre (fun rc => process_area (fst rc) (snd rc) simplify_area) s
  = (mid, Ret tt) ->
  simplify s = Some (s', r) -> shrunk s' mid.
Proof.
  intros Hc Hsplit Hpre. unfold simplify. rewrite simplify_loop_S.
  destruct (0 =? complexity s) eqn:E; [apply Nat.eqb_eq in E; congruence|].
  unfold process_areas. rewrite Hsplit, for_each_app, Hpre.
  pose proof (shrinking_for_each post
                (fun rc => process_area (fst rc) (snd rc) simplify_area)
                (fun rc => shrinking_process_area (fst rc) (snd rc)) mid) as Hsh.
  destruct (for_each post _ mid) as [s1 [[]|e]]; simpl in Hsh.
  - destruct (simplify_loop _ _ _ s1) as [[s2 [[]|e]]|] eqn:L; try discriminate;
      intros [= <- _]; eapply shrunk_trans; eauto using simplify_loop_shrunk.
  - now intros [= <- _].
Qed.

(** Once a pass of [simplify] has emptied a cell, [simplify] raises and
    leaves that cell empty. *)
Lemma empty_cell_persists (s mid : Sudoku) (pre post : list (string * string))
  (cell : string) :
  well_formed s -> complexity s <> 0 -> areas = pre ++ post ->
  for_each pre (fun rc => process_area (fst rc) (snd rc) simplify_area) s
  = (mid, Ret tt) ->
  In cell all_cells -> dict_get mid cell = Some "" ->
  exists s', simplify s = Some (s', Raise SudokuException)
             /\ dict_get s' cell = Some "".
Proof.
  intros Hwf Hc Hsplit Hpre Hcell Hmid.
  destruct (simplify s) as [[s' r]|] eqn:S; [|now apply simplify_total in S].
  pose proof (simplify_below _ _ _ _ _ _ Hc Hsplit Hpre S) as Hsh.
  assert (He : dict_get s' cell = Some "").
  { destruct (shrunk_get_Some _ _ _ _ Hsh Hmid) as (v & Hv & (_ & Hl & _)).
    simpl in Hl. destruct v; [exact Hv | simpl in Hl; lia]. }
  exists s'. split; [|exact He]. destruct r as [b|e].
  - destruct (simplify_post _ _ _ Hwf Hc S) as (_ & Hne & _).
    destruct (Hne cell Hcell) as (v & Hv & Hnz). congruence.
  - now rewrite (simplify_raise_kind _ _ _ (well_formed_has_cells _ Hwf) S).
Qed.

(** ** The trial cell when no cell has [i] candidates *)

Lemma try_levels_stale (rec : Sudoku -> option (Sudoku * result bool))
  (i : nat) (levels : list nat) (self : Sudoku) (cell options : string)
  (items : list (string * string)) :
  (forall c o, In (c, o) (iteritems self) -> String.length o <> i) ->
  iteritems self = items ++ [(cell, options)] ->
  scan i (iteritems self) (None, "") = (Some cell, options)
  /\ try_levels rec (i :: levels) self
     = match try_options rec cell (chars options) self with
       | Some (self', Ret None) => try_levels rec levels self'
       | r => r
       end.
Proof.
  intros Hno Hlast.
  assert (Hscan : scan i (iteritems self) (None, "") = (Some cell, options)).
  { rewrite scan_stale by exact Hno. now rewrite Hlast, rev_app_distr. }
  split; [exact Hscan|]. now rewrite try_levels_cons, Hscan.
Qed.

Lemma iteritems_last {V : Type} (d : dict V) (ks : list string) (k : string) (v : V) :
  keys d = ks ++ [k] -> dict_get d k = Some v ->
  exists items, iteritems d = items ++ [(k, v)].
Proof.
  intros Hk Hv. unfold iteritems. rewrite Hk, flat_map_app. simpl. rewrite Hv.
  eexists. reflexivity.
Qed.

(** A trial that sets a determined cell to its only candidate holds the
    same candidates as the grid it was copied from. *)
Lemma trial_same_content (self : Sudoku) (cell v : string) :
  dict_ok self -> dict_get self cell = Some v ->
  forall k, dict_get (dict_set (copy self) cell v) k = dict_get self k.
Proof.
  intros Hok Hv k. rewrite dict_get_set, copy_get by assumption.
  destruct (String.eqb cell k) eqn:E; [|reflexivity].
  apply String.eqb_eq in E. now subst k.
Qed.

(** ** Grids that hold the same candidates *)

Lemma same_value (a b : Sudoku) (cells : list string) :
  same a b -> map (value a) cells = map (value b) cells.
Proof. intros H. apply map_ext. intros k. unfold value. now rewrite H. Qed.

Lemma area_robust_same (a b : Sudoku) (cells : list string) :
  same a b -> area_robust a cells = area_robust b cells.
Proof. intros H. unfold area_robust. now rewrite (same_value a b cells H). Qed.

Lemma area_pass_same (a b : Sudoku) (cells : list string) :
  same a b -> same (area_pass a cells) (area_pass b cells).
Proof.
  intros H k. rewrite !area_pass_get. unfold eliminators.
  now rewrite (same_value a b cells H), H.
Qed.

Lemma robust_run_same (l : list (string * string)) (a a' b : Sudoku) :
  same a b -> robust_run l a = Some a' ->
  exists b', robust_run l b = Some b' /\ same a' b'.
Proof.
  revert a b. induction l as [|[rows cols] l IH]; intros a b H; simpl.
  - intros [= <-]. now exists b.
  - rewrite <- (area_robust_same a b _ H).
    destruct (area_robust a (area_cells rows cols)); [|discriminate].
    apply IH. now apply area_pass_same.
Qed.

Lemma same_perm (a b : Sudoku) :
  dict_ok a -> dict_ok b -> same a b -> Permutation a b.
Proof.
  intros Ha Hb H. apply NoDup_Permutation.
  - eapply NoDup_map_inv, Ha.
  - eapply NoDup_map_inv, Hb.
  - intros [k v]. split; intros Hin.
    + apply dict_get_In. rewrite <- H. now apply In_dict_get.
    + apply dict_get_In. rewrite H. now apply In_dict_get.
Qed.

Lemma same_weight (a b : Sudoku) :
  dict_ok a -> dict_ok b -> same a b -> weight a = weight b.
Proof.
  intros Ha Hb H. unfold weight. apply list_sum_perm, Permutation_map.
  now apply same_perm.
Qed.

(** A robust pass that removes nothing leaves the grid as it is. *)
Lemma robust_run_same_weight (s s' : Sudoku) :
  has_cells all_cells s -> dict_ok s ->
  robust_run areas s = Some s' -> weight s' = weight s -> s' = s.
Proof.
  intros Hs Hok R Hw. apply shrunk_same_weight; [|exact Hw].
  pose proof (robust_run_sound areas s s' (fun x H => H) Hs Hok R) as Hpass.
  pose proof (shrinking_process_areas s) as Hsh. unfold process_areas in Hsh.
  now rewrite Hpass in Hsh.
Qed.

Lemma robust_simplify_fixpoint (fuel : nat) (s s' : Sudoku) :
  has_cells all_cells s -> dict_ok s ->
  robust_simplify fuel s = Some s' -> robust_run areas s' = Some s'.
Proof.
  revert s. induction fuel as [|fuel IH]; intros s Hs Hok; [discriminate|].
  rewrite robust_simplify_S.
  destruct (robust_run areas s) as [s1|] eqn:R; [|discriminate].
  pose proof (robust_run_keys _ _ _ R) as Hkeys.
  destruct (weight s1 =? weight s) eqn:E.
  - apply Nat.eqb_eq in E. intros [= <-].
    pose proof (robust_run_same_weight s s1 Hs Hok R E) as Heq.
    rewrite Heq. rewrite Heq in R. exact R.
  - apply IH.
    + intros k Hk. rewrite Hkeys. now apply Hs.
    + unfold dict_ok. now rewrite Hkeys.
Qed.

(** A grid with the candidates of a grid on which a robust pass changes
    nothing: [simplify] leaves it as it is. *)
Lemma simplify_same_fixpoint (h t : Sudoku) :
  has_cells all_cells h -> dict_ok h -> has_cells all_cells t -> dict_ok t ->
  robust_run areas h = Some h -> weight h <> 0 -> weight h <> 81 ->
  same t h ->
  simplify t = Some (t, Ret false).
Proof.
  intros Hh Hokh Ht Hokt R H0 H81 Hsame.
  assert (Hw : weight t = weight h) by now apply same_weight.
  assert (Rt : robust_run areas t = Some t).
  { destruct (robust_run_same areas h h t (fun k => eq_sym (Hsame k)) R)
      as (t' & Rt & Hs'). rewrite Rt. f_equal.
    apply dict_ext.
    - apply (robust_run_keys _ _ _ Rt).
    - unfold dict_ok. rewrite (robust_run_keys _ _ _ Rt). exact Hokt.
    - intros k. now rewrite <- Hs', Hsame. }
  rewrite (robust_simplify_sound 1 t t Ht Hokt); [| lia |].
  - now rewrite Hw, (proj2 (Nat.eqb_neq _ _) H81).
  - rewrite robust_simplify_S, Rt. now rewrite Nat.eqb_refl.
Qed.

(** *** The recursion that makes no progress

    [h] is a grid on which propagation stalls, with no cell of two
    candidates, whose cell [cell] is determined and is the last one
    iterated; re-inserting the keys in iteration order gives the same
    iteration order again.  Then [solve] does not come back on any grid that
    holds the candidates of [h] with the keys in that order. *)
Lemma solve_loops (h : Sudoku) (cell : string) (c : ascii) (ks : list string) :
  map fst h = all_cells ->
  robust_run areas h = Some h -> weight h <> 0 -> weight h <> 81 ->
  (forall k v, dict_get h k = Some v -> String.length v <> 2) ->
  dict_get h cell = Some (char1 c) ->
  dict_order all_cells = ks ++ [cell] ->
  dict_order (dict_order all_cells) = dict_order all_cells ->
  forall fuel t,
    (map fst t = all_cells \/ map fst t = dict_order all_cells) -> same t h ->
    solve fuel t = None.
Proof.
  intros Hk R H0 H81 Hno Hcell Hlast Hidem.
  assert (Hokh : dict_ok h) by (unfold dict_ok; rewrite Hk; apply all_cells_NoDup).
  assert (Hh : has_cells all_cells h) by now apply has_cells_check.
  induction fuel as [|fuel IH]; intros t Hkt Hsame; [reflexivity|].
  assert (Hperm : Permutation (map fst t) all_cells)
    by (destruct Hkt as [->| ->]; [reflexivity | apply dict_order_perm]).
  assert (Hokt : dict_ok t).
  { unfold dict_ok. eapply Permutation_NoDup; [symmetry; exact Hperm|].
    apply all_cells_NoDup. }
  assert (Ht : has_cells all_cells t).
  { intros k Hin. eapply Permutation_in; [symmetry; exact Hperm | exact Hin]. }
  assert (Hkeys : keys t = ks ++ [cell]).
  { unfold keys. destruct Hkt as [->| ->]; [exact Hlast | now rewrite Hidem]. }
  assert (Hct : dict_get t cell = Some (char1 c)) by now rewrite Hsame.
  destruct (iteritems_last t ks cell (char1 c) Hkeys Hct) as [items Hitems].
  assert (Hnot : forall c' o, In (c', o) (iteritems t) -> String.length o <> 2).
  { intros c' o Hin%In_iteritems. rewrite Hsame in Hin. eauto. }
  rewrite solve_S, (simplify_same_fixpoint h t) by assumption.
  change (seq 2 8) with (2 :: seq 3 7).
  rewrite (proj2 (try_levels_stale (solve fuel) 2 (seq 3 7) t cell (char1 c)
                    items Hnot Hitems)).
  change (chars (char1 c)) with [c].
  rewrite try_options_diverges; [reflexivity|].
  apply IH.
  - right. rewrite dict_set_keys_present.
    + rewrite copy_items, iteritems_keys by assumption. unfold keys.
      destruct Hkt as [->| ->]; [reflexivity | exact Hidem].
    + eapply Permutation_in; [symmetry; now apply copy_keys|].
      eapply dict_get_key, Hct.
  - intros k. rewrite (trial_same_content t cell (char1 c) Hokt Hct). apply Hsame.
Qed.

(** ** [solve] only takes candidates away *)

Lemma refines_refl (s : Sudoku) : refines s s.
Proof.
  split; [tauto|]. intros k v H. exists v. split; [exact H | apply shrinks_refl].
Qed.

Lemma shrunk_refines (s' s : Sudoku) : shrunk s' s -> refines s' s.
Proof.
  intros H. split.
  - intros k. now rewrite (shrunk_keys _ _ H).
  - intros k v. now apply shrunk_get_Some.
Qed.

Lemma refines_trans (a b c : Sudoku) : refines a b -> refines b c -> refines a c.
Proof.
  intros [Hk1 Hg1] [Hk2 Hg2]. split.
  - intros k. now rewrite Hk1.
  - intros k v Hv. destruct (Hg2 k v Hv) as (v2 & Hv2 & Hs2).
    destruct (Hg1 k v2 Hv2) as (v1 & Hv1 & Hs1).
    exists v1. split; [exact Hv1 | eapply shrinks_trans; eauto].
Qed.

Lemma shrinks_char1 (c : ascii) (v : string) :
  contains c v = true -> shrinks (char1 c) v.
Proof.
  intros H. split; [|split].
  - intros c'. simpl. destruct (Ascii.eqb c c') eqn:E; [|discriminate].
    apply Ascii.eqb_eq in E. now subst c'.
  - destruct v; [discriminate | simpl; lia].
  - destruct v as [|x [|y v]]; simpl in *; try discriminate.
    destruct (Ascii.eqb x c) eqn:E; [|discriminate].
    apply Ascii.eqb_eq in E. now subst x.
Qed.

Lemma shrinks_of_char1 (c : ascii) (v : string) :
  shrinks v (char1 c) -> v = char1 c \/ v = "".
Proof.
  intros (_ & Hl & He). simpl in *.
  destruct v as [|x v]; [now right|]. left. apply He.
  destruct v; simpl in *; [reflexivity | lia].
Qed.

Lemma copy_ok (s : Sudoku) : dict_ok s -> dict_ok (copy s).
Proof. intros H. rewrite copy_items by assumption. now apply iteritems_ok. Qed.

Lemma try_options_refines (rec : Sudoku -> option (Sudoku * result bool)) :
  rec_refines rec ->
  forall options cell self self' r s0,
    dict_ok self -> refines self s0 -> In cell (map fst self) ->
    (forall c, In c options ->
       exists v0, dict_get s0 cell = Some v0 /\ contains c v0 = true) ->
    try_options rec cell options self = Some (self', r) ->
    dict_ok self' /\ refines self' s0.
Proof.
  intros Hrec. induction options as [|option options IH];
    intros cell self self' r s0 Hok Href Hcell Hopts; simpl.
  - intros [= <- <-]. auto.
  - set (trial := dict_set (copy self) cell (char1 option)).
    assert (Hokt : dict_ok trial) by now apply dict_set_ok, copy_ok.
    destruct (rec trial) as [[trial' [b|e]]|] eqn:R; [destruct b | destruct e |].
    + (* the trial succeeded: its cells are copied back *)
      intros [= <- <-].
      destruct (Hrec _ _ _ Hokt R) as [Hok' [Hk' Hg']].
      assert (Hin : forall k, In k (map fst trial') -> In k (map fst self)).
      { intros k Hk. apply Hk' in Hk. unfold trial in Hk.
        apply dict_set_keys in Hk. destruct Hk as [->|Hk]; [exact Hcell|].
        eapply Permutation_in; [now apply copy_keys | exact Hk]. }
      pose proof (copy_back_keys trial' self Hin) as Hkeys.
      split; [unfold dict_ok; now rewrite Hkeys|]. split.
      * intros k. rewrite Hkeys. apply Href.
      * intros k v0 Hv0. destruct (proj2 Href k v0 Hv0) as (v & Hv & Hsh).
        rewrite copy_back_get by assumption.
        assert (Ht : exists w, dict_get trial k = Some w /\ shrinks w v0).
        { unfold trial. rewrite dict_get_set. destruct (String.eqb cell k) eqn:E.
          - apply String.eqb_eq in E. subst k.
            destruct (Hopts option (or_introl eq_refl)) as (v0' & Hv0' & Hc).
            exists (char1 option). split; [reflexivity|].
            apply shrinks_char1. congruence.
          - exists v. split; [|exact Hsh]. now rewrite copy_get. }
        destruct Ht as (w & Hw & Hws).
        destruct (Hg' k w Hw) as (v' & Hv' & Hsh'). rewrite Hv'.
        exists v'. split; [reflexivity | eapply shrinks_trans; eauto].
    + (* the trial stalled *)
      apply IH; auto with datatypes.
    + intros [= <- <-]. auto.
    + intros [= <- <-]. auto.
    + intros [= <- <-]. auto.
    + (* the trial raised: remove the option and simplify *)
      destruct (dict_get self cell) as [v|] eqn:Ev; [|intros [= <- <-]; auto].
      set (self2 := dict_set self cell (replace option v)).
      assert (Hsh : shrunk self2 self)
        by (eapply shrunk_set; [exact Ev | apply shrinks_replace]).
      destruct (simplify self2) as [[self3 r3]|] eqn:S; [|discriminate].
      pose proof (shrunk_trans _ _ _ (simplify_shrunk _ _ _ S) Hsh) as Hsh3.
      assert (Hok3 : dict_ok self3) by (eapply shrunk_ok; eauto).
      assert (Href3 : refines self3 s0)
        by (eapply refines_trans; [apply shrunk_refines|]; eauto).
      destruct r3 as [[|]|e].
      * intros [= <- <-]. auto.
      * apply IH; auto with datatypes. now rewrite (shrunk_keys _ _ Hsh3).
      * intros [= <- <-]. auto.
    + discriminate.
Qed.

Lemma try_levels_refines (rec : Sudoku -> option (Sudoku * result bool)) :
  rec_refines rec ->
  forall levels self self' r s0,
    dict_ok self -> refines self s0 ->
    try_levels rec levels self = Some (self', r) ->
    dict_ok self' /\ refines self' s0.
Proof.
  intros Hrec. induction levels as [|i levels IH];
    intros self self' r s0 Hok Href; simpl.
  - intros [= <- <-]. auto.
  - destruct (scan i (iteritems self) (None, "")) as [[cell|] options] eqn:Sc;
      [|now apply IH].
    apply scan_In in Sc. destruct Sc as [Sc|Sc]; [discriminate|].
    apply In_iteritems in Sc.
    assert (Hcell : In cell (map fst self)) by (eapply dict_get_key; eauto).
    assert (Hopts : forall c, In c (chars options) ->
              exists v0, dict_get s0 cell = Some v0 /\ contains c v0 = true).
    { intros c Hc. apply contains_In in Hc.
      destruct (dict_get_present s0 cell (proj1 (proj1 Href cell) Hcell)) as [v0 Hv0].
      destruct (proj2 Href cell v0 Hv0) as (v' & Hv' & Hs & _).
      exists v0. split; [exact Hv0|]. apply Hs. congruence. }
    destruct (try_options rec cell (chars options) self) as [[self1 r1]|] eqn:T;
      [|discriminate].
    destruct (try_options_refines rec Hrec _ _ _ _ _ s0 Hok Href Hcell Hopts T)
      as [Hok1 Href1].
    destruct r1 as [[b|]|e]; try (intros [= <- <-]; auto).
    now apply IH.
Qed.

Lemma solve_rec_refines (fuel : nat) : rec_refines (solve fuel).
Proof.
  induction fuel as [|fuel IH]; intros t t' r Hok; [discriminate|].
  rewrite solve_S.
  destruct (simplify t) as [[s1 r1]|] eqn:S; [|discriminate].
  pose proof (simplify_shrunk _ _ _ S) as Hsh.
  assert (Hok1 : dict_ok s1) by (eapply shrunk_ok; eauto).
  pose proof (shrunk_refines _ _ Hsh) as Href1.
  destruct r1 as [[|]|e]; try (intros [= <- <-]; auto).
  destruct (try_levels (solve fuel) (seq 2 8) s1) as [[s2 r2]|] eqn:T; [|discriminate].
  destruct (try_levels_refines _ IH _ _ _ _ t Hok1 Href1 T) as [Hok2 Href2].
  destruct r2 as [[b|]|e]; intros [= <- <-]; auto.
Qed.

(** The grid [solve] leaves, whether it returns or raises, holds for
    every cell candidates taken from those the cell had at the call; a cell
    that had one candidate has that candidate or none. *)
Theorem solve_refines (fuel : nat) (self self' : Sudoku) (r : result bool) :
  dict_ok self ->
  solve fuel self = Some (self', r) ->
  refines self' self
  /\ forall cell c, dict_get self cell = Some (char1 c) ->
       dict_get self' cell = Some (char1 c) \/ dict_get self' cell = Some "".
Proof.
  intros Hok H. destruct (solve_rec_refines fuel _ _ _ Hok H) as [_ Href].
  split; [exact Href|]. intros cell c Hc.
  destruct (proj2 Href cell _ Hc) as (v' & Hv' & Hs).
  destruct (shrinks_of_char1 _ _ Hs) as [->| ->]; auto.
Qed.

(** The [while] loop of [simplify] always ends, with a result or an
    exception, and the grid it leaves has the keys of the grid at the call,
    in the same places, with candidate strings that only lost characters. *)
Theorem simplify_terminates (self : Sudoku) :
  exists self' r, simplify self = Some (self', r) /\ shrunk self' self.
Proof.
  destruct (simplify self) as [[self' r]|] eqn:E.
  - exists self', r. split; [reflexivity | eapply simplify_shrunk; eauto].
  - now apply simplify_total in E.
Qed.

(** On a grid that has the 81 cells, [simplify] raises nothing but
    [SudokuException]: no lookup fails. *)
Theorem simplify_raises_unsolvable (self self' : Sudoku) (e : exn) :
  has_cells all_cells self ->
  simplify self = Some (self', Raise e) ->
  e = SudokuException.
Proof. apply simplify_raise_kind. Qed.

(** [copy] gives a grid with the same keys that holds the same candidate
    string for every cell. *)
Theorem copy_holds_same (self : Sudoku) :
  dict_ok self ->
  Permutation (map fst (copy self)) (map fst self) /\ same (copy self) self.
Proof.
  intros H. split; [now apply copy_keys|]. intros k. now apply copy_get.
Qed.

(** ** Propagation keeps every solution *)

Lemma NoDup_map_inj {A B : Type} (f : A -> B) (l : list A) (x y : A) :
  NoDup (map f l) -> In x l -> In y l -> f x = f y -> x = y.
Proof.
  induction l as [|a l IH]; simpl; [tauto|].
  intros H. inversion H as [|? ? Ha Hl]; subst.
  intros [->|Hx] [->|Hy] E; auto.
  - exfalso. apply Ha. rewrite E. now apply in_map.
  - exfalso. apply Ha. rewrite <- E. now apply in_map.
Qed.

Lemma chars_length (v : string) : List.length (chars v) = String.length v.
Proof. unfold chars. induction v; simpl; auto. Qed.

Lemma holds_true (s : Sudoku) (cell v : string) :
  holds s cell v = true -> dict_get s cell = Some v.
Proof.
  unfold holds. destruct (dict_get s cell) as [w|]; [|discriminate].
  now intros ->%String.eqb_eq.
Qed.

Section Solution.

Variables (sol s0 : Sudoku) (cells : list string).
Hypothesis cells_NoDup : NoDup cells.
Hypothesis cells_incl : incl cells all_cells.
Hypothesis cells_there : has_cells cells s0.
Hypothesis sol_distinct : NoDup (map (digit_at sol) cells).
Hypothesis sol_fits : fits sol s0.

(** The cells of the area that hold [v] have their digits in [v]. *)
Lemma holders_digits (v : string) :
  incl (map (digit_at sol) (filter (fun cell => holds s0 cell v) cells)) (chars v).
Proof.
  intros d Hd. apply in_map_iff in Hd. destruct Hd as (cell & <- & Hc).
  apply filter_In in Hc. destruct Hc as [Hc Hv].
  apply contains_In. pose proof (sol_fits cell (cells_incl cell Hc)) as Hf.
  now rewrite (value_get _ _ _ (holds_true _ _ _ Hv)) in Hf.
Qed.

(** No candidate string is held by more cells than it has characters. *)
Lemma naked_bound (v : string) : freq s0 cells v <= String.length v.
Proof.
  unfold freq. rewrite <- chars_length.
  rewrite <- (length_map (digit_at sol)).
  apply NoDup_incl_length; [now apply NoDup_map_filter | apply holders_digits].
Qed.

(** When [v] is held by as many cells as it has characters, each of its
    characters is the digit of one of them. *)
Lemma naked_cover (v : string) (c : ascii) :
  freq s0 cells v = String.length v -> contains c v = true ->
  exists cell, In cell cells /\ dict_get s0 cell = Some v /\ digit_at sol cell = c.
Proof.
  intros Hn Hc. apply contains_In in Hc.
  assert (Hi : incl (chars v)
                 (map (digit_at sol) (filter (fun cell => holds s0 cell v) cells))).
  { apply NoDup_length_incl.
    - now apply NoDup_map_filter.
    - rewrite length_map, chars_length, <- Hn. unfold freq. lia.
    - apply holders_digits. }
  apply Hi, in_map_iff in Hc. destruct Hc as (cell & E & Hcell).
  apply filter_In in Hcell. destruct Hcell as [Hcell Hv].
  exists cell. auto using holds_true.
Qed.

(** ... and no other cell of the area has one of them as its digit. *)
Lemma naked_other (v : string) (cell : string) :
  freq s0 cells v = String.length v -> In cell cells -> value s0 cell <> v ->
  contains (digit_at sol cell) v = false.
Proof.
  intros Hn Hcell Hv. destruct (contains (digit_at sol cell) v) eqn:E; [|reflexivity].
  destruct (naked_cover v _ Hn E) as (cell' & Hc' & Hv' & Hd).
  assert (cell' = cell) by (eapply NoDup_map_inj; eauto). subst cell'.
  now rewrite (value_get _ _ _ Hv') in Hv.
Qed.

(** Two candidate strings that are both held by as many cells as they have
    characters share no character. *)
Lemma naked_disjoint (v w : string) :
  freq s0 cells v = String.length v -> freq s0 cells w = String.length w ->
  v <> w -> without v w = w.
Proof.
  intros Hv Hw Hne. apply without_disjoint. unfold disjoint_chars.
  apply forallb_forall. intros c Hc%contains_In.
  destruct (contains c w) eqn:E; [|reflexivity]. exfalso.
  destruct (naked_cover v c Hv Hc) as (c1 & H1 & V1 & D1).
  destruct (naked_cover w c Hw E) as (c2 & H2 & V2 & D2).
  assert (c1 = c2) by (eapply NoDup_map_inj; eauto; congruence). subst c2.
  congruence.
Qed.

Lemma pass_inv_start : pass_inv sol s0 cells s0.
Proof. split; [reflexivity|]. split; [exact sol_fits | reflexivity]. Qed.

Lemma simplify_option_keeps (v : string) (n : nat) (s : Sudoku) :
  n = freq s0 cells v -> pass_inv sol s0 cells s ->
  exists s', simplify_option (area_of s0 cells) (v, n) s = (s', Ret tt)
             /\ pass_inv sol s0 cells s'.
Proof.
  intros Hn (Hk & Hf & Hv). cbn [simplify_option].
  destruct (String.length v =? n) eqn:E1; [|destruct (String.length v <? n) eqn:E2].
  - apply Nat.eqb_eq in E1. rewrite Hn in E1. symmetry in E1.
    unfold keys. rewrite area_of_keys.
    assert (Hin : forall k, In k (dict_order cells) <-> In k cells).
    { intros k. split; apply Permutation_in;
        [apply dict_order_perm | apply Permutation_sym, dict_order_perm]. }
    assert (Hnd : NoDup (dict_order cells)).
    { eapply Permutation_NoDup; [symmetry; apply dict_order_perm | exact cells_NoDup]. }
    assert (Hs : has_cells (dict_order cells) s).
    { intros k Hk'. rewrite Hk. apply cells_there. now apply Hin. }
    destruct (for_each_eliminate v _ s Hnd Hs) as (s' & R & G).
    exists s'. split; [exact R|].
    pose proof (shrinking_for_each (dict_order cells) (eliminate v)
                  (shrinking_eliminate v) s) as Hsh.
    rewrite R in Hsh. simpl in Hsh.
    assert (Hval : forall k, value s' k
                             = if in_dec string_dec k cells
                               then elim_value v (value s k) else value s k).
    { intros k. unfold value at 1. rewrite G.
      rewrite (in_dec_iff (dict_order cells) cells k _ _ (Hin k)).
      destruct (in_dec string_dec k cells) as [Hc|Hc]; [|reflexivity].
      destruct (dict_get_present s k) as [w Hw].
      { rewrite Hk. now apply cells_there. }
      unfold value. now rewrite Hw. }
    split; [now rewrite (shrunk_keys _ _ Hsh)|]. split.
    + intros cell Hcell. rewrite Hval.
      destruct (in_dec string_dec cell cells) as [Hc|Hc]; [|now apply Hf].
      unfold elim_value. destruct (String.eqb (value s cell) v) eqn:Ev; [now apply Hf|].
      rewrite contains_without, (Hf cell Hcell). simpl.
      rewrite naked_other; auto.
      intros Hv0. apply String.eqb_neq in Ev. apply Ev.
      rewrite (Hv cell Hc); [exact Hv0 | now rewrite Hv0].
    + intros cell Hc Hnaked. rewrite Hval.
      destruct (in_dec string_dec cell cells); [|contradiction].
      rewrite (Hv cell Hc Hnaked). unfold elim_value.
      destruct (String.eqb (value s0 cell) v) eqn:Ev; [reflexivity|].
      apply String.eqb_neq in Ev. apply naked_disjoint; auto.
  - apply Nat.ltb_lt in E2. pose proof (naked_bound v). lia.
  - exists s. split; [reflexivity|]. split; [exact Hk|]. split; assumption.
Qed.

Lemma simplify_area_keeps :
  exists s', simplify_area (area_of s0 cells) s0 = (s', Ret tt)
             /\ map fst s' = map fst s0 /\ fits sol s'.
Proof.
  unfold simplify_area.
  assert (H : forall items s,
             (forall v n, In (v, n) items -> n = freq s0 cells v) ->
             pass_inv sol s0 cells s ->
             exists s', for_each items (simplify_option (area_of s0 cells)) s
                        = (s', Ret tt) /\ pass_inv sol s0 cells s').
  { induction items as [|[v n] items IH]; intros s Hit Hs; cbn [for_each].
    - exists s. auto.
    - destruct (simplify_option_keeps v n s (Hit v n (or_introl eq_refl)) Hs)
        as (s1 & R1 & H1).
      destruct (IH s1 (fun v' n' Hin => Hit v' n' (or_intror Hin)) H1)
        as (s' & R' & H').
      exists s'. unfold bind. rewrite R1. auto. }
  destruct (H (iteritems (count_options (area_of s0 cells))) s0) as (s' & R & I1 & I2 & _).
  - intros v n Hin. apply options_item in Hin; [|now apply area_of_ok].
    destruct Hin as [-> _]. rewrite area_of_values. symmetry. now apply freq_count.
  - apply pass_inv_start.
  - exists s'. auto.
Qed.

End Solution.

Lemma solved_grid_distinct (sol : Sudoku) (rows cols : string) :
  solved_grid sol -> In (rows, cols) areas ->
  NoDup (map (digit_at sol) (area_cells rows cols)).
Proof.
  intros [Hdet Honce] Hin. destruct (area_facts rows cols Hin) as (Hnd & Hincl & _).
  assert (Hinj : forall x y, In x (area_cells rows cols) -> In y (area_cells rows cols) ->
                   digit_at sol x = digit_at sol y -> x = y).
  { intros x y Hx Hy E.
    destruct (Hdet x (Hincl x Hx)) as (dx & Hdx & Vx).
    destruct (Hdet y (Hincl y Hy)) as (dy & Hdy & Vy).
    unfold digit_at in E. rewrite Vx, Vy in E. simpl in E. subst dy.
    destruct (string_dec x y) as [|Hne]; [assumption|exfalso].
    pose proof (freq_two sol _ x y (char1 dx) Hx Hy Hne Vx Vy) as H2.
    rewrite (Honce rows cols dx Hin Hdx) in H2. lia. }
  revert Hinj. generalize (area_cells rows cols) Hnd. clear.
  induction 1 as [|a l Ha Hl IH]; intros Hinj; simpl; constructor.
  - intros Hm. apply in_map_iff in Hm. destruct Hm as (x & E & Hx).
    assert (x = a) by (apply Hinj; simpl; auto). now subst.
  - apply IH. intros x y Hx Hy. apply Hinj; simpl; auto.
Qed.

(** A pass over one area, and over the 27 of them, keeps the solution and
    raises nothing. *)
Lemma process_area_keeps (sol s : Sudoku) (rows cols : string) :
  solved_grid sol -> In (rows, cols) areas ->
  has_cells all_cells s -> fits sol s ->
  exists s', process_area rows cols simplify_area s = (s', Ret tt)
             /\ has_cells all_cells s' /\ fits sol s'.
Proof.
  intros Hsol Hin Hs Hf. destruct (area_facts rows cols Hin) as (Hnd & Hincl & _).
  assert (Hc : has_cells (area_cells rows cols) s)
    by (intros k Hk; apply Hs, Hincl, Hk).
  rewrite process_area_run by assumption.
  destruct (simplify_area_keeps sol s (area_cells rows cols) Hnd Hincl Hc
              (solved_grid_distinct sol rows cols Hsol Hin) Hf) as (s' & R & Hk & Hf').
  exists s'. split; [exact R|]. split; [|exact Hf'].
  intros k Hk'. rewrite Hk. now apply Hs.
Qed.

Lemma process_areas_keeps (sol s : Sudoku) :
  solved_grid sol -> has_cells all_cells s -> fits sol s ->
  exists s', process_areas simplify_area s = (s', Ret tt)
             /\ has_cells all_cells s' /\ fits sol s'.
Proof.
  intros Hsol. unfold process_areas.
  assert (H : forall l, incl l areas -> forall s,
             has_cells all_cells s -> fits sol s ->
             exists s', for_each l (fun rc => process_area (fst rc) (snd rc) simplify_area) s
                        = (s', Ret tt) /\ has_cells all_cells s' /\ fits sol s').
  { induction l as [|[rows cols] l IH]; intros Hl s1 Hs Hf; cbn [for_each].
    - exists s1. auto.
    - destruct (process_area_keeps sol s1 rows cols Hsol (Hl _ (or_introl eq_refl)) Hs Hf)
        as (s2 & R2 & Hs2 & Hf2).
      destruct (IH (fun x Hx => Hl x (or_intror Hx)) s2 Hs2 Hf2) as (s' & R' & H').
      exists s'. unfold bind. cbn [fst snd]. rewrite R2. auto. }
  apply H. apply incl_refl.
Qed.

Lemma simplify_loop_keeps (sol : Sudoku) (fuel before after : nat)
  (s s' : Sudoku) (r : result unit) :
  solved_grid sol -> has_cells all_cells s -> fits sol s ->
  simplify_loop fuel before after s = Some (s', r) ->
  r = Ret tt /\ fits sol s'.
Proof.
  intros Hsol. revert before after s.
  induction fuel as [|fuel IH]; intros before after s Hs Hf; simpl.
  - destruct (before =? after); [|discriminate]. now intros [= <- <-].
  - destruct (before =? after); [now intros [= <- <-]|].
    destruct (process_areas_keeps sol s Hsol Hs Hf) as (s1 & R & Hs1 & Hf1).
    rewrite R. now apply IH.
Qed.

Lemma simplify_keeps (sol s : Sudoku) :
  solved_grid sol -> has_cells all_cells s -> fits sol s ->
  exists s' b, simplify s = Some (s', Ret b) /\ fits sol s'.
Proof.
  intros Hsol Hs Hf. pose proof (simplify_total s) as Ht. unfold simplify in *.
  destruct (simplify_loop (S (complexity s)) 0 (complexity s) s) as [[s' r]|] eqn:E.
  - destruct (simplify_loop_keeps sol _ _ _ _ _ _ Hsol Hs Hf E) as [-> Hf'].
    exists s', (solved s'). auto.
  - contradiction.
Qed.

(** On a grid that has the 81 cells, a solved grid that takes the digit of
    every cell from the cell's candidates is still one after [simplify],
    and [simplify] returns: it raises only when there is no such solution. *)
Theorem simplify_keeps_solutions (self sol : Sudoku) :
  has_cells all_cells self -> solved_grid sol -> fits sol self ->
  exists self' b, simplify self = Some (self', Ret b) /\ fits sol self'.
Proof. intros Hs Hsol Hf. now apply simplify_keeps. Qed.

(** ** What [solve] raises *)

Lemma refines_has_cells (cells : list string) (s' s : Sudoku) :
  refines s' s -> has_cells cells s -> has_cells cells s'.
Proof. intros [Hk _] Hs k Hin. apply Hk. now apply Hs. Qed.

Lemma trial_ok (self : Sudoku) (cell v : string) :
  dict_ok self -> has_cells all_cells self ->
  dict_ok (dict_set (copy self) cell v)
  /\ has_cells all_cells (dict_set (copy self) cell v).
Proof.
  intros Hok Hs. split; [now apply dict_set_ok, copy_ok|].
  intros k Hk. apply dict_set_keys. right.
  eapply Permutation_in; [symmetry; now apply copy_keys | now apply Hs].
Qed.

Lemma scan_options_in (i : nat) (self : Sudoku) (cell options : string) :
  scan i (iteritems self) (None, "") = (Some cell, options) ->
  dict_get self cell = Some options
  /\ In cell (map fst self)
  /\ forall c, In c (chars options) ->
       exists v0, dict_get self cell = Some v0 /\ contains c v0 = true.
Proof.
  intros Sc. apply scan_In in Sc. destruct Sc as [Sc|Sc]; [discriminate|].
  apply In_iteritems in Sc. split; [exact Sc|]. split; [eapply dict_get_key; eauto|].
  intros c Hc. exists options. split; [exact Sc | now apply contains_In].
Qed.

Lemma try_options_raise_kind (fuel : nat) :
  (forall t t' e, dict_ok t -> has_cells all_cells t ->
     solve fuel t = Some (t', Raise e) -> e = SudokuException) ->
  forall options cell self self' e,
    dict_ok self -> has_cells all_cells self -> In cell (map fst self) ->
    try_options (solve fuel) cell options self = Some (self', Raise e) ->
    e = SudokuException.
Proof.
  intros Hrec. induction options as [|option options IH];
    intros cell self self' e Hok Hs Hcell; simpl; [discriminate|].
  destruct (trial_ok self cell (char1 option) Hok Hs) as [Hokt Hst].
  destruct (solve fuel (dict_set (copy self) cell (char1 option)))
    as [[trial' [b|e0]]|] eqn:R; [destruct b | | discriminate].
  - discriminate.
  - now apply IH.
  - pose proof (Hrec _ _ _ Hokt Hst R) as ->.
    destruct (dict_get_present self cell Hcell) as [v Hv]. rewrite Hv.
    set (self2 := dict_set self cell (replace option v)).
    assert (Hsh : shrunk self2 self)
      by (eapply shrunk_set; [exact Hv | apply shrinks_replace]).
    destruct (simplify self2) as [[self3 [[|]|e3]]|] eqn:S; try discriminate.
    + pose proof (shrunk_trans _ _ _ (simplify_shrunk _ _ _ S) Hsh) as Hsh3.
      apply IH; eauto using shrunk_ok, has_cells_shrunk.
      now rewrite (shrunk_keys _ _ Hsh3).
    + intros [= _ <-]. eapply simplify_raise_kind; [|exact S].
      eauto using has_cells_shrunk.
Qed.

Lemma try_levels_raise_kind (fuel : nat) :
  (forall t t' e, dict_ok t -> has_cells all_cells t ->
     solve fuel t = Some (t', Raise e) -> e = SudokuException) ->
  forall levels self self' e,
    dict_ok self -> has_cells all_cells self ->
    try_levels (solve fuel) levels self = Some (self', Raise e) ->
    e = SudokuException.
Proof.
  intros Hrec. induction levels as [|i levels IH];
    intros self self' e Hok Hs; simpl; [discriminate|].
  destruct (scan i (iteritems self) (None, "")) as [[cell|] options] eqn:Sc;
    [|now apply IH].
  destruct (scan_options_in _ _ _ _ Sc) as (_ & Hcell & Hopts).
  destruct (try_options (solve fuel) cell (chars options) self)
    as [[self1 r1]|] eqn:T; [|discriminate].
  destruct (try_options_refines _ (solve_rec_refines fuel) _ _ _ _ _ self
              Hok (refines_refl self) Hcell Hopts T) as [Hok1 Href1].
  destruct r1 as [[b|]|e1].
  - discriminate.
  - apply IH; eauto using refines_has_cells.
  - intros [= _ <-].
    exact (try_options_raise_kind fuel Hrec _ _ _ _ _ Hok Hs Hcell T).
Qed.

Lemma solve_raise_kind (fuel : nat) (t t' : Sudoku) (e : exn) :
  dict_ok t -> has_cells all_cells t ->
  solve fuel t = Some (t', Raise e) -> e = SudokuException.
Proof.
  revert t t' e. induction fuel as [|fuel IH]; intros t t' e Hok Hs; [discriminate|].
  rewrite solve_S.
  destruct (simplify t) as [[s1 [[|]|e1]]|] eqn:S; try discriminate.
  - pose proof (simplify_shrunk _ _ _ S) as Hsh.
    destruct (try_levels (solve fuel) (seq 2 8) s1) as [[s2 [[b|]|e2]]|] eqn:T;
      try discriminate.
    intros [= _ <-].
    exact (try_levels_raise_kind fuel IH _ _ _ _ (shrunk_ok _ _ Hsh Hok)
             (has_cells_shrunk _ _ _ Hsh Hs) T).
  - intros [= _ <-]. eapply simplify_raise_kind; eauto.
Qed.

(** On a grid that has the 81 cells, [solve] raises nothing but
    [SudokuException]: no lookup fails, in the grid or in a trial. *)
Theorem solve_raises_unsolvable (fuel : nat) (self self' : Sudoku) (e : exn) :
  dict_ok self -> has_cells all_cells self ->
  solve fuel self = Some (self', Raise e) ->
  e = SudokuException.
Proof. apply solve_raise_kind. Qed.

(** ** The search keeps every solution *)

Lemma fits_ext (sol a b : Sudoku) :
  (forall k, In k all_cells -> value a k = value b k) -> fits sol b -> fits sol a.
Proof. intros H Hb cell Hc. rewrite H by assumption. now apply Hb. Qed.

Lemma value_set (s : Sudoku) (k v k' : string) :
  value (dict_set s k v) k' = if String.eqb k k' then v else value s k'.
Proof. unfold value. rewrite dict_get_set. now destruct (String.eqb k k'). Qed.

Lemma value_copy (s : Sudoku) (k : string) :
  dict_ok s -> value (copy s) k = value s k.
Proof. intros H. unfold value. now rewrite copy_get. Qed.

(** A trial that [solve] gives up with an exception did not hold the
    solution, so the solution is still there when the option is removed. *)
Lemma fits_removed (sol self : Sudoku) (cell v : string) (option : ascii) :
  dict_ok self -> dict_get self cell = Some v -> fits sol self ->
  ~ fits sol (dict_set (copy self) cell (char1 option)) ->
  fits sol (dict_set self cell (replace option v)).
Proof.
  intros Hok Hv Hf Hno k Hk. rewrite value_set.
  destruct (String.eqb cell k) eqn:E; [|now apply Hf].
  apply String.eqb_eq in E. subst k.
  pose proof (Hf cell Hk) as Hc. rewrite (value_get _ _ _ Hv) in Hc.
  rewrite contains_replace, Hc. simpl.
  destruct (Ascii.eqb option (digit_at sol cell)) eqn:Eo; [exfalso|reflexivity].
  apply Ascii.eqb_eq in Eo. apply Hno. intros k Hk'. rewrite value_set.
  destruct (String.eqb cell k) eqn:E.
  - apply String.eqb_eq in E. subst k. simpl. now rewrite Eo, Ascii.eqb_refl.
  - rewrite value_copy by assumption. now apply Hf.
Qed.

Lemma try_options_keeps (fuel : nat) (sol : Sudoku) :
  solved_grid sol ->
  (forall t t' r, dict_ok t -> has_cells all_cells t -> fits sol t ->
     solve fuel t = Some (t', r) -> exists b, r = Ret b) ->
  forall options cell self self' r,
    dict_ok self -> has_cells all_cells self -> In cell (map fst self) ->
    fits sol self ->
    try_options (solve fuel) cell options self = Some (self', r) ->
    r = Ret (Some true) \/ (r = Ret None /\ fits sol self').
Proof.
  intros Hsol Hrec. induction options as [|option options IH];
    intros cell self self' r Hok Hs Hcell Hf; simpl.
  - intros [= <- <-]. auto.
  - destruct (trial_ok self cell (char1 option) Hok Hs) as [Hokt Hst].
    destruct (solve fuel (dict_set (copy self) cell (char1 option)))
      as [[trial' [b|e0]]|] eqn:R; [destruct b | | discriminate].
    + intros [= <- <-]. now left.
    + now apply IH.
    + pose proof (solve_raise_kind _ _ _ _ Hokt Hst R) as ->.
      destruct (dict_get_present self cell Hcell) as [v Hv]. rewrite Hv.
      set (self2 := dict_set self cell (replace option v)).
      assert (Hsh : shrunk self2 self)
        by (eapply shrunk_set; [exact Hv | apply shrinks_replace]).
      assert (Hf2 : fits sol self2).
      { apply fits_removed; auto. intros Hft.
        destruct (Hrec _ _ _ Hokt Hst Hft R) as [b Hb]. discriminate. }
      destruct (simplify_keeps sol self2 Hsol (has_cells_shrunk _ _ _ Hsh Hs) Hf2)
        as (self3 & b & S & Hf3).
      rewrite S.
      pose proof (shrunk_trans _ _ _ (simplify_shrunk _ _ _ S) Hsh) as Hsh3.
      destruct b.
      * intros [= <- <-]. now left.
      * apply IH; eauto using shrunk_ok, has_cells_shrunk.
        now rewrite (shrunk_keys _ _ Hsh3).
Qed.

Lemma try_levels_keeps (fuel : nat) (sol : Sudoku) :
  solved_grid sol ->
  (forall t t' r, dict_ok t -> has_cells all_cells t -> fits sol t ->
     solve fuel t = Some (t', r) -> exists b, r = Ret b) ->
  forall levels self self' r,
    dict_ok self -> has_cells all_cells self -> fits sol self ->
    try_levels (solve fuel) levels self = Some (self', r) ->
    r = Ret (Some true) \/ (r = Ret None /\ fits sol self').
Proof.
  intros Hsol Hrec. induction levels as [|i levels IH];
    intros self self' r Hok Hs Hf; simpl.
  - intros [= <- <-]. auto.
  - destruct (scan i (iteritems self) (None, "")) as [[cell|] options] eqn:Sc;
      [|now apply IH].
    destruct (scan_options_in _ _ _ _ Sc) as (_ & Hcell & Hopts).
    destruct (try_options (solve fuel) cell (chars options) self)
      as [[self1 r1]|] eqn:T; [|discriminate].
    destruct (try_options_refines _ (solve_rec_refines fuel) _ _ _ _ _ self
                Hok (refines_refl self) Hcell Hopts T) as [Hok1 Href1].
    destruct (try_options_keeps fuel sol Hsol Hrec _ _ _ _ _ Hok Hs Hcell Hf T)
      as [->|[-> Hf1]].
    + intros [= <- <-]. now left.
    + apply IH; eauto using refines_has_cells.
Qed.

Lemma solve_keeps (sol : Sudoku) (fuel : nat) (t t' : Sudoku) (r : result bool) :
  solved_grid sol -> dict_ok t -> has_cells all_cells t -> fits sol t ->
  solve fuel t = Some (t', r) ->
  exists b, r = Ret b /\ (b = false -> fits sol t').
Proof.
  intros Hsol. revert t t' r.
  induction fuel as [|fuel IH]; intros t t' r Hok Hs Hf; [discriminate|].
  rewrite solve_S.
  destruct (simplify_keeps sol t Hsol Hs Hf) as (s1 & b1 & S & Hf1). rewrite S.
  pose proof (simplify_shrunk _ _ _ S) as Hsh.
  destruct b1.
  - intros [= <- <-]. exists (solved s1). auto.
  - destruct (try_levels (solve fuel) (seq 2 8) s1) as [[s2 r2]|] eqn:T; [|discriminate].
    assert (Hrec : forall u u' q, dict_ok u -> has_cells all_cells u -> fits sol u ->
                     solve fuel u = Some (u', q) -> exists b, q = Ret b).
    { intros u u' q H1 H2 H3 H4. destruct (IH u u' q H1 H2 H3 H4) as (b & -> & _).
      now exists b. }
    destruct (try_levels_keeps fuel sol Hsol Hrec _ _ _ _ (shrunk_ok _ _ Hsh Hok)
                (has_cells_shrunk _ _ _ Hsh Hs) Hf1 T) as [->|[-> Hf2]].
    + intros [= <- <-]. exists true. split; [reflexivity | discriminate].
    + intros [= <- <-]. exists (solved s2). auto.
Qed.

(** A grid that has a solution (a solved grid that takes the digit of every
    cell from the cell's candidates) is never given up with an exception:
    [solve], when it comes back, returns, and when it returns [False] the
    solution is still among the candidates of the grid it leaves.  So
    [SudokuException] out of [solve] means that the puzzle has no
    solution. *)
Theorem solve_keeps_solutions (fuel : nat) (self self' sol : Sudoku)
  (r : result bool) :
  dict_ok self -> has_cells all_cells self ->
  solved_grid sol -> fits sol self ->
  solve fuel self = Some (self', r) ->
  exists b, r = Ret b /\ (b = false -> fits sol self').
Proof. intros Hok Hs Hsol Hf. now apply solve_keeps. Qed.

(** ** [display] *)

Lemma append_assoc (a b c : string) : ((a ++ b) ++ c = a ++ (b ++ c))%string.
Proof. induction a; simpl; [reflexivity | now f_equal]. Qed.

Lemma append_nil_r (a : string) : (a ++ "")%string = a.
Proof. induction a; simpl; [reflexivity | now f_equal]. Qed.

Lemma chars_append (a b : string) : chars (a ++ b) = chars a ++ chars b.
Proof. unfold chars. induction a; simpl; [reflexivity | now f_equal]. Qed.

Lemma times_length (c : ascii) (n : nat) : String.length (times c n) = n.
Proof. unfold times. induction n; simpl; auto. Qed.

Lemma contains_times (c d : ascii) (n : nat) :
  contains c (times d n) = true -> c = d.
Proof.
  unfold times. induction n; simpl; [discriminate|].
  destruct (Ascii.eqb d c) eqn:E; [now apply Ascii.eqb_eq in E | exact IHn].
Qed.

Lemma format_s_length (maxlen : nat) (val : string) :
  String.length val <= maxlen -> String.length (format_s maxlen val) = maxlen.
Proof. intros H. unfold format_s. rewrite length_append, times_length. lia. Qed.

Lemma shown_length_eq (val : string) : shown_length val = String.length (shown val).
Proof. unfold shown_length, shown. now destruct (String.eqb val "123456789"). Qed.

Lemma plain_shown (val : string) : plain val -> plain (shown val).
Proof.
  unfold shown. destruct (String.eqb val "123456789"); [|auto].
  intros _ c. cbn [contains]. destruct (Ascii.eqb "*" c) eqn:E; [|discriminate].
  apply Ascii.eqb_eq in E. now subst c.
Qed.

Lemma soft_spec (s : string) :
  (forall c, contains c s = true -> isspace c = false \/ c = " "%char) ->
  soft s = true.
Proof.
  unfold soft. induction s as [|x s IH]; intros H; [reflexivity|].
  cbn [last_char]. destruct s as [|y s].
  - destruct (H x) as [E| ->]; [simpl; now rewrite Ascii.eqb_refl | | reflexivity].
    now rewrite E.
  - apply IH. intros c Hc. apply H. simpl in *. now destruct (Ascii.eqb x c).
Qed.

Lemma soft_field (maxlen : nat) (val : string) :
  plain val -> soft (format_s maxlen (shown val)) = true.
Proof.
  intros Hp. apply soft_spec. intros c. unfold format_s.
  rewrite contains_append. intros [H|H]%orb_prop.
  - right. now apply contains_times in H.
  - left. now apply (plain_shown val Hp).
Qed.

(** Items that all leave a space due are written with one space between
    them. *)
Lemma print_items_run (items : list string) (out : stdout) :
  (forall t, In t items -> soft t = true) -> items <> [] ->
  fold_left (fun o t => print_item t o) items out
  = {| written := (written out ++ (if softspace out then " " else "")
                   ++ sep_by " " items)%string;
       softspace := true |}.
Proof.
  revert out. induction items as [|t items IH]; intros out Hs Hne; [contradiction|].
  cbn [fold_left]. destruct items as [|t' items].
  - cbn [fold_left sep_by]. unfold print_item. f_equal. apply (Hs t). now left.
  - rewrite IH; [|intros u Hu; apply Hs; now right | discriminate].
    assert (St : softspace (print_item t out) = true) by (apply (Hs t); now left).
    rewrite St. f_equal. cbn [print_item written sep_by].
    now rewrite !append_assoc.
Qed.

Lemma display_cols_run (self : Sudoku) (maxlen : nat) (row : ascii)
  (cols : list ascii) (out : stdout) :
  (forall col, In col cols -> In (cell_name row col) (map fst self)) ->
  display_cols self maxlen row cols out
  = (fold_left (fun o t => print_item t o) (row_items self maxlen row cols) out,
     Ret tt).
Proof.
  revert out. induction cols as [|col cols IH]; intros out H; [reflexivity|].
  cbn [display_cols]. unfold display_cell.
  destruct (dict_get_present self _ (H col (or_introl eq_refl))) as [v Hv].
  rewrite Hv. rewrite IH by (intros c Hc; apply H; now right).
  f_equal. change (row_items self maxlen row (col :: cols))
    with ((format_s maxlen (shown (value self (cell_name row col)))
           :: (if contains col "36" then ["|"] else []))
          ++ row_items self maxlen row cols).
  rewrite fold_left_app. f_equal.
  rewrite (value_get _ _ _ Hv). unfold shown.
  now destruct (contains col "36").
Qed.

Lemma row_items_soft (self : Sudoku) (maxlen : nat) (row : ascii)
  (cols : list ascii) :
  (forall col, In col cols -> plain (value self (cell_name row col))) ->
  forall t, In t (row_items self maxlen row cols) -> soft t = true.
Proof.
  intros H t Ht. apply in_flat_map in Ht. destruct Ht as (col & Hc & [<-|Ht]).
  - apply soft_field, H, Hc.
  - destruct (contains col "36"); [|contradiction].
    destruct Ht as [<-|[]]. reflexivity.
Qed.

Lemma unlines_cons (line : string) (lines : list string) :
  unlines (line :: lines) = (line ++ String newline "" ++ unlines lines)%string.
Proof. unfold unlines. simpl. now rewrite append_assoc. Qed.

Lemma in_area_cells (rows cols : string) (row col : ascii) :
  In row (chars rows) -> In col (chars cols) ->
  In (cell_name row col) (area_cells rows cols).
Proof.
  intros Hr Hc. unfold area_cells. apply in_flat_map. exists row.
  split; [exact Hr | now apply in_map].
Qed.

(** What the loop over the rows writes, on a grid that has the cells of
    these rows, when no candidate string holds whitespace. *)
Lemma display_rows_run (self : Sudoku) (maxlen : nat) (rows : list ascii)
  (out : stdout) :
  (forall row col, In row rows -> In col (chars cols9) ->
     In (cell_name row col) (map fst self)
     /\ plain (value self (cell_name row col))) ->
  softspace out = false ->
  display_rows self maxlen rows out
  = ({| written := (written out ++ unlines (lines_of self maxlen rows))%string;
        softspace := false |}, Ret tt).
Proof.
  revert out. induction rows as [|row rows IH]; intros out H Hout.
  - cbn. rewrite append_nil_r. destruct out; simpl in *. now subst.
  - cbn [display_rows].
    rewrite display_cols_run by (intros col Hc; apply H; [now left | exact Hc]).
    rewrite print_items_run.
    + rewrite Hout.
      assert (Hend : forall o, softspace (end_row maxlen row o) = false)
        by (intros o; unfold end_row; now destruct (contains row "CF")).
      rewrite IH; [|intros r c Hr Hc; apply H; [now right | exact Hc] | apply Hend].
      f_equal. f_equal. unfold lines_of. cbn [flat_map]. fold (lines_of self maxlen rows).
      unfold end_row. destruct (contains row "CF");
        cbn [print_newline print_item written softspace app];
        rewrite ?unlines_cons, ?append_assoc; reflexivity.
    + apply row_items_soft. intros col Hc. apply H; [now left | exact Hc].
    + discriminate.
Qed.

Lemma fold_max_spec (l : list nat) (n : nat) :
  n <= fold_left Nat.max l n
  /\ (forall x, In x l -> x <= fold_left Nat.max l n)
  /\ (fold_left Nat.max l n = n \/ In (fold_left Nat.max l n) l).
Proof.
  revert n. induction l as [|y l IH]; intros n; simpl.
  { split; [lia|]. split; [tauto | now left]. }
  destruct (IH (Nat.max n y)) as (H1 & H2 & H3). split; [lia|]. split.
  - intros x [<-|Hx]; [lia | now apply H2].
  - destruct H3 as [H3|H3]; [|now right; right].
    destruct (Nat.max_spec n y) as [[_ E]|[_ E]]; rewrite E in *.
    + right. left. now symmetry.
    + now left.
Qed.

Lemma max_of_spec (l : list nat) (m : nat) :
  max_of l = Ret m -> (forall x, In x l -> x <= m) /\ In m l.
Proof.
  destruct l as [|n l]; [discriminate|]. simpl. intros [= <-].
  destruct (fold_max_spec l n) as (H1 & H2 & H3). split.
  - intros x [<-|Hx]; auto.
  - destruct H3 as [->|H3]; auto.
Qed.

Lemma In_itervalues {V : Type} (d : dict V) (v : V) :
  In v (itervalues d) <-> exists k, dict_get d k = Some v.
Proof.
  unfold itervalues. rewrite in_map_iff. split.
  - intros ([k v'] & <- & H). exists k. now apply In_iteritems.
  - intros [k H]. exists (k, v). split; [reflexivity | now apply In_iteritems].
Qed.

Lemma digit_plain (c : ascii) : digit c = true -> isspace c = false.
Proof. destruct c as [[] [] [] [] [] [] [] []]; try discriminate; reflexivity. Qed.

Lemma max_of_perm (l l' : list nat) : Permutation l l' -> max_of l = max_of l'.
Proof.
  intros P. destruct l as [|n l], l' as [|n' l'].
  - reflexivity.
  - apply Permutation_nil in P. discriminate.
  - apply Permutation_sym, Permutation_nil in P. discriminate.
  - destruct (max_of (n :: l)) as [m|e] eqn:E; [|discriminate].
    destruct (max_of (n' :: l')) as [m'|e'] eqn:E'; [|discriminate].
    destruct (max_of_spec _ _ E) as [H1 H2], (max_of_spec _ _ E') as [H1' H2'].
    f_equal. apply Nat.le_antisymm.
    + apply H1'. eapply Permutation_in; eauto.
    + apply H1. eapply Permutation_in; [symmetry|]; eauto.
Qed.

Lemma digits_plain (v : string) : digits v -> plain v.
Proof. intros H c Hc. apply digit_plain, H, Hc. Qed.

(** The width of a column: the length of the longest string shown. *)
Lemma display_maxlen (self : Sudoku) (k v : string) :
  dict_get self k = Some v ->
  exists maxlen,
    max_of (map shown_length (itervalues self)) = Ret maxlen
    /\ (forall cell w, dict_get self cell = Some w -> shown_length w <= maxlen)
    /\ exists cell w, dict_get self cell = Some w /\ shown_length w = maxlen.
Proof.
  intros Hv.
  destruct (max_of (map shown_length (itervalues self))) as [m|e] eqn:E.
  - exists m. split; [reflexivity|]. destruct (max_of_spec _ _ E) as [H1 H2]. split.
    + intros cell w Hw. apply H1, in_map, In_itervalues. eauto.
    + apply in_map_iff in H2. destruct H2 as (w & Hw & Hin).
      apply In_itervalues in Hin. destruct Hin as [cell Hc]. eauto.
  - exfalso. assert (Hin : In v (itervalues self)) by (apply In_itervalues; eauto).
    destruct (itervalues self); [contradiction | discriminate].
Qed.

Lemma sep_by_length (sep : string) (l : list string) :
  String.length (sep_by sep l)
  = list_sum (map String.length l) + String.length sep * (List.length l - 1).
Proof.
  induction l as [|x l IH]; [simpl; lia|].
  destruct l as [|y l]; [simpl; lia|].
  change (sep_by sep (x :: y :: l)) with (x ++ sep ++ sep_by sep (y :: l))%string.
  rewrite !length_append, IH. simpl. lia.
Qed.

Lemma contains_sep_by (c : ascii) (sep : string) (l : list string) :
  contains c (sep_by sep l) = true ->
  contains c sep = true \/ exists t, In t l /\ contains c t = true.
Proof.
  induction l as [|x l IH]; [discriminate|].
  destruct l as [|y l].
  - simpl. intros H. right. exists x. auto.
  - change (sep_by sep (x :: y :: l)) with (x ++ sep ++ sep_by sep (y :: l))%string.
    rewrite !contains_append. intros [H|[H|H]%orb_prop]%orb_prop.
    + right. exists x. split; [now left | exact H].
    + now left.
    + destruct (IH H) as [H'|(t & Ht & Hc)]; [now left|].
      right. exists t. split; [now right | exact Hc].
Qed.

Lemma row_items_count (self : Sudoku) (maxlen : nat) (row : ascii)
  (cols : list ascii) :
  (forall col, In col cols ->
     String.length (shown (value self (cell_name row col))) <= maxlen) ->
  let bars := List.length (filter (fun col => contains col "36") cols) in
  list_sum (map String.length (row_items self maxlen row cols))
  = maxlen * List.length cols + bars
  /\ List.length (row_items self maxlen row cols) = List.length cols + bars.
Proof.
  induction cols as [|col cols IH]; intros H; [simpl; lia|].
  destruct IH as [I1 I2]; [intros c Hc; apply H; now right|].
  change (row_items self maxlen row (col :: cols))
    with ((format_s maxlen (shown (value self (cell_name row col)))
           :: (if contains col "36" then ["|"] else []))
          ++ row_items self maxlen row cols).
  cbn [filter]. rewrite map_app, list_sum_app, length_app, I1, I2.
  cbn [map list_sum List.length]. rewrite format_s_length by (apply H; now left).
  destruct (contains col "36"); simpl; lia.
Qed.

Lemma row_line (self : Sudoku) (maxlen : nat) (row : ascii) :
  (forall col, In col (chars cols9) ->
     String.length (shown (value self (cell_name row col))) <= maxlen
     /\ plain (value self (cell_name row col))) ->
  let line := sep_by " " (row_items self maxlen row (chars cols9)) in
  String.length line = 9 * maxlen + 12 /\ contains newline line = false.
Proof.
  intros H. split.
  - rewrite sep_by_length.
    destruct (row_items_count self maxlen row (chars cols9)) as [-> ->];
      [intros col Hc; now apply H|].
    change (List.length (chars cols9)) with 9.
    change (List.length (filter (fun col => contains col "36") (chars cols9))) with 2.
    simpl. lia.
  - destruct (contains newline (sep_by " " _)) eqn:E; [exfalso|reflexivity].
    apply contains_sep_by in E. destruct E as [E|(t & Ht & E)]; [discriminate|].
    apply in_flat_map in Ht. destruct Ht as (col & Hc & [<-|Ht]).
    + unfold format_s in E. rewrite contains_append in E.
      apply orb_prop in E. destruct E as [E|E].
      * apply contains_times in E. discriminate.
      * apply (plain_shown _ (proj2 (H col Hc))) in E. discriminate.
    + destruct (contains col "36"); [|contradiction].
      destruct Ht as [<-|[]]. discriminate.
Qed.

(** On a grid that has the 81 cells, without whitespace in the candidate
    strings, [display] started at the beginning of a line returns after
    writing 11 lines of the same length [9 * maxlen + 12], [maxlen] being
    the length of the longest string shown (['123456789'] is shown as
    ['*']): the nine rows, and a rule after the third and the sixth. *)
Theorem display_aligned (self : Sudoku) (out : stdout) :
  has_cells all_cells self ->
  (forall cell v, dict_get self cell = Some v -> plain v) ->
  softspace out = false ->
  exists maxlen lines,
    display self out
    = ({| written := (written out ++ unlines lines)%string; softspace := false |},
       Ret tt)
    /\ List.length lines = 11
    /\ (forall line, In line lines ->
          String.length line = 9 * maxlen + 12 /\ contains newline line = false)
    /\ (forall cell v, dict_get self cell = Some v -> shown_length v <= maxlen)
    /\ exists cell v, dict_get self cell = Some v /\ shown_length v = maxlen.
Proof.
  intros Hs Hp Hout.
  destruct (dict_get_present self "A1") as [v1 Hv1].
  { apply Hs, existsb_eqb_In. reflexivity. }
  destruct (display_maxlen self _ _ Hv1) as (maxlen & Hm & Hle & Hex).
  assert (Hcell : forall row col, In row (chars rows9) -> In col (chars cols9) ->
            In (cell_name row col) (map fst self)
            /\ plain (value self (cell_name row col))
            /\ String.length (shown (value self (cell_name row col))) <= maxlen).
  { intros row col Hr Hc.
    pose proof (Hs _ (in_area_cells rows9 cols9 row col Hr Hc)) as Hk.
    destruct (dict_get_present self _ Hk) as [v Hv].
    rewrite (value_get _ _ _ Hv), <- shown_length_eq. eauto. }
  exists maxlen, (lines_of self maxlen (chars rows9)).
  split; [|split; [reflexivity|split; [|split; assumption]]].
  - unfold display. rewrite Hm. apply display_rows_run; [|exact Hout].
    intros row col Hr Hc. destruct (Hcell row col Hr Hc) as (H1 & H2 & _). auto.
  - intros line Hl. apply in_flat_map in Hl. destruct Hl as (row & Hr & [<-|Hl]).
    + apply row_line. intros col Hc. destruct (Hcell row col Hr Hc) as (_ & H2 & H3). auto.
    + destruct (contains row "CF"); [|contradiction]. destruct Hl as [<-|[]].
      split; [rewrite times_length; lia|].
      destruct (contains newline (times "-" _)) eqn:E; [|reflexivity].
      apply contains_times in E. discriminate.
Qed.

(** *** What [display] raises *)

Lemma has_key_In {V : Type} (d : dict V) (k : string) :
  has_key d k = true <-> In k (map fst d).
Proof.
  unfold has_key. split.
  - destruct (dict_get d k) eqn:E; [|discriminate]. intros _. eapply dict_get_key, E.
  - intros H. now destruct (dict_get_present d k H) as [v ->].
Qed.

Lemma display_cols_result (self : Sudoku) (maxlen : nat) (row : ascii)
  (cols : list ascii) (out : stdout) :
  snd (display_cols self maxlen row cols out)
  = if forallb (fun col => has_key self (cell_name row col)) cols
    then Ret tt else Raise KeyError.
Proof.
  revert out. induction cols as [|col cols IH]; intros out; [reflexivity|].
  cbn [display_cols forallb]. unfold display_cell, has_key at 1.
  destruct (dict_get self (cell_name row col)); [|reflexivity].
  cbn [andb]. apply IH.
Qed.

Lemma display_rows_result (self : Sudoku) (maxlen : nat) (rows : list ascii)
  (out : stdout) :
  snd (display_rows self maxlen rows out)
  = if forallb (fun row => forallb (fun col => has_key self (cell_name row col))
                             (chars cols9)) rows
    then Ret tt else Raise KeyError.
Proof.
  revert out. induction rows as [|row rows IH]; intros out; [reflexivity|].
  cbn [display_rows forallb].
  pose proof (display_cols_result self maxlen row (chars cols9) out) as Hc.
  destruct (display_cols self maxlen row (chars cols9) out) as [out' [[]|e]];
    cbn [snd] in Hc;
    destruct (forallb (fun col => has_key self (cell_name row col)) (chars cols9));
    try discriminate.
  - cbn [andb]. apply IH.
  - exact Hc.
Qed.

Lemma forallb_over_map {A B : Type} (f : B -> bool) (g : A -> B) (l : list A) :
  forallb f (map g l) = forallb (fun x => f (g x)) l.
Proof. induction l as [|x l IH]; simpl; [reflexivity | now rewrite IH]. Qed.

Lemma forallb_area_cells (f : string -> bool) (rows cols : string) :
  forallb (fun row => forallb (fun col => f (cell_name row col)) (chars cols))
    (chars rows)
  = forallb f (area_cells rows cols).
Proof.
  unfold area_cells. induction (chars rows) as [|row l IH]; [reflexivity|].
  cbn [forallb flat_map]. rewrite forallb_app, IH. f_equal.
  symmetry. apply forallb_over_map.
Qed.

Lemma display_result (self : Sudoku) (out : stdout) (k v : string) :
  dict_get self k = Some v ->
  snd (display self out)
  = if forallb (has_key self) all_cells then Ret tt else Raise KeyError.
Proof.
  intros Hv. destruct (display_maxlen self k v Hv) as (maxlen & Hm & _).
  unfold display. rewrite Hm, display_rows_result.
  now rewrite (forallb_area_cells (has_key self) rows9 cols9).
Qed.

Lemma display_returns (self : Sudoku) (out : stdout) :
  has_cells all_cells self -> snd (display self out) = Ret tt.
Proof.
  intros Hs. destruct (dict_get_present self "A1") as [v Hv].
  { apply Hs, existsb_eqb_In. reflexivity. }
  rewrite (display_result _ _ _ _ Hv).
  assert (E : forallb (has_key self) all_cells = true).
  { apply forallb_forall. intros k Hk. now apply has_key_In, Hs. }
  now rewrite E.
Qed.

(** [display] raises [ValueError] on a grid without any cell and writes
    nothing; on another grid it returns when the 81 cells are there and
    raises [KeyError] when one is missing. *)
Theorem display_raises (self : Sudoku) (out : stdout) :
  (self = [] -> display self out = (out, Raise ValueError))
  /\ (has_cells all_cells self -> snd (display self out) = Ret tt)
  /\ (self <> [] -> ~ has_cells all_cells self ->
      snd (display self out) = Raise KeyError).
Proof.
  split; [|split].
  - intros ->. unfold display, itervalues, iteritems, keys. cbn [map].
    now rewrite (Permutation_nil (Permutation_sym (dict_order_perm []))).
  - apply display_returns.
  - intros Hne Hno. destruct self as [|[k v] self']; [contradiction|].
    rewrite (display_result _ _ k v) by (simpl; now rewrite String.eqb_refl).
    destruct (forallb (has_key ((k, v) :: self')) all_cells) eqn:E; [exfalso|reflexivity].
    apply Hno. intros c Hc. apply has_key_In.
    rewrite forallb_forall in E. now apply E.
Qed.

(** *** Reading back what [display] wrote *)

Lemma kept_times (c : ascii) (n : nat) :
  kept c = false -> filter kept (chars (times c n)) = [].
Proof.
  intros H. unfold times, chars. rewrite list_ascii_of_string_of_list_ascii.
  induction n; simpl; [reflexivity | now rewrite H].
Qed.

Lemma kept_format_s (maxlen : nat) (v : string) :
  filter kept (chars (format_s maxlen v)) = filter kept (chars v).
Proof.
  unfold format_s. rewrite chars_append, filter_app.
  now rewrite kept_times by reflexivity.
Qed.

Lemma kept_sep_by (l : list string) :
  filter kept (chars (sep_by " " l)) = flat_map (fun t => filter kept (chars t)) l.
Proof.
  induction l as [|x l IH]; [reflexivity|].
  destruct l as [|y l]; [cbn; now rewrite app_nil_r|].
  change (sep_by " " (x :: y :: l)) with (x ++ " " ++ sep_by " " (y :: l))%string.
  rewrite !chars_append, !filter_app, IH. reflexivity.
Qed.

Lemma kept_unlines (lines : list string) :
  filter kept (chars (unlines lines))
  = flat_map (fun line => filter kept (chars line)) lines.
Proof.
  induction lines as [|x l IH]; [reflexivity|].
  rewrite unlines_cons, !chars_append, !filter_app, IH. cbn [flat_map].
  f_equal.
Qed.

Lemma kept_row_items (self : Sudoku) (maxlen : nat) (row : ascii) (cols : list ascii) :
  flat_map (fun t => filter kept (chars t)) (row_items self maxlen row cols)
  = flat_map (fun col => filter kept (chars (shown (value self (cell_name row col)))))
      cols.
Proof.
  induction cols as [|col cols IH]; [reflexivity|].
  change (row_items self maxlen row (col :: cols))
    with ((format_s maxlen (shown (value self (cell_name row col)))
           :: (if contains col "36" then ["|"] else []))
          ++ row_items self maxlen row cols).
  rewrite flat_map_app, IH. cbn [flat_map]. rewrite kept_format_s.
  destruct (contains col "36"); cbn; now rewrite ?app_nil_r.
Qed.

Lemma flat_map_over_map {A B C : Type} (f : B -> list C) (g : A -> B) (l : list A) :
  flat_map f (map g l) = flat_map (fun x => f (g x)) l.
Proof. induction l as [|x l IH]; simpl; [reflexivity | now rewrite IH]. Qed.

(** The characters of the text written for [rows] that the constructor
    keeps: those of the strings shown, cell after cell. *)
Lemma kept_lines_of (self : Sudoku) (maxlen : nat) (rows : string) :
  filter kept (chars (unlines (lines_of self maxlen (chars rows))))
  = flat_map (fun cell => filter kept (chars (shown (value self cell))))
      (area_cells rows cols9).
Proof.
  rewrite kept_unlines. unfold lines_of, area_cells.
  induction (chars rows) as [|row l IH]; [reflexivity|].
  cbn [flat_map]. rewrite !flat_map_app, IH. f_equal.
  cbn [flat_map]. rewrite kept_sep_by, kept_row_items.
  destruct (contains row "CF").
  - cbn [flat_map]. rewrite kept_times by reflexivity. rewrite !app_nil_r.
    symmetry.
    apply (flat_map_over_map
             (fun cell => filter kept (chars (shown (value self cell))))
             (cell_name row)).
  - cbn [flat_map]. rewrite !app_nil_r. symmetry.
    apply (flat_map_over_map
             (fun cell => filter kept (chars (shown (value self cell))))
             (cell_name row)).
Qed.

Lemma digit_kept (c : ascii) : digit c = true -> kept c = true.
Proof. intros H. rewrite kept_spec, H. reflexivity. Qed.

Lemma shown_char1 (c : ascii) : shown (char1 c) = char1 c.
Proof. unfold shown, char1. simpl. now destruct (Ascii.eqb c "1"). Qed.

Lemma dict_get_combine_map (f : string -> string) (ks : list string) (k : string) :
  In k ks -> dict_get (combine ks (map f ks)) k = Some (f k).
Proof.
  induction ks as [|k0 ks IH]; simpl; [tauto|].
  destruct (String.eqb k0 k) eqn:E.
  - apply String.eqb_eq in E. now subst.
  - intros [->|H]; [now rewrite String.eqb_refl in E | now apply IH].
Qed.

(** What [display] writes of a grid whose 81 cells are determined, the
    constructor reads back: [Sudoku(text)] succeeds on it and gives the 81
    cells the digits they have in the grid. *)
Theorem display_read_back (self : Sudoku) :
  all_determined self ->
  exists text self',
    display self fresh = ({| written := text; softspace := false |}, Ret tt)
    /\ Sudoku_init text = (self', Ret tt)
    /\ map fst self' = all_cells
    /\ forall cell, In cell all_cells -> dict_get self' cell = dict_get self cell.
Proof.
  intros Hdet.
  destruct (Hdet "A1") as (d1 & _ & Hv1); [apply existsb_eqb_In; reflexivity|].
  destruct (display_maxlen self _ _ Hv1) as (maxlen & Hm & _).
  assert (Hrun : display self fresh
                 = ({| written := unlines (lines_of self maxlen (chars rows9));
                       softspace := false |}, Ret tt)).
  { unfold display. rewrite Hm. rewrite display_rows_run; [reflexivity | | reflexivity].
    intros row col Hr Hc.
    destruct (Hdet _ (in_area_cells rows9 cols9 row col Hr Hc)) as (d & Hd & Hv).
    split; [eapply dict_get_key; eauto|].
    rewrite (value_get _ _ _ Hv). intros c. simpl.
    destruct (Ascii.eqb d c) eqn:E; [|discriminate].
    apply Ascii.eqb_eq in E. subst c. intros _. now apply digit_plain. }
  assert (Hkept : re_sub (unlines (lines_of self maxlen (chars rows9)))
                  = map (digit_at self) all_cells).
  { unfold re_sub. rewrite kept_lines_of. fold all_cells.
    assert (G : forall l, incl l all_cells ->
              flat_map (fun cell => filter kept (chars (shown (value self cell)))) l
              = map (digit_at self) l).
    { induction l as [|cell l IH]; intros Hl; [reflexivity|].
      cbn [flat_map map]. rewrite IH by (intros x Hx; apply Hl; now right).
      destruct (Hdet cell (Hl cell (or_introl eq_refl))) as (d & Hd & Hv).
      unfold digit_at. rewrite (value_get _ _ _ Hv), Hv, shown_char1.
      cbn. now rewrite (digit_kept d Hd). }
    apply G, incl_refl. }
  exists (unlines (lines_of self maxlen (chars rows9))).
  exists (combine all_cells (map cell_value (map (digit_at self) all_cells))).
  split; [exact Hrun|].
  assert (Hlen : List.length (map cell_value (map (digit_at self) all_cells))
                 = List.length all_cells) by now rewrite !length_map.
  split; [|split].
  - rewrite Sudoku_init_eq, Hkept, length_map. reflexivity.
  - now apply map_fst_combine.
  - intros cell Hc. rewrite map_map.
    rewrite (dict_get_combine_map (fun k => cell_value (digit_at self k))) by assumption.
    destruct (Hdet cell Hc) as (d & Hd & Hv). unfold digit_at. rewrite Hv. cbn.
    now rewrite (cell_value_spec d (digit_kept d Hd)), Hd.
Qed.

(** ** Areas *)

(** [__process_area] hands [func] a snapshot of the area: the dictionary
    of its cells, in loop order, with the strings the grid holds at the
    call.  When a cell is missing it raises [KeyError]; [func] is not
    called and the grid is as it was. *)
Theorem process_area_snapshot (rows cols : string) (func : dict string -> M unit)
  (self : Sudoku) :
  NoDup (area_cells rows cols) ->
  (has_cells (area_cells rows cols) self ->
   process_area rows cols func self
   = func (area_of self (area_cells rows cols)) self)
  /\ (~ has_cells (area_cells rows cols) self ->
      process_area rows cols func self = (self, Raise KeyError)).
Proof.
  intros Hnd. unfold process_area, bind. split.
  - intros Hs. rewrite build_area_of; auto.
  - intros Hno.
    pose proof (build_area_state (area_cells rows cols) [] self) as Hst.
    destruct (build_area (area_cells rows cols) [] self) as [s' [area|e]] eqn:B;
      simpl in Hst; subst s'.
    + exfalso. apply Hno. intros k Hk.
      destruct (in_dec string_dec k (map fst self)) as [|Hn]; [assumption|exfalso].
      assert (G : forall cells acc, In k cells ->
                  build_area cells acc self <> (self, Ret area)).
      { clear -Hn. induction cells as [|c cells IH]; intros acc Hin; [contradiction|].
        simpl. unfold bind, getitem. destruct (dict_get self c) as [v|] eqn:E.
        - destruct Hin as [->|Hin]; [|now apply IH].
          exfalso. apply Hn. eapply dict_get_key, E.
        - discriminate. }
      exact (G _ _ Hk B).
    + now destruct (build_area_KeyError _ _ _ _ _ B) as [-> _].
Qed.

(** The 27 areas of a pass: each has 9 different cells of the grid, and
    every cell of the grid lies in exactly three of them. *)
Theorem areas_geometry :
  List.length areas = 27
  /\ List.length all_cells = 81
  /\ (forall rows cols, In (rows, cols) areas ->
        NoDup (area_cells rows cols)
        /\ List.length (area_cells rows cols) = 9
        /\ incl (area_cells rows cols) all_cells)
  /\ forall cell, In cell all_cells -> areas_with cell = 3.
Proof.
  split; [reflexivity|]. split; [reflexivity|]. split.
  - intros rows cols H. destruct (area_facts rows cols H) as (H1 & H2 & H3). auto.
  - assert (H : forallb (fun cell => areas_with cell =? 3) all_cells = true)
      by (vm_compute; reflexivity).
    rewrite forallb_forall in H. intros cell Hc. now apply Nat.eqb_eq, H.
Qed.

(** ** Grids from the constructor *)

Lemma digits_full : digits "123456789".
Proof. intros c H. exact H. Qed.

Lemma cell_value_length (c : ascii) :
  String.length (cell_value c) = if placeholder c then 9 else 1.
Proof. unfold cell_value. now destruct (placeholder c). Qed.

Lemma constructed_facts (puzzle : string) (self : Sudoku) :
  Sudoku_init puzzle = (self, Ret tt) ->
  map fst self = all_cells
  /\ well_formed self
  /\ no_empty_cell self
  /\ complexity self
     = list_sum (map (fun c => if placeholder c then 9 else 1) (re_sub puzzle))
  /\ forall cell, In cell all_cells ->
       exists v, dict_get self cell = Some v
                 /\ ((exists d, digit d = true /\ v = char1 d)
                     \/ v = "123456789").
Proof.
  intros H. destruct (Sudoku_init_grid puzzle self H) as (Hlen & Hk & Hv).
  assert (Hok : dict_ok self) by (unfold dict_ok; rewrite Hk; apply all_cells_NoDup).
  assert (Hval : forall cell v, dict_get self cell = Some v ->
            exists c, kept c = true /\ v = cell_value c).
  { intros cell v E. apply dict_get_In in E.
    apply (in_map snd) in E. rewrite Hv in E. apply in_map_iff in E.
    destruct E as (c & Ec & Hc). exists c. split; [|now rewrite Ec].
    unfold re_sub in Hc. now apply filter_In in Hc. }
  split; [exact Hk|]. split; [|split; [|split]].
  - split; [now rewrite Hk|]. intros cell v E.
    destruct (Hval cell v E) as (c & Hc & ->). rewrite (cell_value_spec c Hc).
    destruct (digit c) eqn:D; [now apply digits_char1 | apply digits_full].
  - intros cell Hc. destruct (dict_get_present self cell) as [v E].
    { now rewrite Hk. }
    exists v. split; [exact E|]. destruct (Hval cell v E) as (c & _ & ->).
    unfold cell_value. destruct (placeholder c); discriminate.
  - rewrite (complexity_weight self Hok). unfold weight.
    rewrite <- (map_map snd String.length), Hv, map_map.
    f_equal. apply map_ext. intros c. apply cell_value_length.
  - intros cell Hc. destruct (dict_get_present self cell) as [v E].
    { now rewrite Hk. }
    exists v. split; [exact E|]. destruct (Hval cell v E) as (c & Hkc & ->).
    rewrite (cell_value_spec c Hkc). destruct (digit c) eqn:D; [left|now right].
    exists c. auto.
Qed.

(** A grid the constructor returns has the 81 cells, in row-major order,
    with candidate strings of digits, none of them empty: each cell holds
    one digit or ['123456789'].  Its complexity is the number of digits
    given plus 9 for every placeholder. *)
Theorem constructed_well_formed (puzzle : string) (self : Sudoku) :
  Sudoku_init puzzle = (self, Ret tt) ->
  map fst self = all_cells
  /\ well_formed self
  /\ no_empty_cell self
  /\ complexity self
     = list_sum (map (fun c => if placeholder c then 9 else 1) (re_sub puzzle))
  /\ forall cell, In cell all_cells ->
       exists v, dict_get self cell = Some v
                 /\ ((exists d, digit d = true /\ v = char1 d)
                     \/ v = "123456789").
Proof. apply constructed_facts. Qed.

(** ** What [solved] says *)

Lemma sum_all_ones {A : Type} (f : A -> nat) (l : list A) :
  (forall x, In x l -> f x = 1) -> list_sum (map f l) = List.length l.
Proof.
  induction l as [|x l IH]; intros H; simpl; [reflexivity|].
  rewrite (H x) by now left. rewrite IH by (intros y Hy; apply H; now right).
  reflexivity.
Qed.

Lemma solved_self_determined (self : Sudoku) :
  well_formed self -> no_empty_cell self ->
  (solved self = true <-> all_determined self).
Proof.
  intros Hwf Hne. pose proof (well_formed_ok self Hwf) as Hok.
  unfold solved. rewrite Nat.eqb_eq. split.
  - intros Hc cell Hcell. destruct (Hne cell Hcell) as (v & Hv & _).
    destruct (single_digit v) as (d & Hd & ->).
    + eapply determined_lengths; eauto.
    + destruct Hwf as [_ Hdig]. eapply Hdig; eauto.
    + exists d. auto.
  - intros Hdet. rewrite (complexity_weight self Hok). unfold weight.
    rewrite sum_all_ones.
    + rewrite <- (length_map fst). destruct Hwf as [Hk _].
      now rewrite (Permutation_length Hk).
    + intros [k v] Hin. simpl.
      assert (Hk : In k all_cells).
      { destruct Hwf as [Hk _]. eapply Permutation_in; [exact Hk|].
        apply in_map_iff. exists (k, v). auto. }
      destruct (Hdet k Hk) as (d & _ & Hd).
      rewrite (In_dict_get self k v Hok Hin) in Hd. now injection Hd as ->.
Qed.

(** On a grid of the 81 cells without an empty cell, [solved] returns
    [True] exactly when every cell holds one digit; it does not look at
    rows, columns or boxes. *)
Theorem solved_iff_determined (self : Sudoku) :
  well_formed self -> no_empty_cell self ->
  (solved self = true <-> all_determined self).
Proof. apply solved_self_determined. Qed.

(** ** [sample] *)

Lemma fits_check_ok (sol s : Sudoku) : fits_check sol s = true -> fits sol s.
Proof. unfold fits_check. rewrite forallb_forall. auto. Qed.

Lemma solved_check_ok (sol : Sudoku) : solved_check sol = true -> solved_grid sol.
Proof.
  unfold solved_check. rewrite andb_true_iff, !forallb_forall. intros [H1 H2]. split.
  - intros cell Hc. specialize (H1 cell Hc).
    destruct (dict_get sol cell) as [[|d [|]]|]; try discriminate.
    exists d. auto.
  - intros rows cols d Hin Hd. specialize (H2 _ Hin). cbn [fst snd] in H2.
    rewrite forallb_forall in H2. apply Nat.eqb_eq, H2. now apply contains_In.
Qed.

(** [sample()] raises nothing: the puzzle is accepted by the constructor,
    it has a solution, so that [solve] returns if it comes back, and both
    calls of [display] find the 81 cells. *)
Lemma sample_returns (fuel : nat) (out : stdout) :
  sample fuel out = None \/ exists out', sample fuel out = Some (out', Ret tt).
Proof.
  unfold sample.
  assert (Hinit : snd (Sudoku_init sample_puzzle) = Ret tt) by (vm_compute; reflexivity).
  assert (Hfit : fits (grid_of solution) (fst (Sudoku_init sample_puzzle)))
    by (apply fits_check_ok; vm_compute; reflexivity).
  assert (Hsol : solved_grid (grid_of solution))
    by (apply solved_check_ok; vm_compute; reflexivity).
  destruct (Sudoku_init sample_puzzle) as [sudoku r] eqn:E. cbn [fst snd] in *. subst r.
  destruct (Sudoku_init_grid _ _ E) as (_ & Hk & _).
  assert (Hok : dict_ok sudoku) by (unfold dict_ok; rewrite Hk; apply all_cells_NoDup).
  pose proof (has_cells_check sudoku Hk) as Hs.
  pose proof (display_returns sudoku out Hs) as D1.
  destruct (display sudoku out) as [out1 r1]. cbn [snd] in D1. subst r1.
  destruct (solve fuel sudoku) as [[sudoku' r]|] eqn:S; [|now left].
  destruct (solve_keeps _ _ _ _ _ Hsol Hok Hs Hfit S) as (b & -> & _).
  destruct (solve_rec_refines fuel _ _ _ Hok S) as [_ Href].
  pose proof (display_returns sudoku' (print_newline out1)
                (refines_has_cells _ _ _ Href Hs)) as D2.
  destruct (display sudoku' (print_newline out1)) as [out3 r3]. cbn [snd] in D2.
  subst r3. right. now exists out3.
Qed.

(** ** Grids on which nothing is left to do *)

Lemma fits_self (s : Sudoku) : all_determined s -> fits s s.
Proof.
  intros H cell Hc. destruct (H cell Hc) as (d & _ & Hd).
  unfold digit_at, value. rewrite Hd. simpl. now rewrite Ascii.eqb_refl.
Qed.

Lemma shrunk_solved_eq (s' s : Sudoku) :
  well_formed s -> all_determined s -> shrunk s' s -> fits s s' -> s' = s.
Proof.
  intros Hwf Hdet Hsh Hf. apply shrunk_same_weight; [exact Hsh|].
  pose proof (well_formed_ok s Hwf) as Hok.
  pose proof (shrunk_ok _ _ Hsh Hok) as Hok'.
  pose proof (shrunk_keys _ _ Hsh) as Hk.
  assert (Hin : forall k, In k (map fst s) -> In k all_cells).
  { intros k. destruct Hwf as [Hp _]. now apply Permutation_in. }
  apply Nat.le_antisymm; [now apply shrunk_weight|].
  unfold weight. rewrite (sum_all_ones _ s).
  - rewrite <- (length_map fst s), <- Hk, length_map. apply sum_at_least.
    intros [k v'] Hkv. simpl.
    assert (Hc : In k all_cells).
    { apply Hin. rewrite <- Hk. apply in_map_iff. exists (k, v'). auto. }
    pose proof (Hf k Hc) as Hcont.
    rewrite (value_get _ _ _ (In_dict_get s' k v' Hok' Hkv)) in Hcont.
    destruct v'; [discriminate | simpl; lia].
  - intros [k v] Hkv. simpl.
    assert (Hc : In k all_cells).
    { apply Hin, in_map_iff. exists (k, v). auto. }
    destruct (Hdet k Hc) as (d & _ & Hd).
    rewrite (In_dict_get s k v Hok Hkv) in Hd. now injection Hd as ->.
Qed.

(** A solved grid is left as it is: [simplify] and [solve] return [True]
    and the grid holds what it held. *)
Theorem solved_grid_stays (self : Sudoku) (fuel : nat) :
  well_formed self -> solved_grid self ->
  simplify self = Some (self, Ret true)
  /\ solve (S fuel) self = Some (self, Ret true).
Proof.
  intros Hwf Hsol. pose proof (well_formed_has_cells self Hwf) as Hs.
  destruct (simplify_keeps self self Hsol Hs (fits_self self (proj1 Hsol)))
    as (s' & b & S' & Hf).
  assert (s' = self)
    by (eapply shrunk_solved_eq; eauto using simplify_shrunk; apply Hsol).
  subst s'.
  assert (Hne : no_empty_cell self).
  { intros cell Hc. destruct (proj1 Hsol cell Hc) as (d & _ & Hd).
    exists (char1 d). split; [exact Hd | discriminate]. }
  assert (Hb : solved self = true).
  { destruct (solved_self_determined self Hwf Hne) as [_ H]. apply H, Hsol. }
  assert (b = true) as ->.
  { unfold simplify in S'.
    destruct (simplify_loop (S (complexity self)) 0 (complexity self) self)
      as [[s1 [[]|e]]|]; try discriminate.
    injection S' as -> <-. exact Hb. }
  split; [exact S'|]. rewrite solve_S, S'. now rewrite Hb.
Qed.

(** A grid without any candidate, the empty dictionary for one, is not
    reported as unsolvable: the loop of [simplify] is not entered, and
    [simplify] and [solve] return [False] at once, the grid untouched. *)
Theorem nothing_to_simplify (self : Sudoku) (fuel : nat) :
  complexity self = 0 ->
  simplify self = Some (self, Ret false)
  /\ solve (S fuel) self = Some (self, Ret false).
Proof.
  intros Hc.
  assert (Hs : solved self = false) by (unfold solved; now rewrite Hc).
  pose proof (simplify_of_fixpoint self (or_introl Hc)) as S'. rewrite Hs in S'.
  split; [exact S'|].
  rewrite solve_S, S', try_levels_nothing by assumption. now rewrite Hs.
Qed.

(** ** From the text of a puzzle to its solution *)

Lemma constructed_cell (puzzle : string) (self : Sudoku) (i : nat)
  (c : ascii) (cell : string) :
  Sudoku_init puzzle = (self, Ret tt) ->
  nth_error (re_sub puzzle) i = Some c -> nth_error all_cells i = Some cell ->
  dict_get self cell = Some (cell_value c).
Proof.
  intros H Hc Hcell. destruct (constructed_facts puzzle self H) as (Hk & Hwf & _).
  apply In_dict_get; [now apply well_formed_ok|].
  rewrite Sudoku_init_eq in H.
  destruct (List.length (re_sub puzzle) =? 81); [|discriminate].
  assert (self = combine all_cells (map cell_value (re_sub puzzle))) as ->
    by congruence.
  apply (nth_error_In _ i). rewrite nth_error_combine, Hcell.
  now rewrite nth_error_map, Hc.
Qed.

(** When [solve] returns [True] on the grid constructed from a text, the
    grid it leaves is a solution of that puzzle: every cell holds one
    digit, every row, column and box holds each digit once, and every digit
    given in the text is in its cell. *)
Theorem solve_solves_puzzle (puzzle : string) (self self' : Sudoku) (fuel : nat) :
  Sudoku_init puzzle = (self, Ret tt) ->
  solve fuel self = Some (self', Ret true) ->
  solved_grid self'
  /\ forall i c cell,
       nth_error (re_sub puzzle) i = Some c -> digit c = true ->
       nth_error all_cells i = Some cell ->
       dict_get self' cell = Some (char1 c).
Proof.
  intros Hinit Hsolve.
  destruct (constructed_facts puzzle self Hinit) as (Hk & Hwf & Hne & _).
  pose proof (well_formed_ok self Hwf) as Hok.
  assert (Hpos : complexity self <> 0).
  { destruct (Hne "A1") as (v & Hv & Hnz); [apply existsb_eqb_In; reflexivity|].
    eapply complexity_pos; eauto. }
  destruct (solve_rec_sound fuel self self' true Hwf Hpos Hsolve) as (_ & Hne' & Hsol).
  split; [now apply Hsol|].
  intros i c cell Hc Hd Hcell.
  pose proof (constructed_cell _ _ _ _ _ Hinit Hc Hcell) as Hv.
  rewrite (cell_value_spec c (digit_kept c Hd)), Hd in Hv.
  destruct (solve_rec_refines fuel _ _ _ Hok Hsolve) as [_ [_ Href]].
  destruct (Href cell _ Hv) as (v' & Hv' & Hsh).
  destruct (shrinks_of_char1 _ _ Hsh) as [->| ->]; [exact Hv'|].
  destruct (Hne' cell (nth_error_In _ _ Hcell)) as (w & Hw & Hnz). congruence.
Qed.

(** ** The pass over an area, step after step *)






End Solver.

(** * Concrete grids

    The statements above hold for every iteration order.  The grids below
    are run with insertion order. *)

Lemma insertion_order_perm : forall l, Permutation (insertion_order l) l.
Proof. intros l. apply Permutation_refl. Qed.

Lemma grid_of_well_formed (text : string) :
  map fst (grid_of text) = all_cells ->
  forallb (fun kv => forallb digit (chars (snd kv))) (grid_of text) = true ->
  well_formed (grid_of text).
Proof. apply well_formed_check. Qed.

(** ** Witnesses *)

Lemma solve_sound_witness :
  well_formed (grid_of two_ways)
  /\ solve insertion_order 2 (grid_of two_ways) = Some (grid_of solution, Ret true)
  /\ all_determined (grid_of solution) /\ each_digit_once (grid_of solution).
Proof.
  assert (Hwf : well_formed (grid_of two_ways))
    by (apply well_formed_check; vm_compute; reflexivity).
  assert (Hs : solve insertion_order 2 (grid_of two_ways)
               = Some (grid_of solution, Ret true))
    by (vm_compute; reflexivity).
  split; [exact Hwf|]. split; [exact Hs|].
  exact (solve_sound insertion_order insertion_order_perm 2 _ _ Hwf Hs).
Defined.

Lemma no_empty_cell_on_return_witness :
  well_formed (grid_of two_ways)
  /\ complexity insertion_order (grid_of two_ways) <> 0
  /\ no_empty_cell (propagated (grid_of two_ways)).
Proof.
  assert (Hwf : well_formed (grid_of two_ways))
    by (apply well_formed_check; vm_compute; reflexivity).
  assert (Hc : complexity insertion_order (grid_of two_ways) <> 0)
    by (vm_compute; discriminate).
  split; [exact Hwf|]. split; [exact Hc|].
  refine (proj1 (no_empty_cell_on_return insertion_order insertion_order_perm
                   _ Hwf Hc) _ false _).
  vm_compute. reflexivity.
Defined.

Lemma simplify_idempotent_witness :
  dict_ok (grid_of two_ways)
  /\ simplify insertion_order (grid_of two_ways)
     = Some (propagated (grid_of two_ways), Ret false)
  /\ simplify insertion_order (propagated (grid_of two_ways))
     = Some (propagated (grid_of two_ways), Ret false).
Proof.
  assert (Hok : dict_ok (grid_of two_ways))
    by (apply distinct_NoDup; vm_compute; reflexivity).
  assert (Hs : simplify insertion_order (grid_of two_ways)
               = Some (propagated (grid_of two_ways), Ret false))
    by (vm_compute; reflexivity).
  split; [exact Hok|]. split; [exact Hs|].
  exact (simplify_idempotent insertion_order insertion_order_perm _ _ _ Hok Hs).
Defined.

Lemma duplicate_in_row_detected_witness :
  Sudoku_init two_fives = (grid_of two_fives, Ret tt)
  /\ dict_get (grid_of two_fives) "A1" = Some "5"
  /\ dict_get (grid_of two_fives) "A2" = Some "5"
  /\ exists self', solve insertion_order 1 (grid_of two_fives)
                   = Some (self', Raise SudokuException).
Proof.
  assert (Hi : Sudoku_init two_fives = (grid_of two_fives, Ret tt))
    by (vm_compute; reflexivity).
  assert (H1 : dict_get (grid_of two_fives) (cell_name "A" "1") = Some (char1 "5"))
    by (vm_compute; reflexivity).
  assert (H2 : dict_get (grid_of two_fives) (cell_name "A" "2") = Some (char1 "5"))
    by (vm_compute; reflexivity).
  split; [exact Hi|]. split; [exact H1|]. split; [exact H2|].
  refine (duplicate_in_row_detected insertion_order insertion_order_perm
            two_fives _ "A" "1" "2" "5" 0 Hi _ _ _ _ H1 H2).
  - apply contains_In. reflexivity.
  - apply contains_In. reflexivity.
  - apply contains_In. reflexivity.
  - discriminate.
Defined.

(** ** An empty candidate string in the grid *)

Lemma grid_of_keys (text : string) :
  (List.length (re_sub text) =? 81) = true -> map fst (grid_of text) = all_cells.
Proof.
  intros H. apply (Sudoku_init_grid text). unfold grid_of.
  rewrite Sudoku_init_eq, H. reflexivity.
Qed.

Lemma incl_firstn {A : Type} (n : nat) (l : list A) : incl (firstn n l) l.
Proof.
  intros x Hx. rewrite <- (firstn_skipn n l). apply in_or_app. now left.
Qed.

Lemma pairs_empty_cell (dict_order : list string -> list string) :
  (forall l, Permutation (dict_order l) l) ->
  exists self',
    simplify dict_order (grid_of pairs) = Some (self', Raise SudokuException)
    /\ dict_get self' "G1" = Some "".
Proof.
  intros Hperm.
  assert (Hkeys : map fst (grid_of pairs) = all_cells)
    by (apply grid_of_keys; vm_compute; reflexivity).
  assert (Hwf : well_formed (grid_of pairs))
    by (apply well_formed_check; [exact Hkeys | vm_compute; reflexivity]).
  assert (Hok : dict_ok (grid_of pairs)) by now apply well_formed_ok.
  apply (empty_cell_persists dict_order Hperm (grid_of pairs) pairs_after_column_1
           (firstn 10 areas) (skipn 10 areas)).
  - exact Hwf.
  - rewrite (complexity_weight dict_order Hperm) by exact Hok. vm_compute. discriminate.
  - symmetry. apply firstn_skipn.
  - apply (robust_run_sound dict_order Hperm).
    + apply incl_firstn.
    + now apply has_cells_check.
    + exact Hok.
    + vm_compute. reflexivity.
  - apply existsb_eqb_In. reflexivity.
  - vm_compute. reflexivity.
Qed.






Lemma empty_cell_is_stored :
  (exists self',
     simplify insertion_order (grid_of pairs) = Some (self', Raise SudokuException)
     /\ dict_get self' "G1" = Some "")
  /\ (forall dict_order, (forall l, Permutation (dict_order l) l) ->
      exists self',
        simplify dict_order (grid_of pairs) = Some (self', Raise SudokuException)
        /\ dict_get self' "G1" = Some "").
Proof.
  split; [apply pairs_empty_cell, insertion_order_perm | apply pairs_empty_cell].
Qed.

(** ** The stale loop variables of [solve] *)

Lemma all_stall :
  forallb (fun i => stalls_on (List.length (re_sub (given_at i)))
                      (grid_of (given_at i))
                      (robust_simplify 3 (grid_of (given_at i)))
                      (nth_error all_cells i))
    (seq 0 81) = true.
Proof. vm_compute. reflexivity. Qed.

Lemma stalls_on_spec (len : nat) (g : Sudoku) (oh : option Sudoku)
  (ocell : option string) :
  stalls_on len g oh ocell = true ->
  exists h cell,
    oh = Some h /\ ocell = Some cell /\ len = 81 /\ weight g <> 0
    /\ weight h <> 81 /\ dict_get h cell = Some "5"
    /\ (forall k v, In (k, v) h ->
          String.length v = 1 \/ String.length v = 8 \/ String.length v = 9)
    /\ (exists k v, In (k, v) h /\ String.length v = 8).
Proof.
  unfold stalls_on. intros H.
  apply andb_prop in H as [H H3]. apply andb_prop in H as [H1 H2].
  destruct oh as [h|]; [|discriminate]. destruct ocell as [cell|]; [|discriminate].
  apply andb_prop in H3 as [H3 H7]. apply andb_prop in H3 as [H3 H6].
  apply andb_prop in H3 as [H4 H5].
  exists h, cell. split; [reflexivity|]. split; [reflexivity|].
  split; [now apply Nat.eqb_eq|].
  split; [now apply negb_true_iff, Nat.eqb_neq in H2|].
  split; [now apply negb_true_iff, Nat.eqb_neq in H4|]. split; [|split].
  - unfold holds in H5. destruct (dict_get h cell) as [v|]; [|discriminate].
    apply String.eqb_eq in H5. now subst v.
  - intros k v Hv. rewrite forallb_forall in H6.
    specialize (H6 _ Hv). simpl in H6.
    rewrite !orb_true_iff, !Nat.eqb_eq in H6. tauto.
  - apply existsb_exists in H7. destruct H7 as ([k v] & Hin & Hl).
    exists k, v. split; [exact Hin | now apply Nat.eqb_eq in Hl].
Qed.

(** Propagation on the grid with one given, in every iteration order. *)
Lemma given_at_stalls (dict_order : list string -> list string) (i : nat)
  (cell : string) :
  (forall l, Permutation (dict_order l) l) ->
  nth_error all_cells i = Some cell ->
  exists h,
    simplify dict_order (grid_of (given_at i)) = Some (h, Ret false)
    /\ map fst h = all_cells
    /\ dict_get h cell = Some "5"
    /\ (forall k v, dict_get h k = Some v ->
          String.length v = 1 \/ String.length v = 8 \/ String.length v = 9)
    /\ (exists k v, dict_get h k = Some v /\ String.length v = 8)
    /\ robust_run areas h = Some h
    /\ weight h <> 81
    /\ dict_ok (grid_of (given_at i)).
Proof.
  intros Hperm Hi.
  assert (Hlt : i < 81).
  { rewrite <- all_cells_length. apply nth_error_Some. congruence. }
  pose proof all_stall as H. rewrite forallb_forall in H.
  specialize (H i ltac:(apply in_seq; lia)).
  destruct (stalls_on_spec _ _ _ _ H)
    as (h & cell' & R & Hc & Hlen & Hw & Hw' & H5 & H6 & k & v & Hin & H8).
  assert (cell' = cell) as -> by congruence.
  assert (Hkeys : map fst (grid_of (given_at i)) = all_cells)
    by (apply grid_of_keys; now apply Nat.eqb_eq).
  assert (Hok : dict_ok (grid_of (given_at i)))
    by (unfold dict_ok; rewrite Hkeys; apply all_cells_NoDup).
  pose proof (robust_simplify_sound dict_order Hperm 3 _ h
                (has_cells_check _ Hkeys) Hok Hw R) as Hs.
  rewrite (proj2 (Nat.eqb_neq _ _) Hw') in Hs.
  pose proof (simplify_shrunk _ _ _ _ Hs) as Hsh.
  assert (Hkeys' : map fst h = all_cells) by now rewrite (shrunk_keys _ _ Hsh).
  exists h. split; [exact Hs|]. split; [exact Hkeys'|]. split; [exact H5|].
  split; [|split; [|split; [|split; [exact Hw'|exact Hok]]]].
  - intros k0 v0 Hv%dict_get_In. eauto.
  - exists k, v. split; [|exact H8].
    apply In_dict_get; [|exact Hin]. unfold dict_ok. rewrite Hkeys'.
    apply all_cells_NoDup.
  - apply (robust_simplify_fixpoint dict_order Hperm 3 (grid_of (given_at i)));
      auto using has_cells_check.
Qed.

(** In every iteration order some puzzle with one given makes the scan for
    level 2 end on the given cell. *)
Lemma stale_scan (dict_order : list string -> list string) :
  (forall l, Permutation (dict_order l) l) ->
  exists i h cell,
    i < 81
    /\ simplify dict_order (grid_of (given_at i)) = Some (h, Ret false)
    /\ map fst h = all_cells
    /\ dict_get h cell = Some "5"
    /\ (forall k v, dict_get h k = Some v ->
          String.length v = 1 \/ String.length v = 8 \/ String.length v = 9)
    /\ (exists k v, dict_get h k = Some v /\ String.length v = 8)
    /\ scan 2 (iteritems dict_order h) (None, "") = (Some cell, "5")
    /\ forall rec,
         try_levels dict_order rec (seq 2 8) h
         = match try_options dict_order rec cell (chars "5") h with
           | Some (self', Ret None) => try_levels dict_order rec (seq 3 7) self'
           | r => r
           end.
Proof.
  intros Hperm.
  assert (Hne : dict_order all_cells <> []).
  { intros E. pose proof (Hperm all_cells) as P. rewrite E in P.
    apply Permutation_nil in P. discriminate. }
  destruct (exists_last Hne) as (K & L & HK).
  assert (HL : In L all_cells).
  { eapply Permutation_in; [apply Hperm|]. rewrite HK. apply in_or_app. right. now left. }
  destruct (In_nth_error _ _ HL) as [i Hi].
  destruct (given_at_stalls dict_order i L Hperm Hi)
    as (h & Hs & Hk & H5 & Hsz & H8 & _).
  assert (Hlt : i < 81).
  { rewrite <- all_cells_length. apply nth_error_Some. congruence. }
  assert (Hkeys : keys dict_order h = K ++ [L]) by (unfold keys; now rewrite Hk).
  destruct (iteritems_last dict_order h K L "5" Hkeys H5) as [items Hitems].
  assert (Hno : forall c o, In (c, o) (iteritems dict_order h) -> String.length o <> 2).
  { intros c o Hin%(In_iteritems dict_order Hperm).
    destruct (Hsz _ _ Hin) as [E|[E|E]]; rewrite E; discriminate. }
  exists i, h, L. repeat (split; [assumption|]). split.
  - apply (try_levels_stale dict_order (fun _ => None) 2 [] h L "5" items Hno Hitems).
  - intros rec. change (seq 2 8) with (2 :: seq 3 7).
    apply (try_levels_stale dict_order rec 2 (seq 3 7) h L "5" items Hno Hitems).
Qed.

Lemma stuck_loops (fuel : nat) : solve insertion_order fuel stuck = None.
Proof.
  induction fuel as [|fuel IH]; [reflexivity|]. rewrite solve_S.
  replace (simplify insertion_order stuck) with (Some (stuck, Ret false))
    by (vm_compute; reflexivity).
  change (seq 2 8) with (2 :: seq 3 7). rewrite try_levels_cons.
  replace (scan 2 (iteritems insertion_order stuck) (None, ""))
    with (Some "I9", "1") by (vm_compute; reflexivity).
  change (chars "1") with ["1"%char].
  rewrite try_options_diverges; [reflexivity|].
  replace (dict_set (copy insertion_order stuck) "I9" (char1 "1")) with stuck
    by (vm_compute; reflexivity).
  exact IH.
Qed.

Lemma blank_diverges (fuel : nat) :
  solve insertion_order fuel (grid_of blank) = None.
Proof.
  destruct fuel as [|fuel]; [reflexivity|]. rewrite solve_S.
  replace (simplify insertion_order (grid_of blank))
    with (Some (grid_of blank, Ret false)) by (vm_compute; reflexivity).
  change (seq 2 8) with (2 :: seq 3 7). rewrite try_levels_cons.
  replace (scan 2 (iteritems insertion_order (grid_of blank)) (None, ""))
    with (Some "I9", "123456789") by (vm_compute; reflexivity).
  change (chars "123456789") with ("1"%char :: chars "23456789").
  rewrite try_options_diverges; [reflexivity|].
  destruct fuel as [|fuel]; [reflexivity|]. rewrite solve_S.
  replace (simplify insertion_order
             (dict_set (copy insertion_order (grid_of blank)) "I9" (char1 "1")))
    with (Some (stuck, Ret false)) by (vm_compute; reflexivity).
  change (seq 2 8) with (2 :: seq 3 7). rewrite try_levels_cons.
  replace (scan 2 (iteritems insertion_order stuck) (None, ""))
    with (Some "I9", "1") by (vm_compute; reflexivity).
  change (chars "1") with ["1"%char].
  rewrite try_options_diverges; [reflexivity|].
  replace (dict_set (copy insertion_order stuck) "I9" (char1 "1")) with stuck
    by (vm_compute; reflexivity).
  apply stuck_loops.
Qed.

(** In an iteration order that re-inserting the 81 keys in iteration order
    does not change, [solve] does not come back on the puzzle whose only
    given is in the cell iterated last. *)
Lemma one_given_diverges (dict_order : list string -> list string) :
  (forall l, Permutation (dict_order l) l) ->
  dict_order (dict_order all_cells) = dict_order all_cells ->
  exists i, i < 81
            /\ forall fuel, solve dict_order fuel (grid_of (given_at i)) = None.
Proof.
  intros Hperm Hidem.
  assert (Hne : dict_order all_cells <> []).
  { intros E. pose proof (Hperm all_cells) as P. rewrite E in P.
    apply Permutation_nil in P. discriminate. }
  destruct (exists_last Hne) as (K & L & HK).
  assert (HL : In L all_cells).
  { eapply Permutation_in; [apply Hperm|]. rewrite HK. apply in_or_app. right. now left. }
  destruct (In_nth_error _ _ HL) as [i Hi].
  destruct (given_at_stalls dict_order i L Hperm Hi)
    as (h & Hs & Hk & H5 & Hsz & _ & R & H81 & Hok).
  assert (Hlt : i < 81).
  { rewrite <- all_cells_length. apply nth_error_Some. congruence. }
  exists i. split; [exact Hlt|]. intros fuel.
  assert (H0 : weight h <> 0).
  { pose proof (weight_ge h L "5" (dict_get_In _ _ _ H5)) as Hge. simpl in Hge. lia. }
  assert (Hno : forall k v, dict_get h k = Some v -> String.length v <> 2).
  { intros k v Hv. destruct (Hsz _ _ Hv) as [E|[E|E]]; rewrite E; discriminate. }
  pose proof (solve_loops dict_order Hperm h L "5" K Hk R H0 H81 Hno H5 HK Hidem
                fuel h (or_introl Hk) (fun k => eq_refl)) as Hloop.
  destruct fuel as [|fuel]; [reflexivity|].
  rewrite solve_S in Hloop |- *. rewrite Hs.
  rewrite (simplify_twice dict_order Hperm _ _ _ Hok Hs) in Hloop.
  exact Hloop.
Qed.

(** C4 on the code.  When no cell has [i] candidates the scan of [solve]
    ends on the last cell iterated, so in every iteration order there is a
    puzzle with one given on which the first trial is made at the given
    cell: the trial holds the same candidates as the grid it was copied
    from, and no further cell is determined before the recursive call.
    In an iteration order that stays the same when the 81 keys are
    inserted again in that order (the copy made for a trial), [solve] on
    that puzzle does not come back, whatever depth of recursion it is
    allowed: every trial holds the candidates of the grid before it.  With
    insertion order [solve] on the blank puzzle does not come back either:
    the scan ends on I9, the trial sets it to 1, and from then on every
    trial is the same grid. *)
Theorem solve_without_progress :
  (forall dict_order, (forall l, Permutation (dict_order l) l) ->
   exists i h cell,
     i < 81
     /\ simplify dict_order (grid_of (given_at i)) = Some (h, Ret false)
     /\ scan 2 (iteritems dict_order h) (None, "") = (Some cell, "5")
     /\ (forall rec,
           rec (dict_set (copy dict_order h) cell "5") = None ->
           try_levels dict_order rec (seq 2 8) h = None)
     /\ forall k, dict_get (dict_set (copy dict_order h) cell "5") k = dict_get h k)
  /\ (forall dict_order, (forall l, Permutation (dict_order l) l) ->
      dict_order (dict_order all_cells) = dict_order all_cells ->
      exists i, i < 81
                /\ forall fuel, solve dict_order fuel (grid_of (given_at i)) = None)
  /\ (forall fuel, solve insertion_order fuel (grid_of blank) = None).
Proof.
  split; [|split; [apply one_given_diverges|apply blank_diverges]].
  intros dict_order Hperm.
  destruct (stale_scan dict_order Hperm)
    as (i & h & cell & Hlt & Hs & Hk & H5 & _ & _ & Hscan & Htry).
  exists i, h, cell. repeat (split; [assumption|]). split.
  - intros rec Hrec. rewrite Htry. change (chars "5") with ["5"%char].
    now rewrite try_options_diverges.
  - apply (trial_same_content dict_order Hperm); [|exact H5].
    unfold dict_ok. rewrite Hk. apply all_cells_NoDup.
Qed.

(** C5 on the code.  In every iteration order there is a puzzle with one
    given on which propagation leaves the given cell with one candidate and
    every other cell with 8 or 9, so that the smallest level with a cell is
    8; yet the scan for level 2 ends on the given cell, and the trials of
    [solve] start there.  With insertion order the puzzle is the one whose
    given is in I9. *)
Theorem trial_at_determined_cell :
  (forall dict_order, (forall l, Permutation (dict_order l) l) ->
   exists i h cell,
     i < 81
     /\ simplify dict_order (grid_of (given_at i)) = Some (h, Ret false)
     /\ (forall k v, dict_get h k = Some v ->
           String.length v = 1 \/ String.length v = 8 \/ String.length v = 9)
     /\ (exists k v, dict_get h k = Some v /\ String.length v = 8)
     /\ dict_get h cell = Some "5"
     /\ scan 2 (iteritems dict_order h) (None, "") = (Some cell, "5")
     /\ forall rec,
          try_levels dict_order rec (seq 2 8) h
          = match try_options dict_order rec cell (chars "5") h with
            | Some (self', Ret None) => try_levels dict_order rec (seq 3 7) self'
            | r => r
            end)
  /\ simplify insertion_order (grid_of one_given)
     = Some (propagated (grid_of one_given), Ret false)
  /\ scan 2 (iteritems insertion_order (propagated (grid_of one_given))) (None, "")
     = (Some "I9", "5").
Proof.
  split; [|split; vm_compute; reflexivity].
  intros dict_order Hperm.
  destruct (stale_scan dict_order Hperm)
    as (i & h & cell & Hlt & Hs & Hk & H5 & Hsz & H8 & Hscan & Htry).
  exists i, h, cell. repeat (split; [assumption|]). exact Htry.
Qed.

(** ** Further properties on concrete grids *)

Lemma solve_refines_witness :
  dict_ok (grid_of two_ways)
  /\ solve insertion_order 2 (grid_of two_ways) = Some (grid_of solution, Ret true)
  /\ refines (grid_of solution) (grid_of two_ways)
  /\ forall cell c,
       dict_get (grid_of two_ways) cell = Some (char1 c) ->
       dict_get (grid_of solution) cell = Some (char1 c)
       \/ dict_get (grid_of solution) cell = Some "".
Proof.
  assert (Hok : dict_ok (grid_of two_ways)).
  { unfold dict_ok. rewrite grid_of_keys by (vm_compute; reflexivity).
    apply all_cells_NoDup. }
  assert (Hs : solve insertion_order 2 (grid_of two_ways)
               = Some (grid_of solution, Ret true))
    by (vm_compute; reflexivity).
  split; [exact Hok|]. split; [exact Hs|].
  exact (solve_refines insertion_order insertion_order_perm 2 _ _ _ Hok Hs).
Defined.

Lemma simplify_raises_unsolvable_witness :
  has_cells all_cells (grid_of two_fives)
  /\ exists self' e,
       simplify insertion_order (grid_of two_fives) = Some (self', Raise e)
       /\ e = SudokuException.
Proof.
  assert (Hc : has_cells all_cells (grid_of two_fives))
    by (apply has_cells_check, grid_of_keys; vm_compute; reflexivity).
  split; [exact Hc|].
  destruct (simplify insertion_order (grid_of two_fives)) as [[self' [b|e]]|] eqn:E;
    [vm_compute in E; discriminate | | vm_compute in E; discriminate].
  exists self', e. split; [reflexivity|].
  exact (simplify_raises_unsolvable insertion_order insertion_order_perm _ _ _ Hc E).
Defined.

Lemma copy_holds_same_witness :
  dict_ok (grid_of two_ways)
  /\ Permutation (map fst (copy insertion_order (grid_of two_ways)))
       (map fst (grid_of two_ways))
  /\ same (copy insertion_order (grid_of two_ways)) (grid_of two_ways).
Proof.
  assert (Hok : dict_ok (grid_of two_ways)).
  { unfold dict_ok. rewrite grid_of_keys by (vm_compute; reflexivity).
    apply all_cells_NoDup. }
  split; [exact Hok|].
  exact (copy_holds_same insertion_order insertion_order_perm _ Hok).
Defined.

(** ** Propagation and search on a puzzle with a solution *)

Lemma two_ways_solution :
  dict_ok (grid_of two_ways)
  /\ has_cells all_cells (grid_of two_ways)
  /\ solved_grid (grid_of solution)
  /\ fits (grid_of solution) (grid_of two_ways).
Proof.
  assert (Hk : map fst (grid_of two_ways) = all_cells)
    by (apply grid_of_keys; vm_compute; reflexivity).
  split; [unfold dict_ok; rewrite Hk; apply all_cells_NoDup|].
  split; [now apply has_cells_check|].
  split; [apply solved_check_ok | apply fits_check_ok]; vm_compute; reflexivity.
Qed.

Lemma simplify_keeps_solutions_witness :
  has_cells all_cells (grid_of two_ways)
  /\ solved_grid (grid_of solution)
  /\ fits (grid_of solution) (grid_of two_ways)
  /\ exists self' b,
       simplify insertion_order (grid_of two_ways) = Some (self', Ret b)
       /\ fits (grid_of solution) self'.
Proof.
  destruct two_ways_solution as (_ & Hs & Hsol & Hf).
  split; [exact Hs|]. split; [exact Hsol|]. split; [exact Hf|].
  exact (simplify_keeps_solutions insertion_order insertion_order_perm _ _ Hs Hsol Hf).
Defined.

Lemma solve_keeps_solutions_witness :
  dict_ok (grid_of two_ways)
  /\ has_cells all_cells (grid_of two_ways)
  /\ solved_grid (grid_of solution)
  /\ fits (grid_of solution) (grid_of two_ways)
  /\ solve insertion_order 2 (grid_of two_ways) = Some (grid_of solution, Ret true)
  /\ exists b, Ret true = Ret b /\ (b = false -> fits (grid_of solution) (grid_of solution)).
Proof.
  destruct two_ways_solution as (Hok & Hs & Hsol & Hf).
  assert (Hr : solve insertion_order 2 (grid_of two_ways)
               = Some (grid_of solution, Ret true))
    by (vm_compute; reflexivity).
  split; [exact Hok|]. split; [exact Hs|]. split; [exact Hsol|]. split; [exact Hf|].
  split; [exact Hr|].
  exact (solve_keeps_solutions insertion_order insertion_order_perm 2 _ _ _ _
           Hok Hs Hsol Hf Hr).
Defined.

Lemma solve_raises_unsolvable_witness :
  dict_ok (grid_of two_fives)
  /\ has_cells all_cells (grid_of two_fives)
  /\ exists self' e,
       solve insertion_order 1 (grid_of two_fives) = Some (self', Raise e)
       /\ e = SudokuException.
Proof.
  assert (Hk : map fst (grid_of two_fives) = all_cells)
    by (apply grid_of_keys; vm_compute; reflexivity).
  assert (Hok : dict_ok (grid_of two_fives))
    by (unfold dict_ok; rewrite Hk; apply all_cells_NoDup).
  pose proof (has_cells_check _ Hk) as Hs.
  split; [exact Hok|]. split; [exact Hs|].
  destruct (solve insertion_order 1 (grid_of two_fives)) as [[self' [b|e]]|] eqn:E;
    [vm_compute in E; discriminate | | vm_compute in E; discriminate].
  exists self', e. split; [reflexivity|].
  exact (solve_raises_unsolvable insertion_order insertion_order_perm 1 _ _ _ Hok Hs E).
Defined.

(** ** [display] on concrete grids *)

Lemma two_ways_plain :
  forall cell v, dict_get (grid_of two_ways) cell = Some v -> plain v.
Proof.
  assert (Hwf : well_formed (grid_of two_ways))
    by (apply well_formed_check; vm_compute; reflexivity).
  intros cell v Hv. apply digits_plain. destruct Hwf as [_ Hd]. eapply Hd, Hv.
Qed.

Lemma display_aligned_witness :
  has_cells all_cells (grid_of two_ways)
  /\ softspace fresh = false
  /\ exists maxlen lines,
       display insertion_order (grid_of two_ways) fresh
       = ({| written := (written fresh ++ unlines lines)%string; softspace := false |},
          Ret tt)
       /\ List.length lines = 11
       /\ (forall line, In line lines ->
             String.length line = 9 * maxlen + 12 /\ contains newline line = false)
       /\ (forall cell v, dict_get (grid_of two_ways) cell = Some v ->
             shown_length v <= maxlen)
       /\ exists cell v, dict_get (grid_of two_ways) cell = Some v
                         /\ shown_length v = maxlen.
Proof.
  destruct two_ways_solution as (_ & Hs & _).
  split; [exact Hs|]. split; [reflexivity|].
  exact (display_aligned insertion_order insertion_order_perm _ fresh Hs
           two_ways_plain eq_refl).
Defined.

Lemma display_raises_witness :
  (grid_of two_ways = [] ->
   display insertion_order (grid_of two_ways) fresh = (fresh, Raise ValueError))
  /\ (has_cells all_cells (grid_of two_ways) ->
      snd (display insertion_order (grid_of two_ways) fresh) = Ret tt)
  /\ (grid_of two_ways <> [] -> ~ has_cells all_cells (grid_of two_ways) ->
      snd (display insertion_order (grid_of two_ways) fresh) = Raise KeyError).
Proof.
  exact (display_raises insertion_order insertion_order_perm (grid_of two_ways) fresh).
Defined.

Lemma display_read_back_witness :
  all_determined (grid_of solution)
  /\ exists text self',
       display insertion_order (grid_of solution) fresh
       = ({| written := text; softspace := false |}, Ret tt)
       /\ Sudoku_init text = (self', Ret tt)
       /\ map fst self' = all_cells
       /\ forall cell, In cell all_cells ->
            dict_get self' cell = dict_get (grid_of solution) cell.
Proof.
  destruct two_ways_solution as (_ & _ & [Hdet _] & _).
  split; [exact Hdet|].
  exact (display_read_back insertion_order insertion_order_perm _ Hdet).
Defined.

(** [display] writes the same text in whatever order dictionaries are
    iterated: the order only enters the search for the longest string. *)
Theorem display_any_order (order1 order2 : list string -> list string)
  (self : Sudoku) (out : stdout) :
  (forall l, Permutation (order1 l) l) ->
  (forall l, Permutation (order2 l) l) ->
  dict_ok self ->
  display order1 self out = display order2 self out.
Proof.
  intros H1 H2 Hok. unfold display.
  assert (E : max_of (map shown_length (itervalues order1 self))
              = max_of (map shown_length (itervalues order2 self))).
  { apply max_of_perm, Permutation_map.
    etransitivity; [apply (itervalues_perm order1 H1 self Hok)|].
    symmetry. apply (itervalues_perm order2 H2 self Hok). }
  now rewrite E.
Qed.

Lemma display_any_order_witness :
  dict_ok (grid_of two_ways)
  /\ display insertion_order (grid_of two_ways) fresh
     = display (@rev string) (grid_of two_ways) fresh.
Proof.
  destruct two_ways_solution as (Hok & _).
  split; [exact Hok|].
  exact (display_any_order insertion_order (@rev string) _ fresh insertion_order_perm
           (fun l => Permutation_sym (Permutation_rev l)) Hok).
Defined.

(** ** Areas and construction on concrete grids *)

Lemma process_area_snapshot_witness :
  NoDup (area_cells "A" cols9)
  /\ (has_cells (area_cells "A" cols9) (grid_of two_ways) ->
      process_area "A" cols9 (simplify_area insertion_order) (grid_of two_ways)
      = simplify_area insertion_order
          (area_of (grid_of two_ways) (area_cells "A" cols9)) (grid_of two_ways))
  /\ (~ has_cells (area_cells "A" cols9) (grid_of two_ways) ->
      process_area "A" cols9 (simplify_area insertion_order) (grid_of two_ways)
      = (grid_of two_ways, Raise KeyError)).
Proof.
  assert (Hnd : NoDup (area_cells "A" cols9))
    by (apply distinct_NoDup; vm_compute; reflexivity).
  split; [exact Hnd|].
  exact (process_area_snapshot "A" cols9 (simplify_area insertion_order)
           (grid_of two_ways) Hnd).
Defined.

Lemma constructed_well_formed_witness :
  Sudoku_init two_ways = (grid_of two_ways, Ret tt)
  /\ map fst (grid_of two_ways) = all_cells
  /\ well_formed (grid_of two_ways)
  /\ no_empty_cell (grid_of two_ways)
  /\ complexity insertion_order (grid_of two_ways)
     = list_sum (map (fun c => if placeholder c then 9 else 1) (re_sub two_ways))
  /\ forall cell, In cell all_cells ->
       exists v, dict_get (grid_of two_ways) cell = Some v
                 /\ ((exists d, digit d = true /\ v = char1 d)
                     \/ v = "123456789").
Proof.
  assert (H : Sudoku_init two_ways = (grid_of two_ways, Ret tt))
    by (vm_compute; reflexivity).
  split; [exact H|].
  exact (constructed_well_formed insertion_order insertion_order_perm _ _ H).
Defined.

Lemma solved_iff_determined_witness :
  well_formed (grid_of solution)
  /\ no_empty_cell (grid_of solution)
  /\ (solved insertion_order (grid_of solution) = true
      <-> all_determined (grid_of solution)).
Proof.
  assert (Hwf : well_formed (grid_of solution))
    by (apply well_formed_check; vm_compute; reflexivity).
  assert (Hne : no_empty_cell (grid_of solution)).
  { destruct two_ways_solution as (_ & _ & [Hdet _] & _).
    intros cell Hc. destruct (Hdet cell Hc) as (d & _ & Hd).
    exists (char1 d). split; [exact Hd | discriminate]. }
  split; [exact Hwf|]. split; [exact Hne|].
  exact (solved_iff_determined insertion_order insertion_order_perm _ Hwf Hne).
Defined.

(** ** [sample] *)

(** [sample()] raises nothing, in whatever order dictionaries are iterated
    and whatever depth of recursion is allowed: neither [ValueError] from
    the constructor, nor [KeyError] from [display], nor [SudokuException]
    from [solve]. *)
Theorem sample_runs (dict_order : list string -> list string) (fuel : nat)
  (out : stdout) :
  (forall l, Permutation (dict_order l) l) ->
  sample dict_order fuel out = None
  \/ exists out', sample dict_order fuel out = Some (out', Ret tt).
Proof. intros H. now apply sample_returns. Qed.

Lemma sample_runs_witness :
  sample (@rev string) 1 fresh = None
  \/ exists out', sample (@rev string) 1 fresh = Some (out', Ret tt).
Proof.
  exact (sample_runs (@rev string) 1 fresh
           (fun l => Permutation_sym (Permutation_rev l))).
Defined.

(** ** Grids on which nothing is left to do *)

Lemma solved_grid_stays_witness :
  well_formed (grid_of solution)
  /\ solved_grid (grid_of solution)
  /\ simplify insertion_order (grid_of solution) = Some (grid_of solution, Ret true)
  /\ solve insertion_order 1 (grid_of solution) = Some (grid_of solution, Ret true).
Proof.
  assert (Hwf : well_formed (grid_of solution))
    by (apply well_formed_check; vm_compute; reflexivity).
  destruct two_ways_solution as (_ & _ & Hsol & _).
  split; [exact Hwf|]. split; [exact Hsol|].
  exact (solved_grid_stays insertion_order insertion_order_perm _ 0 Hwf Hsol).
Defined.

Lemma nothing_to_simplify_witness :
  complexity insertion_order [] = 0
  /\ simplify insertion_order [] = Some ([], Ret false)
  /\ solve insertion_order 1 [] = Some ([], Ret false).
Proof.
  split; [reflexivity|].
  exact (nothing_to_simplify insertion_order [] 0 eq_refl).
Defined.

(** ** From the text of a puzzle to its solution, on a concrete text *)

Lemma solve_solves_puzzle_witness :
  Sudoku_init two_ways = (grid_of two_ways, Ret tt)
  /\ solve insertion_order 2 (grid_of two_ways) = Some (grid_of solution, Ret true)
  /\ solved_grid (grid_of solution)
  /\ forall i c cell,
       nth_error (re_sub two_ways) i = Some c -> digit c = true ->
       nth_error all_cells i = Some cell ->
       dict_get (grid_of solution) cell = Some (char1 c).
Proof.
  assert (H : Sudoku_init two_ways = (grid_of two_ways, Ret tt))
    by (vm_compute; reflexivity).
  assert (Hs : solve insertion_order 2 (grid_of two_ways)
               = Some (grid_of solution, Ret true))
    by (vm_compute; reflexivity).
  split; [exact H|]. split; [exact Hs|].
  exact (solve_solves_puzzle insertion_order insertion_order_perm _ _ _ 2 H Hs).
Defined.
